(** * Watched-interval tracking: merge, percentage, resume and progress sync

    A shallow embedding of the interval engine documented in the project
    README ([mergeIntervals], [calculateUniqueWatchedTime],
    [calculateProgressPercentage]), of the resume-seek effect of the
    [VideoPlayer] component and of the progress operations of the
    [VideoProvider] context, with the properties they satisfy. *)

From Stdlib Require Import String Ascii ZArith QArith SpecFloat.
From Stdlib Require Import DecimalString DecimalZ DecimalPos.
From Stdlib Require Import List Lia Bool FinFun.
From Stdlib Require Import Sorting.Sorted Sorting.Permutation.
Import ListNotations.
Local Open Scope string_scope.
Local Open Scope list_scope.
Local Open Scope Z_scope.

(** ** Intervals and JS array primitives *)

(** An interval object [{start, end}]; seconds are integers. JavaScript puts
    no constraint between the two fields, so neither does the record. *)
Record Interval : Type := mkInterval { start : Z; end_ : Z }.

(** [a ~~ b] is the object [{start: a, end: b}]. *)
Notation "a ~~ b" := (mkInterval a b) (at level 45, no associativity).

(** [start <= end]: what the data model calls a well-formed interval. *)
Definition valid (iv : Interval) : Prop := start iv <= end_ iv.

(** The comparator passed to [Array.prototype.sort]: [(a, b) => a.start - b.start]. *)
Definition by_start (a b : Interval) : Z := start a - start b.

Section ArraySort.
Context {A : Type} (cmp : A -> A -> Z).

(** [Array.prototype.sort] is a stable sort: with a consistent comparator
    the outcome is the unique stable arrangement, which a right-to-left
    insertion computes. An element goes in front of the first element it
    does not compare greater than. *)
Fixpoint sort_insert (x : A) (l : list A) : list A :=
  match l with
  | [] => [x]
  | y :: t => if cmp x y <=? 0 then x :: y :: t else y :: sort_insert x t
  end.

Definition array_sort (l : list A) : list A := fold_right sort_insert [] l.
End ArraySort.

(** [lastMerged.end = e] on the object held at [result[result.length - 1]]. *)
Fixpoint set_last_end (result : list Interval) (e : Z) : list Interval :=
  match result with
  | [] => []
  | [lastMerged] => [start lastMerged ~~ e]
  | r :: rest => r :: set_last_end rest e
  end.

(** ** mergeIntervals *)

(** One iteration of the [for] loop: [current] is [sortedIntervals[i]] and
    [lastMerged] is [result[result.length - 1]]. [result] is never empty in
    the loop (it starts as [[sortedIntervals[0]]] and only grows), so the
    default of [last] is never read. *)
Definition merge_iteration (result : list Interval) (current : Interval)
  : list Interval :=
  let lastMerged := last result current in
  if start current <=? end_ lastMerged + 1
  then set_last_end result (Z.max (end_ lastMerged) (end_ current))
  else result ++ [current].

(** The README function on values: an array is the list of the
    [start]/[end] pairs of its objects. The loop writes the [end] field of
    an object that also sits in the caller's array; [mergeIntervals_store]
    below keeps the objects in a store, and the two return the same values
    ([mergeIntervals_store_values]). After the early return the sorted copy
    has at least two elements, so the empty case of the [match] is never
    taken. *)
Definition mergeIntervals (intervals : list Interval) : list Interval :=
  if (Z.of_nat (length intervals) <=? 1) then intervals
  else
    let sortedIntervals := array_sort by_start intervals in
    match sortedIntervals with
    | [] => []
    | first :: rest => fold_left merge_iteration rest [first]
    end.

(** ** mergeIntervals on the object store *)

(** The same function with what JavaScript shares made explicit: an array
    holds references, [[...intervals]] copies the references and not the
    objects, and [lastMerged.end = ...] writes to an object that the caller's
    array, and possibly several slots of it, also refer to. *)
Definition Ref : Type := nat.

Definition Store : Type := Ref -> Interval.

Definition store_set_end (h : Store) (r : Ref) (e : Z) : Store :=
  fun r' => if Nat.eqb r' r then start (h r) ~~ e else h r'.

Definition merge_iteration_store (st : list Ref * Store) (current : Ref)
  : list Ref * Store :=
  let (result, h) := st in
  let lastMerged := last result current in
  if start (h current) <=? end_ (h lastMerged) + 1
  then (result,
        store_set_end h lastMerged (Z.max (end_ (h lastMerged)) (end_ (h current))))
  else (result ++ [current], h).

Definition mergeIntervals_store (h : Store) (intervals : list Ref)
  : list Ref * Store :=
  if (Z.of_nat (length intervals) <=? 1) then (intervals, h)
  else
    let sortedIntervals :=
      array_sort (fun a b => start (h a) - start (h b)) intervals in
    match sortedIntervals with
    | [] => ([], h)
    | first :: rest => fold_left merge_iteration_store rest ([first], h)
    end.

(** The algorithm as the design document words it, on an already sorted
    sequence: [last] is the result entry under construction; an interval
    that starts no later than [last.end + 1] extends it, any other one closes
    it and becomes the new [last]. *)
Fixpoint merge_spec_from (last : Interval) (rest : list Interval)
  : list Interval :=
  match rest with
  | [] => [last]
  | cur :: rest' =>
      if start cur <=? end_ last + 1
      then merge_spec_from (start last ~~ Z.max (end_ last) (end_ cur)) rest'
      else last :: merge_spec_from cur rest'
  end.

Definition merge_spec_sorted (sorted : list Interval) : list Interval :=
  match sorted with
  | [] => []
  | first :: rest => merge_spec_from first rest
  end.

(** ** Orderings and canonical form *)

Definition le_start (a b : Interval) : Prop := start a <= start b.

(** [next.start > current.end + 1] for a consecutive pair. *)
Definition apart (current next : Interval) : Prop :=
  start next > end_ current + 1.

Definition canonical (l : list Interval) : Prop :=
  Sorted le_start l /\ Sorted apart l.

(** A second of footage [z] lies in one of the intervals of [l]. *)
Definition covers (l : list Interval) (z : Z) : Prop :=
  exists iv, In iv l /\ start iv <= z <= end_ iv.

(** What holds between two iterations of the loop on the store: [h0] is
    the store at the call, [init ++ [l]] the result so far, [h] the store
    now and [rest] the references still to come. *)
Definition store_inv (h0 : Store) (init : list Ref) (l : Ref) (h : Store)
           (rest : list Ref) : Prop :=
  (forall r, start (h r) = start (h0 r))
  /\ (forall c, In c rest ->
                h c = h0 c
                \/ (c = l /\ start (h0 c) <= end_ (h c) + 1
                    /\ end_ (h0 c) <= end_ (h c)))
  /\ (In l init -> start (h l) > end_ (h l) + 1)
  /\ Sorted apart (map h (init ++ [l]))
  /\ (forall r c, In r (init ++ [l]) -> In c rest -> start (h0 r) <= start (h0 c))
  /\ Sorted le_start (map h0 rest).

(** Stable two-way merge of sorted sequences: on equal keys the left
    operand goes first. It describes how [array_sort] arranges [A ++ B]. *)
Fixpoint smerge (l1 : list Interval) : list Interval -> list Interval :=
  match l1 with
  | [] => fun l2 => l2
  | a :: l1' =>
      fix inner (l2 : list Interval) : list Interval :=
        match l2 with
        | [] => a :: l1'
        | b :: l2' =>
            if by_start a b <=? 0 then a :: smerge l1' l2 else b :: inner l2'
        end
  end.

(** [last.end = Math.max(last.end, e)] as a value. *)
Definition raise (l : Interval) (e : Z) : Interval :=
  start l ~~ Z.max (end_ l) e.

(** A result entry [out] accounts for an input interval [iv]: it starts no
    later and ends no earlier, and either begins at the very second [iv]
    begins (the entry [iv] opened) or reaches to within one second of that
    second (an entry that absorbed [iv]). *)
Definition accounts_for (out iv : Interval) : Prop :=
  start out <= start iv
  /\ end_ iv <= end_ out
  /\ (start out = start iv \/ start iv <= end_ out + 1).

(** The seconds of footage an interval stands for, in order; none when
    [end < start]. *)
Definition seconds_of (iv : Interval) : list Z :=
  map (fun i => start iv + Z.of_nat i)
      (seq 0 (Z.to_nat (end_ iv - start iv + 1))).

Definition watched_seconds (l : list Interval) : list Z :=
  flat_map seconds_of l.

(** ** calculateUniqueWatchedTime and calculateProgressPercentage *)

Definition calculateUniqueWatchedTime (intervals : list Interval) : Z :=
  fold_left (fun total interval => total + (end_ interval - start interval + 1))
            intervals 0.

(** The sum the design document writes for the unique seconds. *)
Definition uniqueSeconds_spec (intervals : list Interval) : Z :=
  fold_right Z.add 0 (map (fun iv => end_ iv - start iv + 1) intervals).

(** A JavaScript number: an IEEE-754 binary64 value, that is a signed zero,
    a signed infinity, NaN, or a sign with a mantissa [m] and an exponent
    [e] standing for [m * 2^e]. The operations are the library's
    specification of binary64 arithmetic (53 bits of precision, exponents
    up to 1024), rounding to nearest, ties to even. *)
Definition double : Type := spec_float.

(** The double an integer-valued number is; exact below [2^53]. *)
Definition double_of_Z (z : Z) : double := binary_normalize 53 1024 z 0 false.

(** [a / b]. *)
Definition js_div (a b : double) : double := SFdiv 53 1024 a b.

(** [a * b]. *)
Definition js_mul (a b : double) : double := SFmul 53 1024 a b.

(** [a <= b]; false as soon as one side is NaN. *)
Definition js_le (a b : double) : bool := SFleb a b.

Definition calculateProgressPercentage (intervals : list Interval) (duration : Z)
  : double :=
  let totalWatchedSeconds := calculateUniqueWatchedTime intervals in
  js_mul (js_div (double_of_Z totalWatchedSeconds) (double_of_Z duration))
         (double_of_Z 100).

(** What a rounding step knows of the exact quantity it rounds: the
    mantissa [m] of the record is the integer part of [X / W], and the two
    bits below it are both clear exactly when nothing is left over. *)
Definition bracket (mrs : shr_record) (W X : Z) : Prop :=
  0 <= shr_m mrs
  /\ shr_m mrs * W <= X < (shr_m mrs + 1) * W
  /\ ((shr_r mrs = false /\ shr_s mrs = false) <-> X = shr_m mrs * W).

Definition clamp (x lo hi : Q) : Q :=
  if Qle_bool x lo then lo else if Qle_bool hi x then hi else x.

(** The percentage as the design document words it: [0] for a duration that
    is not positive, the clamped quotient otherwise. *)
Definition percentage_spec (intervals : list Interval) (duration : Z) : Q :=
  if duration <=? 0 then 0%Q
  else clamp (inject_Z (uniqueSeconds_spec intervals) / inject_Z duration * 100) 0 100.

(** ** The resume-seek effect of the VideoPlayer component *)

(** The object [reactPlayer.getInternalPlayer()] hands out, known by its
    identity. Calling [seekTo] on it may throw, for instance when it has no
    such method. *)
Record PlayerHandle : Type := mkPlayerHandle {
  handle_id : nat;
  seekTo_throws : bool
}.

(** The [video] prop; the effect below receives it and never reads it. *)
Record Video : Type := mkVideo { video_id : string; duration : Z }.

(** Component state: [player], [isReady], [currentTime]. *)
Record PlayerState : Type := mkPlayerState {
  player : option PlayerHandle;
  isReady : bool;
  currentTime : Z
}.

Inductive PlayerCall : Type := SeekTo (seconds : Z).

(** A pending [setTimeout] of the resume effect with what its callback
    closes over. *)
Record Timer : Type := mkTimer {
  timer_delay : Z;
  timer_player : PlayerHandle;
  timer_position : Z
}.

(** The dependency array [[player, lastPosition, isReady]]. *)
Definition ResumeDeps : Type := (option PlayerHandle * Z * bool)%type.

(** React compares dependencies with [Object.is]: objects by identity. *)
Definition same_player (a b : option PlayerHandle) : bool :=
  match a, b with
  | Some p, Some q => Nat.eqb (handle_id p) (handle_id q)
  | None, None => true
  | _, _ => false
  end.

Definition same_deps (a b : ResumeDeps) : bool :=
  let '(p1, l1, r1) := a in
  let '(p2, l2, r2) := b in
  same_player p1 p2 && (l1 =? l2) && Bool.eqb r1 r2.

(** The component between renders: its state, the dependencies the resume
    effect last ran with, its pending timer, and the calls made on the
    player so far. *)
Record View : Type := mkView {
  state : PlayerState;
  resumeDeps : option ResumeDeps;
  timer : option Timer;
  calls : list PlayerCall
}.

Definition initialView : View :=
  mkView (mkPlayerState None false 0) None None [].

(** [onReady]: [setPlayerReference(reactPlayer.getInternalPlayer())], that
    is [setPlayer(playerInstance)]. *)
Definition onReady (internalPlayer : option PlayerHandle) (v : View) : View :=
  mkView (mkPlayerState internalPlayer (isReady (state v)) (currentTime (state v)))
         (resumeDeps v) (timer v) (calls v).

(** [if (player && !isReady) setIsReady(true)], on the rendered state.
    Running it again on unchanged dependencies changes nothing, so it is
    run at every commit. *)
Definition readyEffect (s : PlayerState) : bool :=
  match player s with
  | Some _ => if negb (isReady s) then true else isReady s
  | None => isReady s
  end.

(** The body of the resume effect on the rendered state: a timer is set
    under the guard [player && isReady && lastPosition > 0]. *)
Definition resumeEffect (lastPosition : Z) (s : PlayerState) : option Timer :=
  match player s with
  | Some p =>
      if isReady s && (0 <? lastPosition)
      then Some (mkTimer 1000 p lastPosition)
      else None
  | None => None
  end.

(** One render followed by its effects. Both effects read the state as
    rendered, so [setIsReady(true)] shows only in the next render. The
    resume effect runs on mount and when a dependency changed; its cleanup
    ([clearTimeout]) then drops the timer of the previous run. *)
Definition commit (video : Video) (lastPosition : Z) (v : View) : View :=
  let s := state v in
  let deps := (player s, lastPosition, isReady s) in
  let rerun :=
    match resumeDeps v with
    | None => true
    | Some before => negb (same_deps before deps)
    end in
  mkView (mkPlayerState (player s) (readyEffect s) (currentTime s))
         (Some deps)
         (if rerun then resumeEffect lastPosition s else timer v)
         (calls v).

(** The timer callback: [player.seekTo(lastPosition)] and then
    [setCurrentTime(lastPosition)], inside [try]/[catch]. *)
Definition fireTimer (v : View) : View :=
  match timer v with
  | Some t =>
      let s := state v in
      let calls' := calls v ++ [SeekTo (timer_position t)] in
      if seekTo_throws (timer_player t)
      then mkView s (resumeDeps v) None calls'
      else mkView (mkPlayerState (player s) (isReady s) (timer_position t))
                  (resumeDeps v) None calls'
  | None => v
  end.

(** What happens to the mounted component: a render with the
    [lastPosition] the progress hook currently hands out, the player
    reporting ready, the pending timer running out. *)
Inductive Event : Type :=
| Render (lastPosition : Z)
| Ready (internalPlayer : option PlayerHandle)
| Timeout.

Definition step (video : Video) (v : View) (ev : Event) : View :=
  match ev with
  | Render lastPosition => commit video lastPosition v
  | Ready internalPlayer => onReady internalPlayer v
  | Timeout => fireTimer v
  end.

Definition run (video : Video) (evs : list Event) : View :=
  fold_left (step video) evs initialView.

(** Loading a video whose stored position is already at hand: mount, the
    player reports ready, the two renders this causes, and the timer
    running out. *)
Definition resumeOnLoad (video : Video) (lastPosition : Z)
           (internalPlayer : option PlayerHandle) : View :=
  run video [Render lastPosition; Ready internalPlayer;
             Render lastPosition; Render lastPosition; Timeout].

(** What every reachable view satisfies, given the events so far. *)
Definition seek_justified (evs : list Event) (z : Z) : Prop :=
  0 < z /\ In (Render z) evs /\ exists p, In (Ready (Some p)) evs.

Definition view_ok (evs : list Event) (v : View) : Prop :=
  (forall p, player (state v) = Some p -> In (Ready (Some p)) evs)
  /\ (forall t, timer v = Some t -> seek_justified evs (timer_position t))
  /\ (forall z, In (SeekTo z) (calls v) -> seek_justified evs z).

(** A view in which the resume effect has run for [lastPosition] with the
    player [p] ready and has no timer left. *)
Definition settled_view (p : PlayerHandle) (lastPosition : Z) (v : View) : Prop :=
  player (state v) = Some p
  /\ isReady (state v) = true
  /\ resumeDeps v = Some (Some p, lastPosition, true)
  /\ timer v = None.

(** A pending timer always carries the [lastPosition] the resume effect
    last ran with. *)
Definition timer_current (v : View) : Prop :=
  forall t, timer v = Some t ->
            exists p r, resumeDeps v = Some (p, timer_position t, r).

(** ** The progress operations of the VideoProvider context *)

(** JavaScript values as they travel through the context. *)
Inductive jsval : Type :=
| JUndefined
| JNull
| JBool (b : bool)
| JNum (z : Z)
| JStr (s : string)
| JObj (fields : jsfields)
with jsfields : Type :=
| NoField
| Field (key : string) (value : jsval) (rest : jsfields).

(** Truthiness, as [if] and [&&] test it. *)
Definition truthy (v : jsval) : bool :=
  match v with
  | JUndefined | JNull => false
  | JBool b => b
  | JNum z => negb (z =? 0)
  | JStr s => negb (String.eqb s EmptyString)
  | JObj _ => true
  end.

Fixpoint lookup_field (k : string) (fields : jsfields) : jsval :=
  match fields with
  | NoField => JUndefined
  | Field k' v rest => if String.eqb k k' then v else lookup_field k rest
  end.

(** How a piece of code completes: with a value, or by throwing. *)
Inductive Completion (A : Type) : Type :=
| Normal (a : A)
| Throw (e : jsval).
Arguments Normal {A} a.
Arguments Throw {A} e.

(** The state the provider keeps with [useState]. *)
Record VideoState : Type := mkVideoState {
  videos : jsval;
  currentVideo : jsval;
  progress : jsval;
  loading : bool;
  error : jsval
}.

Inductive Method : Type := GET | POST | DELETE.

Record Request : Type := mkRequest {
  req_method : Method;
  req_url : string;
  req_body : option jsval
}.

(** What an axios promise settles to: a response object with its [data],
    or a rejection (network failure, error status). *)
Inductive AxiosResult : Type :=
| Resolved (data : jsval)
| Rejected (err : jsval).

(** Everything an operation can touch: provider state, the requests sent
    so far and the console. *)
Record World : Type := mkWorld {
  ctx : VideoState;
  requests : list Request;
  console : list string
}.

(** Effectful code: a world in, a completion and a world out. *)
Definition Eff (A : Type) : Type := World -> Completion A * World.

Definition ret {A : Type} (a : A) : Eff A := fun w => (Normal a, w).

Definition bind {A B : Type} (c : Eff A) (k : A -> Eff B) : Eff B :=
  fun w =>
    match c w with
    | (Normal a, w') => k a w'
    | (Throw e, w') => (Throw e, w')
    end.

Definition throw {A : Type} (e : jsval) : Eff A := fun w => (Throw e, w).

(** [try { c } catch (err) { handler(err) }] *)
Definition try_catch {A : Type} (c : Eff A) (handler : jsval -> Eff A) : Eff A :=
  fun w =>
    match c w with
    | (Normal a, w') => (Normal a, w')
    | (Throw e, w') => handler e w'
    end.

Declare Scope eff_scope.
Delimit Scope eff_scope with eff.
Notation "x <- c ;; k" := (bind c (fun x => k))
  (at level 61, c at next level, right associativity) : eff_scope.
Notation "c ;; k" := (bind c (fun _ => k))
  (at level 61, right associativity) : eff_scope.

Definition console_log (msg : string) : Eff unit :=
  fun w => (Normal tt, mkWorld (ctx w) (requests w) (console w ++ [msg])).

Definition console_error (msg : string) : Eff unit := console_log msg.

Definition setProgress (v : jsval) : Eff unit :=
  fun w =>
    let s := ctx w in
    (Normal tt,
     mkWorld (mkVideoState (videos s) (currentVideo s) v (loading s) (error s))
             (requests w) (console w)).

Definition setError (v : jsval) : Eff unit :=
  fun w =>
    let s := ctx w in
    (Normal tt,
     mkWorld (mkVideoState (videos s) (currentVideo s) (progress s) (loading s) v)
             (requests w) (console w)).

(** [obj.key]: reading a property of [undefined] or [null] throws a
    TypeError, a primitive has no such property. *)
Definition get_prop (obj : jsval) (key : string) : Eff jsval :=
  match obj with
  | JUndefined | JNull => throw (JStr "TypeError")
  | JObj fields => ret (lookup_field key fields)
  | _ => ret JUndefined
  end.

Definition api_progress (videoId : string) : string :=
  String.append "https://tutedude-production.up.railway.app/api/progress/" videoId.

Section Provider.

(** The server and the network between: any behaviour at all. *)
Variable axios : Request -> AxiosResult.

(** [await axios.get(url)], [await axios.post(url, data)],
    [await axios.delete(url)]: the request goes out, then the promise
    settles; the value is [res.data]. *)
Definition await_axios (req : Request) : Eff jsval :=
  fun w =>
    let w' := mkWorld (ctx w) (requests w ++ [req]) (console w) in
    match axios req with
    | Resolved data => (Normal data, w')
    | Rejected err => (Throw err, w')
    end.

Local Open Scope eff_scope.

(** The part the three operations share after the response arrived:
    [if (res.data.success && res.data.data) { setProgress(res.data.data);
    setError(null); return res.data.data; } return null;] *)
Definition adopt_response (res_data : jsval) (what : string) : Eff jsval :=
  success <- get_prop res_data "success" ;;
  test <- (if truthy success then get_prop res_data "data" else ret success) ;;
  if truthy test then
    console_log what ;;
    data <- get_prop res_data "data" ;;
    setProgress data ;;
    setError JNull ;;
    ret data
  else ret JNull.

Definition getVideoProgress (isAuthenticated : bool) (videoId : string)
  : Eff jsval :=
  if negb isAuthenticated then
    console_log "User not authenticated, skipping progress fetch" ;;
    ret JNull
  else
    try_catch
      (console_log "Fetching progress for video:" ;;
       res_data <- await_axios (mkRequest GET (api_progress videoId) None) ;;
       console_log "Progress response:" ;;
       adopt_response res_data "Setting progress from progress response:")
      (fun err => console_error "Error fetching progress:" ;; ret JNull).

Definition updateProgress (isAuthenticated : bool) (videoId : string)
           (data : jsval) : Eff jsval :=
  if negb isAuthenticated then
    console_log "User not authenticated, skipping progress update" ;;
    ret JNull
  else
    try_catch
      (console_log "Updating progress for video:" ;;
       res_data <- await_axios (mkRequest POST (api_progress videoId) (Some data)) ;;
       console_log "Update progress response:" ;;
       adopt_response res_data "Setting progress from update response:")
      (fun err => console_error "Error updating progress:" ;; ret JNull).

Definition resetProgress (isAuthenticated : bool) (videoId : string)
  : Eff jsval :=
  if negb isAuthenticated then
    console_log "User not authenticated, skipping progress reset" ;;
    ret JNull
  else
    try_catch
      (console_log "Resetting progress for video:" ;;
       res_data <- await_axios (mkRequest DELETE (api_progress videoId) None) ;;
       console_log "Reset progress response:" ;;
       adopt_response res_data "Setting progress from reset response:")
      (fun err => console_error "Error resetting progress:" ;; ret JNull).

End Provider.

(** The data of a response that reports success and carries some. *)
Definition payload (r : AxiosResult) : option jsval :=
  match r with
  | Resolved (JObj fields) =>
      if truthy (lookup_field "success" fields)
         && truthy (lookup_field "data" fields)
      then Some (lookup_field "data" fields)
      else None
  | _ => None
  end.

(** The provider state after a response with data [d] has been adopted. *)
Definition adopted (s : VideoState) (d : jsval) : VideoState :=
  mkVideoState (videos s) (currentVideo s) d (loading s) JNull.

(** What an authenticated operation comes to, given how its request
    settled: it returns the data and adopts it, or returns [null] and leaves
    the provider state alone; in both cases the one request has gone out. *)
Definition settled (req : Request) (result : AxiosResult) (w : World)
           (outcome : Completion jsval * World) : Prop :=
  requests (snd outcome) = requests w ++ [req]
  /\ match payload result with
     | Some d => fst outcome = Normal d /\ ctx (snd outcome) = adopted (ctx w) d
     | None => fst outcome = Normal JNull /\ ctx (snd outcome) = ctx w
     end.

(** What an operation comes to when it declines to act. *)
Definition skipped (w : World) (outcome : Completion jsval * World) : Prop :=
  fst outcome = Normal JNull
  /\ ctx (snd outcome) = ctx w
  /\ requests (snd outcome) = requests w.

(** ** The video operations of the VideoProvider context *)

Definition setVideos (v : jsval) : Eff unit :=
  fun w =>
    let s := ctx w in
    (Normal tt,
     mkWorld (mkVideoState v (currentVideo s) (progress s) (loading s) (error s))
             (requests w) (console w)).

Definition setCurrentVideo (v : jsval) : Eff unit :=
  fun w =>
    let s := ctx w in
    (Normal tt,
     mkWorld (mkVideoState (videos s) v (progress s) (loading s) (error s))
             (requests w) (console w)).

Definition setLoading (b : bool) : Eff unit :=
  fun w =>
    let s := ctx w in
    (Normal tt,
     mkWorld (mkVideoState (videos s) (currentVideo s) (progress s) b (error s))
             (requests w) (console w)).

(** [try { c } finally { f }]: [f] runs however [c] completes, and the
    completion of [c] stands unless [f] throws. *)
Definition try_finally {A : Type} (c : Eff A) (f : Eff unit) : Eff A :=
  fun w =>
    match c w with
    | (r, w') =>
        match f w' with
        | (Normal _, w'') => (r, w'')
        | (Throw e, w'') => (Throw e, w'')
        end
    end.

(** [obj?.key]: [undefined] where [obj] is [undefined] or [null]. *)
Definition opt_prop (obj : jsval) (key : string) : jsval :=
  match obj with
  | JObj fields => lookup_field key fields
  | _ => JUndefined
  end.

(** [a || b] *)
Definition js_or (a b : jsval) : jsval := if truthy a then a else b.

(** [err.response?.data?.message || fallback]; reading [response] off
    [undefined] or [null] throws. *)
Definition error_message (err : jsval) (fallback : string) : Eff jsval :=
  bind (get_prop err "response") (fun response =>
  ret (js_or (opt_prop (opt_prop response "data") "message") (JStr fallback))).

Definition nullish (v : jsval) : bool :=
  match v with
  | JUndefined | JNull => true
  | _ => false
  end.

(** What [getVideos] returns: [res.data.data], or a fresh empty array. *)
Inductive VideosResult : Type :=
| VideosData (data : jsval)
| EmptyArray.

Definition api_videos : string :=
  "https://tutedude-production.up.railway.app/api/videos".

Definition api_video (id : string) : string :=
  String.append "https://tutedude-production.up.railway.app/api/videos/" id.

(** What the page shows. *)
Inductive Page : Type :=
| LoadingPage
| ErrorPage (message : jsval)
| NotFoundPage
| PlayerPage (video : jsval).

(** The render of the page component: [if (loading) ...; if (error) ...;
    if (!currentVideo) ...; return <VideoPlayerComponent .../>]. *)
Definition renderPage (s : VideoState) : Page :=
  if loading s then LoadingPage
  else if truthy (error s) then ErrorPage (error s)
  else if negb (truthy (currentVideo s)) then NotFoundPage
  else PlayerPage (currentVideo s).

Section VideoOperations.

Variable axios : Request -> AxiosResult.

Local Open Scope eff_scope.

Definition getVideos : Eff VideosResult :=
  setLoading true ;;
  try_finally
    (try_catch
       (console_log "Fetching all videos" ;;
        res_data <- await_axios axios (mkRequest GET api_videos None) ;;
        console_log "Videos response:" ;;
        data <- get_prop res_data "data" ;;
        setVideos data ;;
        setError JNull ;;
        returned <- get_prop res_data "data" ;;
        ret (VideosData returned))
       (fun err =>
          console_error "Error fetching videos:" ;;
          message <- error_message err "Error fetching videos" ;;
          setError message ;;
          ret EmptyArray))
    (setLoading false).

(** [getVideoProgress] called without [await] runs up to its own [await]:
    the log line is written and the request goes out. *)
Definition getVideoProgress_begin (videoId : string) : Eff AxiosResult :=
  console_log "Fetching progress for video:" ;;
  (fun w =>
     let req := mkRequest GET (api_progress videoId) None in
     (Normal (axios req), mkWorld (ctx w) (requests w ++ [req]) (console w))).

(** The rest of that call, run when its request has settled. *)
Definition getVideoProgress_resume (settledTo : AxiosResult) : Eff jsval :=
  try_catch
    (res_data <- match settledTo with
                 | Resolved data => ret data
                 | Rejected err => throw err
                 end ;;
     console_log "Progress response:" ;;
     adopt_response res_data "Setting progress from progress response:")
    (fun err => console_error "Error fetching progress:" ;; ret JNull).

(** [getVideo]. Besides [res.data] it hands back how the request of a
    detached [getVideoProgress] settles, when it started one: that call is
    not awaited, so its remainder runs after [getVideo] has returned. *)
Definition getVideo (isAuthenticated : bool) (id : string)
  : Eff (jsval * option AxiosResult) :=
  setLoading true ;;
  try_finally
    (try_catch
       (console_log "Fetching video with ID:" ;;
        res_data <- await_axios axios (mkRequest GET (api_video id) None) ;;
        console_log "Video response:" ;;
        data <- get_prop res_data "data" ;;
        setCurrentVideo data ;;
        test <- (if isAuthenticated then get_prop res_data "progress"
                 else ret (JBool false)) ;;
        detached <-
          (if truthy test then
             console_log "Setting progress from video response:" ;;
             stored <- get_prop res_data "progress" ;;
             setProgress stored ;;
             ret None
           else if isAuthenticated then
             settledTo <- getVideoProgress_begin id ;;
             ret (Some settledTo)
           else ret None) ;;
        setError JNull ;;
        ret (res_data, detached))
       (fun err =>
          console_error "Error fetching video:" ;;
          message <- error_message err "Error fetching video" ;;
          setError message ;;
          throw err))
    (setLoading false).

(** The effect of the page component:
    [try { await getVideo(id) } catch (err) { console.error(...) }]. The
    source function returns nothing; the value here only keeps track of the
    detached call [getVideo] may have left behind. *)
Definition fetchVideo (isAuthenticated : bool) (id : string)
  : Eff (option AxiosResult) :=
  try_catch
    (out <- getVideo isAuthenticated id ;; ret (snd out))
    (fun err => console_error "Error fetching video:" ;; ret None).

End VideoOperations.

(** ** The AuthProvider context *)

Module AuthContext.

(** The state the provider keeps with [useState]. *)
Record State : Type := mkState {
  user : jsval;
  token : jsval;
  isAuthenticated : bool;
  loading : bool;
  error : jsval
}.

(** What the provider can touch: its state, the [token] entry of
    [localStorage], the default [Authorization] header of axios, the requests
    sent so far, each with the header it went out with, and the console. *)
Record World : Type := mkWorld {
  auth : State;
  storedToken : option string;
  authorization : option string;
  sent : list (Request * option string);
  console : list string
}.

Definition Eff (A : Type) : Type := World -> Completion A * World.

Definition ret {A : Type} (a : A) : Eff A := fun w => (Normal a, w).

Definition bind {A B : Type} (c : Eff A) (k : A -> Eff B) : Eff B :=
  fun w =>
    match c w with
    | (Normal a, w') => k a w'
    | (Throw e, w') => (Throw e, w')
    end.

Definition throw {A : Type} (e : jsval) : Eff A := fun w => (Throw e, w).

Definition try_catch {A : Type} (c : Eff A) (handler : jsval -> Eff A) : Eff A :=
  fun w =>
    match c w with
    | (Normal a, w') => (Normal a, w')
    | (Throw e, w') => handler e w'
    end.

Declare Scope auth_scope.
Delimit Scope auth_scope with auth.
Notation "x <- c ;; k" := (bind c (fun x => k))
  (at level 61, c at next level, right associativity) : auth_scope.
Notation "c ;; k" := (bind c (fun _ => k))
  (at level 61, right associativity) : auth_scope.

Definition update (f : State -> State) : Eff unit :=
  fun w =>
    (Normal tt,
     mkWorld (f (auth w)) (storedToken w) (authorization w) (sent w) (console w)).

Definition setUser (v : jsval) : Eff unit :=
  update (fun s => mkState v (token s) (isAuthenticated s) (loading s) (error s)).

Definition setToken (v : jsval) : Eff unit :=
  update (fun s => mkState (user s) v (isAuthenticated s) (loading s) (error s)).

Definition setIsAuthenticated (b : bool) : Eff unit :=
  update (fun s => mkState (user s) (token s) b (loading s) (error s)).

Definition setLoading (b : bool) : Eff unit :=
  update (fun s => mkState (user s) (token s) (isAuthenticated s) b (error s)).

Definition setError (v : jsval) : Eff unit :=
  update (fun s => mkState (user s) (token s) (isAuthenticated s) (loading s) v).

Definition console_error (msg : string) : Eff unit :=
  fun w =>
    (Normal tt,
     mkWorld (auth w) (storedToken w) (authorization w) (sent w)
             (console w ++ [msg])).

Definition get_prop (obj : jsval) (key : string) : Eff jsval :=
  match obj with
  | JUndefined | JNull => throw (JStr "TypeError")
  | JObj fields => ret (lookup_field key fields)
  | _ => ret JUndefined
  end.

Definition api_me : string :=
  "https://tutedude-production.up.railway.app/api/auth/me".

Definition api_register : string :=
  "https://tutedude-production.up.railway.app/api/auth/register".

Definition api_login : string :=
  "https://tutedude-production.up.railway.app/api/auth/login".

Section Provider.

(** The server, and JavaScript's conversion of a value to a string, which
    the template literal and [localStorage.setItem] both apply. *)
Variable axios : Request -> AxiosResult.
Variable toString : jsval -> string.

Local Open Scope auth_scope.

Definition await_axios (req : Request) : Eff jsval :=
  fun w =>
    let w' := mkWorld (auth w) (storedToken w) (authorization w)
                      (sent w ++ [(req, authorization w)]) (console w) in
    match axios req with
    | Resolved data => (Normal data, w')
    | Rejected err => (Throw err, w')
    end.

Definition setAuthToken (tok : jsval) : Eff unit :=
  fun w =>
    if truthy tok
    then (Normal tt,
          mkWorld (auth w) (Some (toString tok))
                  (Some (String.append "Bearer " (toString tok)))
                  (sent w) (console w))
    else (Normal tt, mkWorld (auth w) None None (sent w) (console w)).

Definition loadUser : Eff unit :=
  (fun w =>
     (if truthy (token (auth w)) then
        setAuthToken (token (auth w)) ;;
        try_catch
          (res_data <- await_axios (mkRequest GET api_me None) ;;
           u <- get_prop res_data "user" ;;
           setUser u ;;
           setIsAuthenticated true)
          (fun err =>
             console_error "Error loading user:" ;;
             setToken JNull ;;
             setUser JNull ;;
             setIsAuthenticated false ;;
             setAuthToken JNull)
      else ret tt) w) ;;
  setLoading false.

(** The body [register] and [login] share, up to the address and the
    fallback message. *)
Definition authenticate (url fallback : string) (formData : jsval) : Eff jsval :=
  try_catch
    (res_data <- await_axios (mkRequest POST url (Some formData)) ;;
     t <- get_prop res_data "token" ;;
     setToken t ;;
     u <- get_prop res_data "user" ;;
     setUser u ;;
     setIsAuthenticated true ;;
     t' <- get_prop res_data "token" ;;
     setAuthToken t' ;;
     setError JNull ;;
     ret res_data)
    (fun err =>
       response <- get_prop err "response" ;;
       data <- get_prop response "data" ;;
       message <- get_prop data "message" ;;
       setError (js_or message (JStr fallback)) ;;
       throw err).

Definition register (formData : jsval) : Eff jsval :=
  authenticate api_register "Registration failed" formData.

Definition login (formData : jsval) : Eff jsval :=
  authenticate api_login "Login failed" formData.

Definition logout : Eff unit :=
  setToken JNull ;;
  setUser JNull ;;
  setIsAuthenticated false ;;
  setAuthToken JNull.

Definition clearError : Eff unit := setError JNull.

(** What happens to the provider, one thing after the other: the load on
    mount and the calls the context offers. *)
Inductive Action : Type :=
| DoLoadUser
| DoRegister (formData : jsval)
| DoLogin (formData : jsval)
| DoLogout
| DoClearError.

Definition perform (w : World) (a : Action) : World :=
  match a with
  | DoLoadUser => snd (loadUser w)
  | DoRegister formData => snd (register formData w)
  | DoLogin formData => snd (login formData w)
  | DoLogout => snd (logout w)
  | DoClearError => snd (clearError w)
  end.

End Provider.

(** The header is the bearer form of the stored token, or both are
    absent. *)
Definition credentials_in_sync (w : World) : Prop :=
  authorization w = option_map (String.append "Bearer ") (storedToken w).

(** The message [err.response.data.message] when every link of the chain
    can be read. *)
Definition failure_message (err : jsval) : option jsval :=
  if nullish err then None
  else if nullish (opt_prop err "response") then None
  else if nullish (opt_prop (opt_prop err "response") "data") then None
  else Some (opt_prop (opt_prop (opt_prop err "response") "data") "message").

End AuthContext.

(** ** formatTime of the VideoPlayer component *)

(** [n.toString()] for an integer-valued number: decimal digits, a minus
    sign for a negative one. *)
Definition number_to_string (z : Z) : string :=
  NilZero.string_of_int (Z.to_int z).

(** [s.padStart(2, '0')] *)
Definition padStart2 (s : string) : string :=
  match String.length s with
  | 0%nat => "00"
  | 1%nat => String "0"%char s
  | _ => s
  end.

(** [formatTime]: anything that is not a number gives '00:00'. On the
    integers [JNum] holds, [Math.floor(seconds / 60)] is the floor quotient
    and [Math.floor(seconds % 60)] the remainder with the sign of
    [seconds]. *)
Definition formatTime (seconds : jsval) : string :=
  match seconds with
  | JNum z =>
      let minutes := z / 60 in
      let remainingSeconds := Z.rem z 60 in
      String.append (padStart2 (number_to_string minutes))
        (String.append ":" (padStart2 (number_to_string remainingSeconds)))
  | _ => "00:00"
  end.

(** Reading a decimal numeral back. *)
Definition read_number (s : string) : option Z :=
  option_map Z.of_int (NilZero.int_of_string s).

(** ** The api client (services/api.js) *)

(** What the interceptors touch of the browser: the [token] entry of
    [localStorage] and [window.location.href]. *)
Record Browser : Type := mkBrowser {
  localToken : option string;
  location : string
}.

(** A request configuration, as far as the interceptor goes: where to, and
    [config.headers.Authorization]. *)
Record Config : Type := mkConfig {
  config_url : string;
  config_authorization : option string
}.

(** The request interceptor: a stored token that is not empty goes into
    the header, over whatever was there. *)
Definition requestInterceptor (b : Browser) (config : Config) : Config :=
  match localToken b with
  | Some token =>
      if negb (String.eqb token EmptyString)
      then mkConfig (config_url config) (Some (String.append "Bearer " token))
      else config
  | None => config
  end.

(** The error side of the response interceptor:
    [if (error.response && error.response.status === 401) {...}
     return Promise.reject(error)]. *)
Definition responseErrorInterceptor (error : jsval) (b : Browser)
  : Completion jsval * Browser :=
  if nullish error then (Throw (JStr "TypeError"), b)
  else
    let response := opt_prop error "response" in
    let unauthorized :=
      if truthy response
      then match opt_prop response "status" with
           | JNum status => status =? 401
           | _ => false
           end
      else false in
    if unauthorized
    then (Throw error, mkBrowser None "/login")
    else (Throw error, b).

(** * Properties of the sort *)

Section SortFacts.

Lemma sort_insert_perm (x : Interval) (l : list Interval) :
  Permutation (x :: l) (sort_insert by_start x l).
Proof.
  induction l as [|y t IH]; simpl; [reflexivity|].
  destruct (by_start x y <=? 0); [reflexivity|].
  rewrite perm_swap. now apply perm_skip.
Qed.

Lemma array_sort_perm (l : list Interval) :
  Permutation l (array_sort by_start l).
Proof.
  induction l as [|x t IH]; simpl; [constructor|].
  rewrite <- sort_insert_perm. now apply perm_skip.
Qed.

Lemma sort_insert_hd (x a : Interval) (l : list Interval) :
  le_start a x -> HdRel le_start a l -> HdRel le_start a (sort_insert by_start x l).
Proof.
  intros Hax Hal. destruct l as [|y t]; simpl; [now constructor|].
  destruct (by_start x y <=? 0); constructor; trivial.
  now inversion Hal.
Qed.

Lemma sort_insert_sorted (x : Interval) (l : list Interval) :
  Sorted le_start l -> Sorted le_start (sort_insert by_start x l).
Proof.
  induction 1 as [|y t Hs IH Hhd]; simpl.
  - repeat constructor.
  - unfold by_start at 1. destruct (Z.leb_spec (start x - start y) 0) as [Hle|Hgt].
    + constructor; [now constructor|]. constructor. unfold le_start; lia.
    + constructor; [exact IH|].
      apply sort_insert_hd; [unfold le_start; lia | exact Hhd].
Qed.

Lemma array_sort_sorted (l : list Interval) :
  Sorted le_start (array_sort by_start l).
Proof.
  induction l as [|x t IH]; simpl; [constructor|]. now apply sort_insert_sorted.
Qed.

(** Stability: the elements of any given [start] keep their input order. *)
Lemma sort_insert_filter (s : Z) (x : Interval) (l : list Interval) :
  filter (fun iv => start iv =? s) (sort_insert by_start x l)
  = filter (fun iv => start iv =? s) (x :: l).
Proof.
  induction l as [|y t IH]; [reflexivity|].
  cbn [sort_insert]. unfold by_start at 1.
  destruct (Z.leb_spec (start x - start y) 0) as [Hle|Hgt]; [reflexivity|].
  cbn [filter] in *. rewrite IH.
  destruct (Z.eqb_spec (start x) s), (Z.eqb_spec (start y) s); try reflexivity; lia.
Qed.

Lemma array_sort_stable (s : Z) (l : list Interval) :
  filter (fun iv => start iv =? s) (array_sort by_start l)
  = filter (fun iv => start iv =? s) l.
Proof.
  induction l as [|x t IH]; [reflexivity|].
  cbn [array_sort fold_right]. rewrite sort_insert_filter.
  cbn [filter]. fold (array_sort by_start t). now rewrite IH.
Qed.

(** A sequence already in order is left as it is. *)
Lemma array_sort_sorted_id (l : list Interval) :
  Sorted le_start l -> array_sort by_start l = l.
Proof.
  induction 1 as [|x t Hs IH Hhd]; [reflexivity|].
  cbn [array_sort fold_right]. fold (array_sort by_start t). rewrite IH.
  destruct Hhd as [|y t' Hxy]; [reflexivity|].
  cbn [sort_insert]. unfold by_start, le_start in *.
  destruct (Z.leb_spec (start x - start y) 0); [reflexivity|lia].
Qed.

Lemma le_start_trans : Relations_1.Transitive le_start.
Proof. intros a b c; unfold le_start; lia. Qed.

Lemma filter_start_none (s : Z) (l : list Interval) :
  Forall (fun iv => s < start iv) l -> filter (fun iv => start iv =? s) l = [].
Proof.
  induction 1 as [|x l Hx _ IH]; [reflexivity|]. cbn [filter].
  destruct (Z.eqb_spec (start x) s); [lia|exact IH].
Qed.

Lemma sorted_above (a : Interval) (l : list Interval) (s : Z) :
  Sorted le_start (a :: l) -> s < start a -> Forall (fun iv => s < start iv) (a :: l).
Proof.
  intros Hs Hlt. constructor; [exact Hlt|].
  pose proof (Sorted_extends le_start_trans Hs) as Hall.
  eapply Forall_impl; [|exact Hall]. unfold le_start. intros; cbn in *; lia.
Qed.

(** There is only one stable arrangement in start order, so what is said
    here of [array_sort] holds of the sort of any engine. *)
Lemma stable_sorted_unique (S1 : list Interval) :
  forall S2,
    Sorted le_start S1 -> Sorted le_start S2 ->
    (forall s, filter (fun iv => start iv =? s) S1
               = filter (fun iv => start iv =? s) S2) ->
    S1 = S2.
Proof.
  induction S1 as [|a t1 IH]; intros [|b t2] H1 H2 Hf.
  - reflexivity.
  - specialize (Hf (start b)). cbn [filter] in Hf.
    rewrite Z.eqb_refl in Hf. discriminate.
  - specialize (Hf (start a)). cbn [filter] in Hf.
    rewrite Z.eqb_refl in Hf. discriminate.
  - assert (Hab : start a = start b).
    { destruct (Z.lt_trichotomy (start a) (start b)) as [Hlt|[Heq|Hgt]]; [|exact Heq|].
      - specialize (Hf (start a)).
        rewrite (filter_start_none (start a) (b :: t2)) in Hf
          by (now apply sorted_above).
        cbn [filter] in Hf. rewrite Z.eqb_refl in Hf. discriminate.
      - specialize (Hf (start b)).
        rewrite (filter_start_none (start b) (a :: t1)) in Hf
          by (now apply sorted_above).
        cbn [filter] in Hf. rewrite Z.eqb_refl in Hf. discriminate. }
    assert (a = b).
    { specialize (Hf (start a)). cbn [filter] in Hf.
      rewrite <- Hab, Z.eqb_refl in Hf. now injection Hf. }
    subst b. f_equal. apply IH.
    + now inversion H1.
    + now inversion H2.
    + intros s. specialize (Hf s). cbn [filter] in Hf.
      destruct (start a =? s); [now injection Hf|exact Hf].
Qed.

Lemma array_sort_unique (X S : list Interval) :
  Sorted le_start S ->
  (forall s, filter (fun iv => start iv =? s) S = filter (fun iv => start iv =? s) X) ->
  S = array_sort by_start X.
Proof.
  intros Hs Hf. apply stable_sorted_unique; [exact Hs|apply array_sort_sorted|].
  intros s. now rewrite Hf, array_sort_stable.
Qed.

End SortFacts.

(** * The loop of [mergeIntervals] against the worded algorithm *)

Section LoopRefinement.

Lemma last_snoc {A : Type} (pre : list A) (l d : A) :
  last (pre ++ [l]) d = l.
Proof.
  induction pre as [|p pre IH]; [reflexivity|].
  change ((p :: pre) ++ [l]) with (p :: (pre ++ [l])).
  destruct (pre ++ [l]) eqn:E; [now destruct pre|exact IH].
Qed.

Lemma set_last_end_snoc (pre : list Interval) (l : Interval) (e : Z) :
  set_last_end (pre ++ [l]) e = pre ++ [start l ~~ e].
Proof.
  induction pre as [|p pre IH]; [reflexivity|].
  change ((p :: pre) ++ [l]) with (p :: (pre ++ [l])).
  cbn [set_last_end]. destruct (pre ++ [l]) eqn:E; [now destruct pre|].
  now rewrite IH.
Qed.

(** With the entry under construction at the end of [result], running the
    loop over [rest] leaves the closed entries alone and finishes the last
    one as the worded algorithm does. *)
Lemma loop_refines (rest pre : list Interval) (l : Interval) :
  fold_left merge_iteration rest (pre ++ [l]) = pre ++ merge_spec_from l rest.
Proof.
  revert pre l. induction rest as [|cur rest IH]; intros pre l; [reflexivity|].
  cbn [fold_left merge_spec_from]. unfold merge_iteration at 2.
  rewrite last_snoc. destruct (start cur <=? end_ l + 1).
  - rewrite set_last_end_snoc. apply IH.
  - rewrite (IH (pre ++ [l]) cur), <- app_assoc. reflexivity.
Qed.

(** The early return for at most one element agrees with the general
    path, so [mergeIntervals] is the worded algorithm on the sorted input. *)
Lemma mergeIntervals_refines (X : list Interval) :
  mergeIntervals X = merge_spec_sorted (array_sort by_start X).
Proof.
  unfold mergeIntervals.
  destruct X as [|x [|y t]]; [reflexivity|reflexivity|].
  destruct (Z.leb_spec (Z.of_nat (length (x :: y :: t))) 1) as [H|_].
  { cbn [length] in H. lia. }
  cbv zeta. destruct (array_sort by_start (x :: y :: t)) as [|f r]; [reflexivity|].
  exact (loop_refines r [] f).
Qed.

End LoopRefinement.

(** * The loop on the object store against the loop on values *)

Section StoreRefinement.

Lemma sort_insert_map (h : Store) (x : Ref) (l : list Ref) :
  map h (sort_insert (fun a b => start (h a) - start (h b)) x l)
  = sort_insert by_start (h x) (map h l).
Proof.
  induction l as [|y t IH]; [reflexivity|].
  cbn [sort_insert map]. unfold by_start at 1.
  destruct (start (h x) - start (h y) <=? 0); [reflexivity|].
  cbn [map]. now rewrite IH.
Qed.

Lemma array_sort_map (h : Store) (l : list Ref) :
  map h (array_sort (fun a b => start (h a) - start (h b)) l)
  = array_sort by_start (map h l).
Proof.
  induction l as [|x t IH]; [reflexivity|].
  cbn [array_sort fold_right map].
  fold (array_sort (fun a b => start (h a) - start (h b)) t).
  fold (array_sort by_start (map h t)).
  now rewrite sort_insert_map, IH.
Qed.

Lemma store_set_end_same (h : Store) (r : Ref) (e : Z) :
  store_set_end h r e r = start (h r) ~~ e.
Proof. unfold store_set_end. now rewrite Nat.eqb_refl. Qed.

Lemma store_set_end_other (h : Store) (r r' : Ref) (e : Z) :
  r' <> r -> store_set_end h r e r' = h r'.
Proof.
  intros Hne. unfold store_set_end.
  destruct (Nat.eqb_spec r' r); [contradiction|reflexivity].
Qed.

Lemma store_set_end_map (h : Store) (r : Ref) (e : Z) (l : list Ref) :
  ~ In r l -> map (store_set_end h r e) l = map h l.
Proof.
  intros Hn. apply map_ext_in. intros a Ha. apply store_set_end_other.
  intros ->. contradiction.
Qed.

Lemma apart_snoc_change (pre : list Interval) (lv : Interval) (e : Z) :
  Sorted apart (pre ++ [lv]) -> Sorted apart (pre ++ [start lv ~~ e]).
Proof.
  induction pre as [|p pre IH]; intros H; cbn [app] in *.
  - repeat constructor.
  - inversion H as [|? ? Hs Hhd]; subst. constructor; [now apply IH|].
    destruct pre as [|q pre]; cbn [app] in *.
    + inversion Hhd; subst. constructor. unfold apart in *; cbn; lia.
    + inversion Hhd; subst. now constructor.
Qed.

Lemma apart_snoc_push (pre : list Interval) (lv vc : Interval) :
  Sorted apart (pre ++ [lv]) -> apart lv vc -> Sorted apart ((pre ++ [lv]) ++ [vc]).
Proof.
  induction pre as [|p pre IH]; intros H Ha; cbn [app] in *.
  - repeat constructor. exact Ha.
  - inversion H as [|? ? Hs Hhd]; subst. constructor; [now apply IH|].
    destruct pre as [|q pre]; cbn [app] in *; inversion Hhd; subst; now constructor.
Qed.

(** In a sequence with gaps every entry but the last has a later entry
    that starts beyond its end. *)
Lemma apart_successor (h : Store) (init : list Ref) (l c : Ref) :
  Sorted apart (map h (init ++ [l])) -> In c init ->
  exists r, In r (init ++ [l]) /\ start (h r) > end_ (h c) + 1.
Proof.
  induction init as [|p init IH]; intros Hs Hin; [destruct Hin|].
  cbn [app map] in Hs. inversion Hs as [|? ? Hs' Hhd]; subst.
  destruct Hin as [->|Hin].
  - destruct init as [|q init]; cbn [app map] in Hhd; inversion Hhd; subst.
    + exists l. split; [cbn; auto|assumption].
    + exists q. split; [cbn; auto|assumption].
  - destruct (IH Hs' Hin) as (r & Hr & Hgt). exists r. split; [now right|exact Hgt].
Qed.

Lemma store_inv_step (h0 h : Store) (init : list Ref) (l c : Ref) (rest : list Ref) :
  store_inv h0 init l h (c :: rest) ->
  exists init' l' h',
    merge_iteration_store (init ++ [l], h) c = (init' ++ [l'], h')
    /\ map h' (init' ++ [l']) = merge_iteration (map h (init ++ [l])) (h0 c)
    /\ store_inv h0 init' l' h' rest.
Proof.
  intros (I2 & I3 & I4 & I5 & I6 & I7).
  assert (Hl : In l (init ++ [l])) by (apply in_or_app; right; now left).
  assert (Hc : In c (c :: rest)) by now left.
  pose proof (I6 l c Hl Hc) as Hlc.
  pose proof (I2 l) as Hsl. pose proof (I2 c) as Hsc.
  assert (I7' : Sorted le_start (map h0 rest)) by (cbn in I7; now inversion I7).
  assert (Hrest : forall c', In c' rest -> start (h0 c) <= start (h0 c')).
  { intros c' Hin. cbn [map] in I7.
    pose proof (Sorted_extends le_start_trans I7) as Hall.
    rewrite Forall_forall in Hall. apply (Hall (h0 c')). now apply in_map. }
  unfold merge_iteration_store, merge_iteration.
  rewrite map_app. cbn [map]. rewrite !last_snoc, Hsc.
  destruct (Z.leb_spec (start (h0 c)) (end_ (h l) + 1)) as [Hle|Hgt].
  - (* absorbed *)
    assert (Hm : Z.max (end_ (h l)) (end_ (h c)) = Z.max (end_ (h l)) (end_ (h0 c))).
    { destruct (I3 c Hc) as [->|(-> & _ & He)]; [reflexivity|lia]. }
    assert (Hnin : ~ In l init) by (intros Hin; specialize (I4 Hin); lia).
    exists init, l, (store_set_end h l (Z.max (end_ (h l)) (end_ (h c)))).
    split; [reflexivity|]. split.
    + rewrite map_app. cbn [map].
      rewrite store_set_end_map, store_set_end_same, set_last_end_snoc by exact Hnin.
      now rewrite Hm.
    + split; [|split; [|split; [|split; [|split]]]].
      * intros r. unfold store_set_end.
        destruct (Nat.eqb_spec r l) as [->|_]; [cbn; exact Hsl|apply I2].
      * intros c' Hin. destruct (Nat.eq_dec c' l) as [->|Hne].
        -- right. rewrite store_set_end_same. cbn [end_].
           split; [reflexivity|].
           destruct (I3 l (or_intror Hin)) as [Heq|(_ & _ & He)];
             [rewrite <- Heq|]; lia.
        -- rewrite store_set_end_other by exact Hne.
           destruct (I3 c' (or_intror Hin)) as [Heq|(-> & _)];
             [now left|contradiction].
      * intros Hin. contradiction.
      * rewrite map_app. cbn [map].
        rewrite store_set_end_map, store_set_end_same by exact Hnin.
        apply apart_snoc_change. now rewrite map_app in I5.
      * intros r c' Hr Hc'. apply I6; [exact Hr|now right].
      * exact I7'.
  - (* pushed *)
    assert (Heq : h c = h0 c).
    { destruct (I3 c Hc) as [Heq|(-> & Hs & _)]; [exact Heq|lia]. }
    exists (init ++ [l]), c, h.
    split; [reflexivity|]. split.
    + rewrite !map_app. cbn [map]. now rewrite Heq.
    + split; [exact I2|]. split; [|split; [|split; [|split]]].
      * intros c' Hin. destruct (I3 c' (or_intror Hin)) as [Hq|(-> & Hs & _)];
          [now left|].
        specialize (Hrest l Hin). lia.
      * intros Hin. apply in_app_or in Hin as [Hin|[->|[]]].
        -- destruct (apart_successor h init l c I5 Hin) as (r & Hr & Hgt').
           pose proof (I6 r c Hr Hc) as Hrc. pose proof (I2 r). lia.
        -- lia.
      * rewrite map_app. cbn [map]. rewrite map_app in *. cbn [map] in *.
        apply apart_snoc_push; [exact I5|]. unfold apart. lia.
      * intros r c' Hr Hc'. apply in_app_or in Hr as [Hr|[<-|[]]].
        -- apply I6; [exact Hr|now right].
        -- now apply Hrest.
      * exact I7'.
Qed.

Lemma store_loop_refines (h0 : Store) (rest : list Ref) :
  forall (init : list Ref) (l : Ref) (h : Store),
    store_inv h0 init l h rest ->
    let final := fold_left merge_iteration_store rest (init ++ [l], h) in
    map (snd final) (fst final)
    = fold_left merge_iteration (map h0 rest) (map h (init ++ [l])).
Proof.
  induction rest as [|c rest IH]; intros init l h Hinv; [reflexivity|].
  cbn [fold_left map].
  destruct (store_inv_step h0 h init l c rest Hinv) as (init' & l' & h' & -> & <- & Hinv').
  now apply IH.
Qed.

(** The values found behind the returned references are what
    [mergeIntervals] computes from the values behind the given ones, however
    the given references repeat or share objects. *)
Lemma mergeIntervals_store_values (h : Store) (intervals : list Ref) :
  let out := mergeIntervals_store h intervals in
  map (snd out) (fst out) = mergeIntervals (map h intervals).
Proof.
  unfold mergeIntervals_store, mergeIntervals. rewrite length_map.
  destruct (Z.of_nat (length intervals) <=? 1); [reflexivity|]. cbv zeta.
  rewrite <- array_sort_map.
  pose proof (array_sort_sorted (map h intervals)) as Hs.
  rewrite <- array_sort_map in Hs.
  destruct (array_sort (fun a b => start (h a) - start (h b)) intervals)
    as [|first rest]; [reflexivity|].
  cbn [map] in *.
  apply (store_loop_refines h rest [] first h).
  split; [reflexivity|]. split; [now left|]. split; [intros []|].
  split; [repeat constructor|]. split; [|now inversion Hs].
  intros r c [<-|[]] Hin.
  pose proof (Sorted_extends le_start_trans Hs) as Hall.
  rewrite Forall_forall in Hall. apply (Hall (h c)). now apply in_map.
Qed.

End StoreRefinement.

(** * Canonical form of the result *)

Section Canonical.

Lemma merge_spec_from_hd (l : Interval) (rest : list Interval) :
  exists e tl, merge_spec_from l rest = (start l ~~ e) :: tl /\ end_ l <= e.
Proof.
  revert l. induction rest as [|cur rest IH]; intros l; cbn [merge_spec_from].
  - exists (end_ l), []. destruct l; split; [reflexivity|cbn; lia].
  - destruct (start cur <=? end_ l + 1).
    + destruct (IH (start l ~~ Z.max (end_ l) (end_ cur))) as (e & tl & -> & He).
      exists e, tl. cbn in *. split; [reflexivity|lia].
    + exists (end_ l), (merge_spec_from cur rest).
      destruct l; split; [reflexivity|cbn; lia].
Qed.

Lemma sorted_absorb (l cur : Interval) (rest : list Interval) (e : Z) :
  Sorted le_start (l :: cur :: rest) -> Sorted le_start ((start l ~~ e) :: rest).
Proof.
  intros H. inversion H as [|? ? Hs Hhd]; subst.
  inversion Hs as [|? ? Hs' Hhd']; subst.
  constructor; [exact Hs'|].
  inversion Hhd; subst. destruct Hhd' as [|z rest' Hz]; constructor.
  unfold le_start in *; cbn; lia.
Qed.

Lemma merge_spec_from_sorted (rest : list Interval) (l : Interval) :
  Sorted le_start (l :: rest) -> Sorted le_start (merge_spec_from l rest).
Proof.
  revert l. induction rest as [|cur rest IH]; intros l H; cbn [merge_spec_from].
  - repeat constructor.
  - destruct (start cur <=? end_ l + 1).
    + apply IH. eapply sorted_absorb; eassumption.
    + inversion H as [|? ? Hs Hhd]; subst. constructor; [now apply IH|].
      destruct (merge_spec_from_hd cur rest) as (e & tl & -> & _).
      constructor. inversion Hhd; subst. unfold le_start in *; cbn; lia.
Qed.

Lemma merge_spec_from_apart (rest : list Interval) (l : Interval) :
  Sorted apart (merge_spec_from l rest).
Proof.
  revert l. induction rest as [|cur rest IH]; intros l; cbn [merge_spec_from].
  - repeat constructor.
  - destruct (Z.leb_spec (start cur) (end_ l + 1)) as [Hle|Hgt]; [apply IH|].
    constructor; [apply IH|].
    destruct (merge_spec_from_hd cur rest) as (e & tl & -> & _).
    constructor. unfold apart; cbn; lia.
Qed.

Lemma merge_spec_sorted_canonical (S : list Interval) :
  Sorted le_start S -> canonical (merge_spec_sorted S).
Proof.
  intros H. destruct S as [|f r]; [split; constructor|].
  split; [now apply merge_spec_from_sorted | apply merge_spec_from_apart].
Qed.

Lemma mergeIntervals_canonical (X : list Interval) :
  canonical (mergeIntervals X).
Proof.
  rewrite mergeIntervals_refines.
  apply merge_spec_sorted_canonical, array_sort_sorted.
Qed.

(** On a canonical sequence the algorithm changes nothing. *)
Lemma merge_spec_from_fixed (rest : list Interval) (l : Interval) :
  Sorted apart (l :: rest) -> merge_spec_from l rest = l :: rest.
Proof.
  revert l. induction rest as [|cur rest IH]; intros l H; [reflexivity|].
  cbn [merge_spec_from]. inversion H as [|? ? Hs Hhd]; subst.
  inversion Hhd; subst. unfold apart in *.
  destruct (Z.leb_spec (start cur) (end_ l + 1)); [lia|].
  now rewrite IH.
Qed.

Lemma mergeIntervals_fixed (L : list Interval) :
  canonical L -> mergeIntervals L = L.
Proof.
  intros [Hs Ha]. rewrite mergeIntervals_refines, array_sort_sorted_id by exact Hs.
  destruct L as [|f r]; [reflexivity|]. now apply merge_spec_from_fixed.
Qed.

End Canonical.

(** * Well-formed intervals: the seconds covered *)

Section Coverage.

Lemma covers_cons (a : Interval) (l : list Interval) (z : Z) :
  covers (a :: l) z <-> start a <= z <= end_ a \/ covers l z.
Proof.
  unfold covers; split.
  - intros (iv & [<-|Hin] & Hz); [now left|right; eauto].
  - intros [Hz|(iv & Hin & Hz)]; [exists a|exists iv]; cbn; auto.
Qed.

Lemma covers_nil (z : Z) : ~ covers [] z.
Proof. now intros (iv & [] & _). Qed.

Lemma covers_perm (l l' : list Interval) (z : Z) :
  Permutation l l' -> covers l z <-> covers l' z.
Proof.
  intros HP; split; intros (iv & Hin & Hz); exists iv; split; trivial.
  - eapply Permutation_in; eassumption.
  - eapply Permutation_in; [symmetry|]; eassumption.
Qed.

Lemma covers_app (l l' : list Interval) (z : Z) :
  covers (l ++ l') z <-> covers l z \/ covers l' z.
Proof.
  unfold covers; split.
  - intros (iv & Hin & Hz). apply in_app_or in Hin as [H|H]; eauto.
  - intros [(iv & Hin & Hz)|(iv & Hin & Hz)]; exists iv; split; trivial;
      apply in_or_app; auto.
Qed.

Lemma merge_spec_from_valid (rest : list Interval) (l : Interval) :
  Forall valid (l :: rest) -> Forall valid (merge_spec_from l rest).
Proof.
  revert l. induction rest as [|cur rest IH]; intros l H; cbn [merge_spec_from].
  - exact H.
  - inversion H as [|? ? Hl Hr]; subst. inversion Hr as [|? ? Hc Hr']; subst.
    destruct (start cur <=? end_ l + 1).
    + apply IH. constructor; [|exact Hr']. unfold valid in *; cbn; lia.
    + constructor; [exact Hl|now apply IH].
Qed.

Lemma mergeIntervals_valid (X : list Interval) :
  Forall valid X -> Forall valid (mergeIntervals X).
Proof.
  intros H. rewrite mergeIntervals_refines.
  assert (Hs : Forall valid (array_sort by_start X))
    by (eapply Permutation_Forall; [apply array_sort_perm|exact H]).
  destruct (array_sort by_start X) as [|f r]; [constructor|].
  now apply merge_spec_from_valid.
Qed.

(** Merging well-formed intervals in start order neither loses nor
    invents a watched second. *)
Lemma merge_spec_from_covers (rest : list Interval) (l : Interval) (z : Z) :
  Sorted le_start (l :: rest) -> Forall valid (l :: rest) ->
  covers (merge_spec_from l rest) z <-> covers (l :: rest) z.
Proof.
  revert l. induction rest as [|cur rest IH]; intros l Hs Hv; [reflexivity|].
  cbn [merge_spec_from].
  inversion Hv as [|? ? Hl Hr]; subst. inversion Hr as [|? ? Hc Hr']; subst.
  inversion Hs as [|? ? Hs' Hhd]; subst. inversion Hhd; subst.
  unfold valid, le_start in *.
  destruct (Z.leb_spec (start cur) (end_ l + 1)) as [Hle|Hgt].
  - rewrite IH.
    + rewrite !covers_cons. cbn [start end_]. intuition lia.
    + eapply sorted_absorb; eassumption.
    + constructor; [unfold valid; cbn; lia|exact Hr'].
  - rewrite covers_cons, IH by assumption. now rewrite <- covers_cons.
Qed.

Lemma mergeIntervals_covers (X : list Interval) (z : Z) :
  Forall valid X -> covers (mergeIntervals X) z <-> covers X z.
Proof.
  intros H. rewrite mergeIntervals_refines.
  rewrite (covers_perm X _ z (array_sort_perm X)).
  assert (Hv : Forall valid (array_sort by_start X))
    by (eapply Permutation_Forall; [apply array_sort_perm|exact H]).
  pose proof (array_sort_sorted X) as Hs.
  destruct (array_sort by_start X) as [|f r]; [reflexivity|].
  now apply merge_spec_from_covers.
Qed.

(** Behind the head of a canonical sequence everything lies beyond the
    head's end and the second after it. *)
Lemma covers_beyond (t : list Interval) (a : Interval) (z : Z) :
  Forall valid (a :: t) -> Sorted apart (a :: t) -> covers t z -> z > end_ a + 1.
Proof.
  revert a. induction t as [|b t IH]; intros a Hv Hs Hc.
  - now apply covers_nil in Hc.
  - inversion Hv as [|? ? Ha Hv']; subst. inversion Hs as [|? ? Hs' Hhd]; subst.
    inversion Hhd; subst. inversion Hv' as [|? ? Hb _]; subst.
    unfold apart, valid in *.
    apply covers_cons in Hc as [Hz|Hc]; [lia|].
    specialize (IH b Hv' Hs' Hc). lia.
Qed.

(** A canonical sequence of well-formed intervals is determined by the
    seconds it covers. *)
Lemma canonical_unique (l1 : list Interval) :
  forall l2,
    Forall valid l1 -> Sorted apart l1 ->
    Forall valid l2 -> Sorted apart l2 ->
    (forall z, covers l1 z <-> covers l2 z) -> l1 = l2.
Proof.
  induction l1 as [|a t1 IH]; intros [|b t2] Hv1 Hs1 Hv2 Hs2 Hc.
  - reflexivity.
  - inversion Hv2 as [|? ? Hb _]; subst. exfalso.
    apply (covers_nil (start b)), Hc, covers_cons. unfold valid in Hb; lia.
  - inversion Hv1 as [|? ? Ha _]; subst. exfalso.
    apply (covers_nil (start a)), Hc, covers_cons. unfold valid in Ha; lia.
  - pose proof (fun z => covers_beyond t1 a z Hv1 Hs1) as B1.
    pose proof (fun z => covers_beyond t2 b z Hv2 Hs2) as B2.
    inversion Hv1 as [|? ? Ha Hv1']; subst. inversion Hv2 as [|? ? Hb Hv2']; subst.
    inversion Hs1 as [|? ? Hs1' _]; subst. inversion Hs2 as [|? ? Hs2' _]; subst.
    unfold valid in Ha, Hb.
    assert (In1 : forall z, start a <= z <= end_ a -> start b <= z)
      by (intros z Hz; destruct (proj1 (Hc z)) as (iv & Hin & Hiv);
          [apply covers_cons; now left|];
          assert (Hcz : covers (b :: t2) z) by (exists iv; auto);
          apply covers_cons in Hcz as [?|Hcz]; [lia|specialize (B2 z Hcz); lia]).
    assert (In2 : forall z, start b <= z <= end_ b -> start a <= z)
      by (intros z Hz; destruct (proj2 (Hc z)) as (iv & Hin & Hiv);
          [apply covers_cons; now left|];
          assert (Hcz : covers (a :: t1) z) by (exists iv; auto);
          apply covers_cons in Hcz as [?|Hcz]; [lia|specialize (B1 z Hcz); lia]).
    assert (Hstart : start a = start b).
    { specialize (In1 (start a)). specialize (In2 (start b)). lia. }
    assert (Hend : end_ a = end_ b).
    { destruct (Z.lt_trichotomy (end_ a) (end_ b)) as [Hlt|[Heq|Hgt]]; [|exact Heq|].
      - exfalso. assert (Hcz : covers (a :: t1) (end_ a + 1))
          by (apply Hc, covers_cons; left; lia).
        apply covers_cons in Hcz as [?|Hcz]; [lia|specialize (B1 _ Hcz); lia].
      - exfalso. assert (Hcz : covers (b :: t2) (end_ b + 1))
          by (apply Hc, covers_cons; left; lia).
        apply covers_cons in Hcz as [?|Hcz]; [lia|specialize (B2 _ Hcz); lia]. }
    assert (a = b) by (destruct a, b; cbn in *; congruence). subst b.
    f_equal. apply IH; trivial. intros z; split; intros Hz.
    + assert (Hcz : covers (a :: t2) z) by (apply Hc, covers_cons; now right).
      apply covers_cons in Hcz as [?|Hcz]; [specialize (B1 z Hz); lia|exact Hcz].
    + assert (Hcz : covers (a :: t1) z) by (apply Hc, covers_cons; now right).
      apply covers_cons in Hcz as [?|Hcz]; [specialize (B2 z Hz); lia|exact Hcz].
Qed.

(** Two lists of well-formed intervals that cover the same seconds merge
    to the same result. *)
Lemma mergeIntervals_by_coverage (X Y : list Interval) :
  Forall valid X -> Forall valid Y ->
  (forall z, covers X z <-> covers Y z) ->
  mergeIntervals X = mergeIntervals Y.
Proof.
  intros HX HY Hc. apply canonical_unique.
  - now apply mergeIntervals_valid.
  - apply mergeIntervals_canonical.
  - now apply mergeIntervals_valid.
  - apply mergeIntervals_canonical.
  - intros z. now rewrite !mergeIntervals_covers.
Qed.

End Coverage.

(** * Merging a list together with an already merged one *)

Section Union.

Lemma smerge_nil_r (l : list Interval) : smerge l [] = l.
Proof. now destruct l. Qed.

Lemma smerge_cons (a b : Interval) (l1 l2 : list Interval) :
  smerge (a :: l1) (b :: l2)
  = if by_start a b <=? 0 then a :: smerge l1 (b :: l2)
    else b :: smerge (a :: l1) l2.
Proof. reflexivity. Qed.

Lemma sort_insert_smerge (x : Interval) (l1 l2 : list Interval) :
  sort_insert by_start x (smerge l1 l2) = smerge (sort_insert by_start x l1) l2.
Proof.
  revert l2. induction l1 as [|a l1 IH1]; intros l2.
  - change (smerge [] l2) with l2. change (sort_insert by_start x []) with [x].
    induction l2 as [|b l2 IH2]; [reflexivity|].
    cbn [sort_insert]. rewrite smerge_cons.
    destruct (by_start x b <=? 0); [reflexivity|now rewrite IH2].
  - induction l2 as [|b l2 IH2]; [now rewrite !smerge_nil_r|].
    rewrite smerge_cons. cbn [sort_insert]. unfold by_start in *.
    destruct (Z.leb_spec (start a - start b) 0) as [Hab|Hab];
      cbn [sort_insert];
      destruct (Z.leb_spec (start x - start a) 0) as [Hxa|Hxa].
    + rewrite !smerge_cons. unfold by_start.
      destruct (Z.leb_spec (start x - start b) 0); [|lia].
      destruct (Z.leb_spec (start a - start b) 0); [reflexivity|lia].
    + rewrite IH1, smerge_cons. unfold by_start.
      destruct (Z.leb_spec (start a - start b) 0); [reflexivity|lia].
    + destruct (Z.leb_spec (start x - start b) 0) as [Hxb|Hxb].
      * rewrite !smerge_cons. unfold by_start.
        destruct (Z.leb_spec (start x - start b) 0); [|lia].
        destruct (Z.leb_spec (start a - start b) 0); [lia|reflexivity].
      * rewrite IH2. cbn [sort_insert]. unfold by_start.
        destruct (Z.leb_spec (start x - start a) 0); [|lia].
        rewrite !smerge_cons. unfold by_start.
        destruct (Z.leb_spec (start x - start b) 0); [lia|reflexivity].
    + destruct (Z.leb_spec (start x - start b) 0) as [Hxb|Hxb]; [lia|].
      rewrite IH2. cbn [sort_insert]. unfold by_start.
      destruct (Z.leb_spec (start x - start a) 0); [lia|].
      rewrite smerge_cons. unfold by_start.
      destruct (Z.leb_spec (start a - start b) 0); [lia|reflexivity].
Qed.

(** Sorting a concatenation interleaves the two sorted halves, elements
    of the left half first among equal starts. *)
Lemma array_sort_app (A B : list Interval) :
  array_sort by_start (A ++ B)
  = smerge (array_sort by_start A) (array_sort by_start B).
Proof.
  induction A as [|a A IH]; [reflexivity|].
  cbn [app array_sort fold_right]. fold (array_sort by_start (A ++ B)).
  fold (array_sort by_start A). now rewrite IH, sort_insert_smerge.
Qed.

Lemma merge_spec_from_cons (l c : Interval) (r : list Interval) :
  merge_spec_from l (c :: r)
  = if start c <=? end_ l + 1 then merge_spec_from (raise l (end_ c)) r
    else l :: merge_spec_from c r.
Proof. reflexivity. Qed.

Lemma raise_raise (l : Interval) (e1 e2 : Z) :
  raise (raise l e1) e2 = raise l (Z.max e1 e2).
Proof. unfold raise; cbn. f_equal. lia. Qed.

Lemma raise_swap (l : Interval) (e1 e2 : Z) :
  raise (raise l e1) e2 = raise (raise l e2) e1.
Proof. unfold raise; cbn. f_equal. lia. Qed.

(** An interval [c] of the right operand that the entry under construction
    can absorb may be absorbed ahead of the left-operand intervals that
    sort before it: they are absorbed as well. *)
Lemma absorb_through (SA : list Interval) :
  forall (l c : Interval) (r : list Interval),
    start c <= end_ l + 1 -> HdRel le_start c r ->
    merge_spec_from l (smerge SA (c :: r))
    = merge_spec_from (raise l (end_ c)) (smerge SA r).
Proof.
  induction SA as [|a SA IH]; intros l c r Hc Hr.
  - change (merge_spec_from l (c :: r) = merge_spec_from (raise l (end_ c)) r).
    rewrite merge_spec_from_cons.
    destruct (Z.leb_spec (start c) (end_ l + 1)); [reflexivity|lia].
  - rewrite smerge_cons. unfold by_start.
    destruct (Z.leb_spec (start a - start c) 0) as [Hac|Hac];
      rewrite merge_spec_from_cons.
    + destruct (Z.leb_spec (start a) (end_ l + 1)); [|lia].
      rewrite IH by (cbn; trivial; lia).
      assert (Hm : smerge (a :: SA) r = a :: smerge SA r).
      { destruct Hr as [|y r' Hy]; [now rewrite !smerge_nil_r|].
        rewrite smerge_cons. unfold by_start, le_start in *.
        destruct (Z.leb_spec (start a - start y) 0); [reflexivity|lia]. }
      rewrite Hm, merge_spec_from_cons. cbn [raise start end_].
      destruct (Z.leb_spec (start a) (Z.max (end_ l) (end_ c) + 1)); [|lia].
      f_equal. apply raise_swap.
    + destruct (Z.leb_spec (start c) (end_ l + 1)); [reflexivity|lia].
Qed.

(** If two right operands behave alike once their heads (of equal start)
    are reached, they behave alike from the beginning. *)
Lemma smerge_head_congr (h h2 : Interval) (T1 T2 : list Interval) :
  start h = start h2 ->
  (forall SA l0, merge_spec_from l0 (h :: smerge SA T1)
                 = merge_spec_from l0 (h2 :: smerge SA T2)) ->
  forall SA l0, merge_spec_from l0 (smerge SA (h :: T1))
                = merge_spec_from l0 (smerge SA (h2 :: T2)).
Proof.
  intros Hs Hstep SA. induction SA as [|a SA IH]; intros l0.
  - exact (Hstep [] l0).
  - rewrite !smerge_cons. unfold by_start. rewrite <- Hs.
    destruct (start a - start h <=? 0); [|apply Hstep].
    rewrite !merge_spec_from_cons.
    destruct (start a <=? end_ l0 + 1); [apply IH|f_equal; apply IH].
Qed.

(** Replacing the sorted right operand by its merged form does not change
    the outcome, whatever is interleaved from the left. *)
Lemma merge_spec_from_replay (rest : list Interval) :
  forall h, Sorted le_start (h :: rest) ->
  forall SA l0,
    merge_spec_from l0 (smerge SA (h :: rest))
    = merge_spec_from l0 (smerge SA (merge_spec_from h rest)).
Proof.
  induction rest as [|c r IH]; intros h Hs; [reflexivity|].
  rewrite (merge_spec_from_cons h c r).
  inversion Hs as [|? ? Hs' Hhd]; subst. inversion Hhd; subst.
  inversion Hs' as [|? ? _ Hhd']; subst. unfold le_start in *.
  destruct (Z.leb_spec (start c) (end_ h + 1)) as [Hle|Hgt].
  - intros SA l0.
    rewrite <- IH by (eapply sorted_absorb; exact Hs).
    revert SA l0. apply smerge_head_congr; [reflexivity|]. intros SA l0.
    rewrite !merge_spec_from_cons. cbn [raise start end_].
    destruct (start h <=? end_ l0 + 1).
    + rewrite absorb_through by (cbn; trivial; lia).
      now rewrite raise_raise.
    + now rewrite absorb_through by (cbn; trivial; lia).
  - apply smerge_head_congr; [reflexivity|]. intros SA l0.
    rewrite !merge_spec_from_cons.
    destruct (start h <=? end_ l0 + 1); [|f_equal]; now apply IH.
Qed.

Lemma merge_spec_from_fresh (l0 : Interval) (L : list Interval) :
  HdRel apart l0 L -> merge_spec_from l0 L = l0 :: merge_spec_sorted L.
Proof.
  intros [|x L' Hx]; [reflexivity|].
  cbn [merge_spec_from merge_spec_sorted]. unfold apart in Hx.
  destruct (Z.leb_spec (start x) (end_ l0 + 1)); [lia|reflexivity].
Qed.

Lemma smerge_hd (l0 : Interval) (SA T : list Interval) :
  HdRel apart l0 SA -> HdRel apart l0 T -> HdRel apart l0 (smerge SA T).
Proof.
  intros [|a SA' Ha] [|b T' Hb]; try (now constructor).
  rewrite smerge_cons. destruct (by_start a b <=? 0); now constructor.
Qed.

Lemma merge_spec_sorted_replay (SA SB : list Interval) :
  Sorted le_start SB ->
  merge_spec_sorted (smerge SA SB)
  = merge_spec_sorted (smerge SA (merge_spec_sorted SB)).
Proof.
  intros Hs. destruct SB as [|h rest]; [reflexivity|].
  cbn [merge_spec_sorted].
  set (m := match SA with [] => start h | a :: _ => Z.min (start a) (start h) end).
  set (l0 := (m - 2) ~~ (m - 2)).
  assert (HA : HdRel apart l0 SA)
    by (subst l0 m; destruct SA; constructor; unfold apart; cbn; lia).
  assert (Hh : end_ l0 + 1 < start h)
    by (subst l0 m; destruct SA; cbn; lia).
  clearbody l0. clear m.
  assert (E : l0 :: merge_spec_sorted (smerge SA (h :: rest))
              = l0 :: merge_spec_sorted (smerge SA (merge_spec_from h rest))).
  { rewrite <- !merge_spec_from_fresh.
    - now apply merge_spec_from_replay.
    - apply smerge_hd; [exact HA|].
      destruct (merge_spec_from_hd h rest) as (e & tl & -> & _).
      constructor. unfold apart; cbn; lia.
    - apply smerge_hd; [exact HA|]. constructor. unfold apart; lia. }
  now injection E.
Qed.

Lemma mergeIntervals_union (A B : list Interval) :
  mergeIntervals (A ++ mergeIntervals B) = mergeIntervals (A ++ B).
Proof.
  rewrite (mergeIntervals_refines (A ++ B)), (mergeIntervals_refines (A ++ _)).
  rewrite !array_sort_app.
  rewrite (array_sort_sorted_id (mergeIntervals B))
    by apply mergeIntervals_canonical.
  rewrite mergeIntervals_refines. symmetry.
  apply merge_spec_sorted_replay, array_sort_sorted.
Qed.

End Union.

(** * Where the endpoints of the result come from *)

Section Endpoints.

Lemma Sorted_consecutive (R : Interval -> Interval -> Prop) (l : list Interval) :
  Sorted R l ->
  forall (i : nat) (cur next : Interval),
    nth_error l i = Some cur -> nth_error l (S i) = Some next -> R cur next.
Proof.
  induction 1 as [|a t Hs IH Hhd]; intros i cur next Hc Hn.
  - now destruct i.
  - destruct i as [|i]; cbn in Hc, Hn.
    + injection Hc as <-. destruct Hhd as [|b t' Hab]; [discriminate|].
      now injection Hn as <-.
    + eapply IH; eassumption.
Qed.

(** No coordinate is made up: each result entry starts where some input
    interval starts and ends where some input interval ends. *)
Lemma merge_spec_from_endpoints (rest : list Interval) (l iv : Interval) :
  In iv (merge_spec_from l rest) ->
  In (start iv) (map start (l :: rest)) /\ In (end_ iv) (map end_ (l :: rest)).
Proof.
  revert l. induction rest as [|cur rest IH]; intros l; cbn [merge_spec_from].
  - intros [<-|[]]; cbn; auto.
  - destruct (start cur <=? end_ l + 1).
    + intros Hin. destruct (IH _ Hin) as [Hs He]. cbn [map start end_ In] in *.
      split; [tauto|].
      destruct He as [He|He]; [|tauto].
      destruct (Z.max_spec (end_ l) (end_ cur)) as [[_ Hm]|[_ Hm]];
        rewrite Hm in He; auto.
    + intros [<-|Hin]; [cbn; auto|].
      destruct (IH _ Hin) as [Hs He]. cbn [map In] in *. tauto.
Qed.

Lemma mergeIntervals_endpoints (X : list Interval) (iv : Interval) :
  In iv (mergeIntervals X) ->
  In (start iv) (map start X) /\ In (end_ iv) (map end_ X).
Proof.
  rewrite mergeIntervals_refines. intros Hin.
  pose proof (array_sort_perm X) as HP.
  destruct (array_sort by_start X) as [|f r]; [destruct Hin|].
  destruct (merge_spec_from_endpoints _ _ _ Hin) as [Hs He].
  split; eapply Permutation_in; try eassumption;
    symmetry; now apply Permutation_map.
Qed.

(** Two calls in a row on the object store, the second on the array and
    the store the first one left: the values do not change any more. *)
Lemma mergeIntervals_store_twice (h : Store) (refs : list Ref) :
  let once := mergeIntervals_store h refs in
  let twice := mergeIntervals_store (snd once) (fst once) in
  map (snd twice) (fst twice) = map (snd once) (fst once).
Proof.
  intros once twice. subst twice. rewrite mergeIntervals_store_values.
  subst once. rewrite mergeIntervals_store_values.
  apply mergeIntervals_fixed, mergeIntervals_canonical.
Qed.

(** Nothing is turned away: whatever its shape, an interval of the sorted
    sequence ends up in the entry it opened or in the entry that absorbed
    it. *)
Lemma accounts_for_refl (iv : Interval) : accounts_for iv iv.
Proof. unfold accounts_for. lia. Qed.

Lemma merge_spec_from_accounts (rest : list Interval) :
  forall l iv : Interval,
    Sorted le_start (l :: rest) ->
    accounts_for l iv \/ In iv rest ->
    exists out, In out (merge_spec_from l rest) /\ accounts_for out iv.
Proof.
  induction rest as [|cur rest IH]; intros l iv Hs Hiv; cbn [merge_spec_from].
  - destruct Hiv as [Hl|[]]. exists l. split; [now left|exact Hl].
  - assert (Hlc : start l <= start cur).
    { inversion Hs as [|? ? _ Hhd]; subst. now inversion Hhd; subst. }
    destruct (Z.leb_spec (start cur) (end_ l + 1)) as [Hle|Hgt].
    + apply IH; [eapply sorted_absorb; eassumption|].
      destruct Hiv as [Hl|[<-|Hin]]; [left|left|now right];
        unfold accounts_for in *; cbn [start end_]; lia.
    + inversion Hs as [|? ? Hs' _]; subst.
      destruct Hiv as [Hl|Hin].
      * exists l. split; [now left|exact Hl].
      * destruct (IH cur iv Hs') as (out & Hout & Hacc).
        { destruct Hin as [<-|Hin]; [left; apply accounts_for_refl|now right]. }
        exists out. split; [now right|exact Hacc].
Qed.

Lemma mergeIntervals_accounts (X : list Interval) (iv : Interval) :
  In iv X -> exists out, In out (mergeIntervals X) /\ accounts_for out iv.
Proof.
  intros Hin. rewrite mergeIntervals_refines.
  pose proof (array_sort_sorted X) as Hs.
  apply (Permutation_in _ (array_sort_perm X)) in Hin.
  destruct (array_sort by_start X) as [|f r]; [destruct Hin|].
  apply merge_spec_from_accounts; [exact Hs|].
  destruct Hin as [<-|Hin]; [left; apply accounts_for_refl|now right].
Qed.

(** An interval that begins more than a second after every end of the
    sequence, its own included, is never reached and never extended: it
    comes out as it went in. *)
Lemma merge_spec_from_keeps (rest : list Interval) :
  forall l iv : Interval,
    Sorted le_start (l :: rest) ->
    end_ l + 1 < start iv ->
    (forall o, In o rest -> end_ o + 1 < start iv) ->
    iv = l \/ In iv rest ->
    In iv (merge_spec_from l rest).
Proof.
  induction rest as [|cur rest IH]; intros l iv Hs Hl Hrest Hiv;
    cbn [merge_spec_from].
  - destruct Hiv as [->|[]]. now left.
  - assert (Hlc : start l <= start cur).
    { inversion Hs as [|? ? _ Hhd]; subst. now inversion Hhd; subst. }
    assert (Hcur : end_ cur + 1 < start iv) by (apply Hrest; now left).
    destruct (Z.leb_spec (start cur) (end_ l + 1)) as [Hle|Hgt].
    + apply IH.
      * eapply sorted_absorb; eassumption.
      * cbn [end_]. lia.
      * intros o Ho. apply Hrest. now right.
      * destruct Hiv as [->|[<-|Hin]]; [lia|lia|now right].
    + inversion Hs as [|? ? Hs' _]; subst.
      destruct Hiv as [->|Hin]; [now left|]. right.
      apply IH; [exact Hs'|exact Hcur| |].
      * intros o Ho. apply Hrest. now right.
      * destruct Hin as [<-|Hin]; [now left|now right].
Qed.

Lemma mergeIntervals_keeps (X : list Interval) (iv : Interval) :
  In iv X -> (forall o, In o X -> end_ o + 1 < start iv) ->
  In iv (mergeIntervals X).
Proof.
  intros Hin Hall. rewrite mergeIntervals_refines.
  pose proof (array_sort_sorted X) as Hs.
  pose proof (array_sort_perm X) as HP.
  assert (Hall' : forall o, In o (array_sort by_start X) -> end_ o + 1 < start iv).
  { intros o Ho. apply Hall. eapply Permutation_in; [symmetry; exact HP|exact Ho]. }
  apply (Permutation_in _ HP) in Hin.
  destruct (array_sort by_start X) as [|f r]; [destruct Hin|].
  apply merge_spec_from_keeps; [exact Hs| | |].
  - apply Hall'. now left.
  - intros o Ho. apply Hall'. now right.
  - destruct Hin as [<-|Hin]; [now left|now right].
Qed.

End Endpoints.

(** * The interval merger: claims *)

(** C1. [mergeIntervals] sorts its input by [start] ascending (a stable
    permutation of the input) and then runs the worded algorithm over it: an
    interval [cur] with [cur.start <= last.end + 1] extends the last result
    entry to [max(last.end, cur.end)], any other one is appended; the loop on
    the shared objects returns these very values. In particular
    [[10,30],[20,40]] gives [[10,40]], [[0,5],[7,10]] is left as it is, and
    [[0,5],[6,10]] gives [[0,10]]. *)
Theorem C1_merge_algorithm :
  (forall X : list Interval,
      let sorted := array_sort by_start X in
      Permutation X sorted
      /\ Sorted le_start sorted
      /\ (forall s, filter (fun iv => start iv =? s) sorted
                    = filter (fun iv => start iv =? s) X)
      /\ mergeIntervals X = merge_spec_sorted sorted)
  /\ (forall (h : Store) (refs : list Ref),
        let out := mergeIntervals_store h refs in
        map (snd out) (fst out) = mergeIntervals (map h refs))
  /\ mergeIntervals [10 ~~ 30; 20 ~~ 40] = [10 ~~ 40]
  /\ mergeIntervals [0 ~~ 5; 7 ~~ 10] = [0 ~~ 5; 7 ~~ 10]
  /\ mergeIntervals [0 ~~ 5; 6 ~~ 10] = [0 ~~ 10].
Proof.
  split; [|split; [exact mergeIntervals_store_values|repeat split]].
  intros X sorted. subst sorted. repeat split.
  - apply array_sort_perm.
  - apply array_sort_sorted.
  - intros s. apply array_sort_stable.
  - apply mergeIntervals_refines.
Qed.

(** C2. For an input whose members all satisfy [start <= end], the result of
    [mergeIntervals] is in canonical form: sorted ascending by [start], and
    every consecutive pair satisfies [next.start > current.end + 1]. *)
Theorem C2_merge_canonical (X : list Interval) :
  Forall valid X ->
  Sorted le_start (mergeIntervals X)
  /\ forall (i : nat) (current next : Interval),
      nth_error (mergeIntervals X) i = Some current ->
      nth_error (mergeIntervals X) (S i) = Some next ->
      start next > end_ current + 1.
Proof.
  intros _. destruct (mergeIntervals_canonical X) as [Hs Ha]. split; [exact Hs|].
  intros i current next. exact (Sorted_consecutive apart _ Ha i current next).
Qed.

Lemma C2_merge_canonical_witness :
  Forall valid [20 ~~ 40; 10 ~~ 30; 50 ~~ 60]
  /\ Sorted le_start (mergeIntervals [20 ~~ 40; 10 ~~ 30; 50 ~~ 60])
  /\ forall (i : nat) (current next : Interval),
      nth_error (mergeIntervals [20 ~~ 40; 10 ~~ 30; 50 ~~ 60]) i = Some current ->
      nth_error (mergeIntervals [20 ~~ 40; 10 ~~ 30; 50 ~~ 60]) (S i) = Some next ->
      start next > end_ current + 1.
Proof.
  assert (H : Forall valid [20 ~~ 40; 10 ~~ 30; 50 ~~ 60])
    by (repeat constructor; unfold valid; cbn; lia).
  split; [exact H|]. exact (C2_merge_canonical _ H).
Defined.

(** C3. [mergeIntervals] is idempotent on values: merging a merged list
    gives the same list of [start]/[end] pairs. *)
Theorem C3_merge_idempotent (X : list Interval) :
  mergeIntervals (mergeIntervals X) = mergeIntervals X.
Proof. apply mergeIntervals_fixed, mergeIntervals_canonical. Qed.

(** C4, as stated, fails: the comparator looks at [start] only, so two
    intervals of equal [start] keep their input order, and an interval with
    [start > end + 1] placed first is not absorbed while placed second it
    is. *)
Lemma C4_order_counterexample :
  Permutation [5 ~~ 0; 5 ~~ 10] [5 ~~ 10; 5 ~~ 0]
  /\ mergeIntervals [5 ~~ 0; 5 ~~ 10] = [5 ~~ 0; 5 ~~ 10]
  /\ mergeIntervals [5 ~~ 10; 5 ~~ 0] = [5 ~~ 10]
  /\ mergeIntervals [5 ~~ 10; 5 ~~ 0] <> mergeIntervals [5 ~~ 0; 5 ~~ 10].
Proof.
  split; [apply perm_swap|]. repeat split. discriminate.
Qed.

(** C4, amended. For every interval list whose members satisfy
    [start <= end], [mergeIntervals] gives the same result on every
    permutation of the list, although the comparator orders by [start] only
    and leaves ties in input order. *)
Theorem C4_merge_order_independent (X Y : list Interval) :
  Forall valid X -> Permutation X Y -> mergeIntervals Y = mergeIntervals X.
Proof.
  intros HX HP. apply mergeIntervals_by_coverage.
  - eapply Permutation_Forall; eassumption.
  - exact HX.
  - intros z. symmetry. now apply covers_perm.
Qed.

Lemma C4_merge_order_independent_witness :
  Forall valid [0 ~~ 5; 0 ~~ 10; 3 ~~ 4]
  /\ Permutation [0 ~~ 5; 0 ~~ 10; 3 ~~ 4] [3 ~~ 4; 0 ~~ 10; 0 ~~ 5]
  /\ mergeIntervals [3 ~~ 4; 0 ~~ 10; 0 ~~ 5] = mergeIntervals [0 ~~ 5; 0 ~~ 10; 3 ~~ 4].
Proof.
  assert (H : Forall valid [0 ~~ 5; 0 ~~ 10; 3 ~~ 4])
    by (repeat constructor; unfold valid; cbn; lia).
  assert (P : Permutation [0 ~~ 5; 0 ~~ 10; 3 ~~ 4] [3 ~~ 4; 0 ~~ 10; 0 ~~ 5]).
  { apply Permutation_trans with [0 ~~ 5; 3 ~~ 4; 0 ~~ 10].
    - apply perm_skip, perm_swap.
    - apply Permutation_trans with [3 ~~ 4; 0 ~~ 5; 0 ~~ 10].
      + apply perm_swap.
      + apply perm_skip, perm_swap. }
  split; [exact H|]. split; [exact P|].
  exact (C4_merge_order_independent _ _ H P).
Defined.

(** C5. Merging [A] together with the merged form of [B] gives the same
    result as merging [A] and [B] at once, for all interval lists. *)
Theorem C5_merge_union (A B : list Interval) :
  mergeIntervals (A ++ mergeIntervals B) = mergeIntervals (A ++ B).
Proof. apply mergeIntervals_union. Qed.

(** C7, as stated, fails: [mergeIntervals] checks nothing. An interval with
    [start > end] is returned as an entry of the result when nothing before
    it reaches it, and dropped without notice when an earlier entry does. *)
Lemma C7_invalid_counterexample :
  mergeIntervals [0 ~~ 5; 9 ~~ 7] = [0 ~~ 5; 9 ~~ 7]
  /\ Exists (fun iv => start iv > end_ iv) (mergeIntervals [0 ~~ 5; 9 ~~ 7])
  /\ mergeIntervals [0 ~~ 10; 5 ~~ 3] = [0 ~~ 10].
Proof.
  repeat split. apply Exists_cons_tl, Exists_cons_hd. cbn. lia.
Qed.

(** C7, amended. [mergeIntervals] validates nothing and raises no error;
    an interval with [start > end] is processed like any other. Every
    interval of the input, well-formed or not, is accounted for by an entry
    of the result, which starts no later and ends no earlier and either
    begins at the same second (the interval was kept as an entry) or
    reaches to within one second of its start (it was absorbed). An
    interval that begins more than one second after every end of the list,
    its own included, is returned as an entry unchanged. The result is the
    sort-and-sweep of the whole input, no interval left out; its entries
    start where some input interval starts and end where some input
    interval ends, and when every input interval satisfies [start <= end],
    so does every entry of the result. *)
Theorem C7_merge_without_validation (X : list Interval) :
  (forall iv, In iv X ->
              exists out, In out (mergeIntervals X) /\ accounts_for out iv)
  /\ (forall iv, In iv X ->
                 (forall o, In o X -> end_ o + 1 < start iv) ->
                 In iv (mergeIntervals X))
  /\ mergeIntervals X = merge_spec_sorted (array_sort by_start X)
  /\ (forall iv, In iv (mergeIntervals X) ->
                 In (start iv) (map start X) /\ In (end_ iv) (map end_ X))
  /\ (Forall valid X -> Forall valid (mergeIntervals X)).
Proof.
  split; [intros iv; apply mergeIntervals_accounts|].
  split; [intros iv; apply mergeIntervals_keeps|].
  split; [apply mergeIntervals_refines|].
  split; [intros iv; apply mergeIntervals_endpoints|apply mergeIntervals_valid].
Qed.

Lemma C7_merge_without_validation_witness :
  In (9 ~~ 7) [0 ~~ 5; 9 ~~ 7]
  /\ (forall o, In o [0 ~~ 5; 9 ~~ 7] -> end_ o + 1 < start (9 ~~ 7))
  /\ In (9 ~~ 7) (mergeIntervals [0 ~~ 5; 9 ~~ 7])
  /\ Forall valid [0 ~~ 5; 3 ~~ 9]
  /\ Forall valid (mergeIntervals [0 ~~ 5; 3 ~~ 9]).
Proof.
  assert (Hin : In (9 ~~ 7) [0 ~~ 5; 9 ~~ 7]) by (right; left; reflexivity).
  assert (Hall : forall o, In o [0 ~~ 5; 9 ~~ 7] -> end_ o + 1 < start (9 ~~ 7))
    by (intros o [<-|[<-|[]]]; cbn; lia).
  assert (Hv : Forall valid [0 ~~ 5; 3 ~~ 9])
    by (repeat constructor; unfold valid; cbn; lia).
  pose proof (C7_merge_without_validation [0 ~~ 5; 9 ~~ 7]) as (_ & Hkeep & _).
  pose proof (C7_merge_without_validation [0 ~~ 5; 3 ~~ 9]) as (_ & _ & _ & _ & Hvalid).
  split; [exact Hin|]. split; [exact Hall|]. split; [exact (Hkeep _ Hin Hall)|].
  split; [exact Hv|exact (Hvalid Hv)].
Defined.

(** * Unique seconds and the percentage *)

Section Percentage.

Lemma unique_fold (l : list Interval) (acc : Z) :
  fold_left (fun total interval => total + (end_ interval - start interval + 1)) l acc
  = acc + uniqueSeconds_spec l.
Proof.
  revert acc. induction l as [|iv l IH]; intros acc; cbn [fold_left].
  - unfold uniqueSeconds_spec; cbn. lia.
  - rewrite IH. unfold uniqueSeconds_spec; cbn [map fold_right]. lia.
Qed.

Lemma calculateUniqueWatchedTime_sum (l : list Interval) :
  calculateUniqueWatchedTime l = uniqueSeconds_spec l.
Proof. unfold calculateUniqueWatchedTime. now rewrite unique_fold. Qed.

Lemma uniqueSeconds_cons (iv : Interval) (l : list Interval) :
  uniqueSeconds_spec (iv :: l) = (end_ iv - start iv + 1) + uniqueSeconds_spec l.
Proof. reflexivity. Qed.

Lemma uniqueSeconds_nonneg (l : list Interval) :
  Forall valid l -> 0 <= uniqueSeconds_spec l.
Proof.
  induction 1 as [|iv l Hv _ IH]; [cbn; lia|].
  rewrite uniqueSeconds_cons. unfold valid in Hv. lia.
Qed.

(** Canonical well-formed intervals inside [[lo, hi]] cannot hold more
    seconds than the range has. *)
Lemma uniqueSeconds_bound (l : list Interval) :
  forall lo hi,
    Forall valid l -> Sorted apart l ->
    Forall (fun iv => lo <= start iv /\ end_ iv <= hi) l ->
    lo <= hi + 1 ->
    uniqueSeconds_spec l <= hi - lo + 1.
Proof.
  induction l as [|a t IH]; intros lo hi Hv Hs Hb Hr; [cbn; lia|].
  rewrite uniqueSeconds_cons.
  pose proof (fun z => covers_beyond t a z Hv Hs) as Hbeyond.
  inversion Hv as [|? ? Ha Hv']; subst. inversion Hs as [|? ? Hs' _]; subst.
  inversion Hb as [|? ? [Hlo Hhi] Hb']; subst. unfold valid in Ha.
  destruct t as [|b t']; [cbn; lia|].
  assert (Hb2 : Forall (fun iv => end_ a + 2 <= start iv /\ end_ iv <= hi) (b :: t')).
  { apply Forall_forall. intros iv Hin.
    rewrite Forall_forall in Hb', Hv'. specialize (Hb' iv Hin) as [_ Hh].
    specialize (Hv' iv Hin). unfold valid in Hv'.
    assert (start iv > end_ a + 1)
      by (apply Hbeyond; exists iv; split; [exact Hin|lia]).
    lia. }
  assert (Hne : end_ a + 2 <= hi + 1).
  { inversion Hb2 as [|? ? [H1 H2] _]; subst.
    inversion Hv' as [|? ? Hvb _]; subst. unfold valid in Hvb. lia. }
  specialize (IH (end_ a + 2) hi Hv' Hs' Hb2 Hne). lia.
Qed.

(** What keeps the percentage within bounds is the merge upstream: the
    merged form of well-formed intervals inside [[0, duration - 1]] never
    holds more than [duration] seconds. *)
Lemma merged_within_duration (X : list Interval) (d : Z) :
  d > 0 ->
  Forall (fun iv => 0 <= start iv /\ start iv <= end_ iv /\ end_ iv <= d - 1) X ->
  0 <= uniqueSeconds_spec (mergeIntervals X) <= d.
Proof.
  intros Hd HX.
  assert (Hv : Forall valid X)
    by (eapply Forall_impl; [|exact HX]; unfold valid; intros ? (? & ? & ?); lia).
  split; [now apply uniqueSeconds_nonneg, mergeIntervals_valid|].
  replace d with ((d - 1) - 0 + 1) at 1 by lia.
  apply uniqueSeconds_bound; [now apply mergeIntervals_valid| | |lia].
  - apply mergeIntervals_canonical.
  - apply Forall_forall. intros iv Hin.
    destruct (mergeIntervals_endpoints X iv Hin) as [Hs He].
    apply in_map_iff in Hs as (a & Ha & Hina), He as (b & Hb & Hinb).
    rewrite Forall_forall in HX.
    destruct (HX a Hina) as (? & ? & ?), (HX b Hinb) as (? & ? & ?). lia.
Qed.

End Percentage.

(** * Double-precision arithmetic of the percentage *)

Section Binary64.

(** The exponent of a double of magnitude [e]: 53 digits of mantissa, and
    no exponent below that of the subnormal numbers. *)
Lemma fexp_eq (e : Z) : fexp 53 1024 e = Z.max (e - 53) (-1074).
Proof. reflexivity. Qed.

Lemma pow2_pos (n : Z) : 0 <= n -> 0 < 2 ^ n.
Proof. intros H. apply Z.pow_pos_nonneg; lia. Qed.

(** [digits2_pos p] is the length of [p] in binary. *)
Lemma digits2_bounds (p : positive) :
  2 ^ (Zpos (digits2_pos p) - 1) <= Zpos p < 2 ^ Zpos (digits2_pos p).
Proof.
  induction p as [p IH|p IH|]; cbn [digits2_pos].
  - rewrite Pos2Z.inj_succ. change (Zpos p~1) with (2 * Zpos p + 1).
    replace (Z.succ (Zpos (digits2_pos p)) - 1) with (Zpos (digits2_pos p)) by lia.
    rewrite Z.pow_succ_r by lia.
    replace (2 ^ Zpos (digits2_pos p)) with (2 * 2 ^ (Zpos (digits2_pos p) - 1)) in *
      by (rewrite <- Z.pow_succ_r by lia; f_equal; lia).
    lia.
  - rewrite Pos2Z.inj_succ. change (Zpos p~0) with (2 * Zpos p).
    replace (Z.succ (Zpos (digits2_pos p)) - 1) with (Zpos (digits2_pos p)) by lia.
    rewrite Z.pow_succ_r by lia.
    replace (2 ^ Zpos (digits2_pos p)) with (2 * 2 ^ (Zpos (digits2_pos p) - 1)) in *
      by (rewrite <- Z.pow_succ_r by lia; f_equal; lia).
    lia.
  - cbn. lia.
Qed.

Lemma Zdigits2_bounds (m : Z) :
  0 < m -> 1 <= Zdigits2 m /\ 2 ^ (Zdigits2 m - 1) <= m < 2 ^ Zdigits2 m.
Proof.
  destruct m as [|p|p]; try lia. intros _. split; [cbn; lia|]. apply digits2_bounds.
Qed.

Lemma Zdigits2_nonneg (m : Z) : 0 <= Zdigits2 m.
Proof. destruct m; cbn; lia. Qed.

Lemma pow2_lt_exp (a b : Z) : 0 <= a -> 0 <= b -> 2 ^ a < 2 ^ b -> a < b.
Proof. intros Ha Hb H. apply (Z.pow_lt_mono_r_iff 2); lia. Qed.

Lemma shr_m_of_loc (m : Z) (l : SpecFloat.location) : shr_m (shr_record_of_loc m l) = m.
Proof. destruct l as [|[]]; reflexivity. Qed.

(** One shift to the right doubles the weight and keeps the bracket. *)
Lemma bracket_shr_1 (mrs : shr_record) (W X : Z) :
  0 < W -> bracket mrs W X -> bracket (shr_1 mrs) (2 * W) X.
Proof.
  intros HW (H0 & Hb & He). destruct mrs as [m r s]. cbn [shr_m shr_r shr_s] in *.
  unfold bracket.
  destruct m as [|[p|p|]|p]; cbn [shr_1 shr_m shr_r shr_s];
    try change (Zpos p~1) with (2 * Zpos p + 1) in *;
    try change (Zpos p~0) with (2 * Zpos p) in *;
    (split; [lia|]); (split; [lia|]); rewrite ?orb_false_iff; split;
    try (intros [Hf Hrs]; try discriminate; apply He in Hrs; lia);
    try (intros HX; exfalso; nia);
    intros HX; (split; [reflexivity|]); apply He; lia.
Qed.

Lemma bracket_iter (p : positive) :
  forall (mrs : shr_record) (W X : Z),
    0 < W -> bracket mrs W X -> bracket (iter_pos shr_1 p mrs) (2 ^ Zpos p * W) X.
Proof.
  induction p as [p IH|p IH|]; intros mrs W X HW Hb; cbn [iter_pos].
  - replace (2 ^ Zpos p~1 * W) with (2 ^ Zpos p * (2 ^ Zpos p * (2 * W))).
    + apply IH; [pose proof (pow2_pos (Zpos p)); nia|].
      apply IH; [lia|]. now apply bracket_shr_1.
    + replace (Zpos p~1) with (Zpos p + Zpos p + 1) by lia.
      rewrite !Z.pow_add_r by lia. change (2 ^ 1) with 2. ring.
  - replace (2 ^ Zpos p~0 * W) with (2 ^ Zpos p * (2 ^ Zpos p * W)).
    + apply IH; [pose proof (pow2_pos (Zpos p)); nia|]. now apply IH.
    + replace (Zpos p~0) with (Zpos p + Zpos p) by lia.
      rewrite !Z.pow_add_r by lia. ring.
  - change (2 ^ 1) with 2. now apply bracket_shr_1.
Qed.

(** Aligning a mantissa on the exponent of its magnitude shifts it right by
    some [n >= 0], and the bracket follows. *)
Lemma shr_fexp_spec (mx ex : Z) (lx : SpecFloat.location) (W X : Z) :
  0 < W -> bracket (shr_record_of_loc mx lx) W X ->
  exists n, 0 <= n
    /\ snd (shr_fexp 53 1024 mx ex lx) = ex + n
    /\ ex + n = Z.max ex (fexp 53 1024 (Zdigits2 mx + ex))
    /\ bracket (fst (shr_fexp 53 1024 mx ex lx)) (2 ^ n * W) X.
Proof.
  intros HW Hb. unfold shr_fexp, shr.
  destruct (fexp 53 1024 (Zdigits2 mx + ex) - ex) as [|p|p] eqn:E.
  - exists 0. cbn [fst snd]. rewrite Z.pow_0_r. split; [lia|]. split; [lia|].
    split; [lia|]. now rewrite Z.mul_1_l.
  - exists (Zpos p). cbn [fst snd]. split; [lia|]. split; [reflexivity|].
    split; [lia|]. now apply bracket_iter.
  - exists 0. cbn [fst snd]. rewrite Z.pow_0_r. split; [lia|]. split; [lia|].
    split; [lia|]. now rewrite Z.mul_1_l.
Qed.

(** Rounding to nearest keeps the mantissa or adds one to it, and keeps it
    when nothing was shifted out. *)
Lemma round_nearest_even_spec (mrs : shr_record) :
  shr_m mrs <= round_nearest_even (shr_m mrs) (loc_of_shr_record mrs) <= shr_m mrs + 1
  /\ (shr_r mrs = false /\ shr_s mrs = false ->
      round_nearest_even (shr_m mrs) (loc_of_shr_record mrs) = shr_m mrs).
Proof.
  destruct mrs as [m [] []]; cbn; destruct (Z.even m); split; try lia;
    intros [? ?]; try discriminate; reflexivity.
Qed.

(** Rounding does not step over a double: when the exact quantity
    [X / W * 2^ex] is at most the double [mT * 2^eT], so is the double it
    is rounded to. *)
Lemma binary_round_aux_le (sx : bool) (mx ex : Z) (lx : SpecFloat.location) (W X mT eT : Z) :
  0 < W -> bracket (shr_record_of_loc mx lx) W X ->
  ex <= eT -> 0 < mT -> fexp 53 1024 (Zdigits2 mT + eT) <= eT -> eT <= 971 ->
  X <= mT * 2 ^ (eT - ex) * W ->
  binary_round_aux 53 1024 sx mx ex lx = S754_zero sx
  \/ exists m e, binary_round_aux 53 1024 sx mx ex lx = S754_finite sx m e
                 /\ e <= eT /\ Zpos m <= mT * 2 ^ (eT - e).
Proof.
  intros HW Hb Hex HmT HcT HeT HX. unfold binary_round_aux.
  destruct (shr_fexp_spec mx ex lx W X HW Hb) as (n & Hn & Hsnd & Hmax & Hb').
  destruct (shr_fexp 53 1024 mx ex lx) as [mrs' e']. cbn [fst snd] in Hsnd, Hb'.
  subst e'. rewrite fexp_eq in Hmax, HcT.
  pose proof Hb as (Hmx0 & Hbx & _). rewrite shr_m_of_loc in Hmx0, Hbx.
  pose proof (Zdigits2_nonneg mx) as Hdx0.
  pose proof (Zdigits2_bounds mT HmT) as (HdT1 & HdT).
  pose proof (Zdigits2_nonneg mT) as HdT0.
  pose proof (pow2_pos (eT - ex) ltac:(lia)) as HKx.
  pose proof (pow2_pos n Hn) as Hpn.
  assert (HmT53 : mT < 2 ^ 53).
  { eapply Z.lt_le_trans; [apply HdT|]. apply Z.pow_le_mono_r; lia. }
  (* the exponent after the first shift does not exceed the bound's *)
  assert (He' : ex + n <= eT).
  { destruct (Z.eq_dec mx 0) as [->|Hmx]; [cbn [Zdigits2] in Hmax; lia|].
    pose proof (Zdigits2_bounds mx ltac:(lia)) as (Hdx1 & Hdx).
    assert (Hle : mx <= mT * 2 ^ (eT - ex))
      by (apply (Z.mul_le_mono_pos_r _ _ W); lia).
    assert (Hlt : 2 ^ (Zdigits2 mx - 1) < 2 ^ (Zdigits2 mT + (eT - ex))).
    { rewrite Z.pow_add_r by lia.
      assert (mT * 2 ^ (eT - ex) < 2 ^ Zdigits2 mT * 2 ^ (eT - ex))
        by (apply Z.mul_lt_mono_pos_r; lia).
      lia. }
    apply pow2_lt_exp in Hlt; lia. }
  set (K := 2 ^ (eT - (ex + n))).
  assert (HK : 0 < K) by (apply pow2_pos; lia).
  assert (HKn : 2 ^ (eT - ex) = K * 2 ^ n).
  { unfold K. rewrite <- Z.pow_add_r by lia. f_equal. lia. }
  destruct Hb' as (Hm'0 & Hb' & Hex').
  set (m' := shr_m mrs') in *.
  (* the shifted mantissa has at most 53 digits *)
  assert (Hm'53 : m' < 2 ^ 53).
  { destruct (Z.eq_dec mx 0) as [->|Hmx]; [pose proof (pow2_pos 53); nia|].
    pose proof (Zdigits2_bounds mx ltac:(lia)) as (Hdx1 & Hdx).
    destruct (Z_lt_ge_dec m' (2 ^ 53)) as [|Hge]; [assumption|exfalso].
    assert (Hlt : 2 ^ (53 + n) < 2 ^ Zdigits2 mx).
    { rewrite Z.pow_add_r by lia. nia. }
    apply pow2_lt_exp in Hlt; lia. }
  destruct (round_nearest_even_spec mrs') as (Hr & Hrx). fold m' in Hr, Hrx.
  set (mr := round_nearest_even m' (loc_of_shr_record mrs')) in *.
  assert (Hmr : mr <= mT * K).
  { destruct (Z.eq_dec X (m' * (2 ^ n * W))) as [HXe|HXne].
    - rewrite Hrx by now apply Hex'. nia.
    - assert (m' < mT * K) by nia. lia. }
  assert (Hp53 : 2 ^ 53 = 9007199254740992) by reflexivity.
  unfold shr_fexp, shr. cbn [shr_record_of_loc]. rewrite fexp_eq.
  destruct mr as [|q|q] eqn:Emr; [| |lia].
  - left. cbn [Zdigits2].
    destruct (Z.max (0 + (ex + n) - 53) (-1074) - (ex + n)) as [|p|p] eqn:E2;
      [reflexivity|lia|reflexivity].
  - right. cbn [Zdigits2].
    pose proof (digits2_bounds q) as Hdq.
    assert (Hd54 : Zpos (digits2_pos q) <= 54).
    { destruct (Z_le_gt_dec (Zpos (digits2_pos q)) 54) as [|Hgt]; [assumption|exfalso].
      assert (2 ^ 54 <= 2 ^ (Zpos (digits2_pos q) - 1))
        by (apply Z.pow_le_mono_r; lia).
      assert (2 ^ 54 = 18014398509481984) by reflexivity. lia. }
    destruct (Z.max (Zpos (digits2_pos q) + (ex + n) - 53) (-1074) - (ex + n))
      as [|p|p] eqn:E2.
    + exists q, (ex + n). cbn [shr_m].
      replace (ex + n <=? 1024 - 53) with true by (symmetry; apply Z.leb_le; lia).
      unfold K in Hmr. auto.
    + assert (Hd : Zpos (digits2_pos q) = 54) by lia.
      assert (Hp : p = 1%positive) by lia. subst p.
      rewrite Hd in Hdq. change (54 - 1) with 53 in Hdq.
      assert (Hq : q = 9007199254740992%positive) by lia. subst q.
      assert (HK2 : 2 <= K).
      { destruct (Z_le_gt_dec 2 K) as [|Hgt]; [assumption|exfalso].
        assert (K = 1) by lia. nia. }
      assert (Hlt : eT - (ex + n) <> 0)
        by (intros H0; unfold K in HK2; rewrite H0 in HK2; cbn in HK2; lia).
      exists 4503599627370496%positive, (ex + n + 1). cbn [iter_pos shr_1 shr_m].
      replace (ex + n + 1 <=? 1024 - 53) with true by (symmetry; apply Z.leb_le; lia).
      split; [reflexivity|]. split; [lia|].
      assert (HKs : K = 2 * 2 ^ (eT - (ex + n + 1))).
      { unfold K. rewrite <- Z.pow_succ_r by lia. f_equal. lia. }
      nia.
    + exists q, (ex + n). cbn [shr_m].
      replace (ex + n <=? 1024 - 53) with true by (symmetry; apply Z.leb_le; lia).
      unfold K in Hmr. auto.
Qed.

(** A 53-digit mantissa with an exponent in range is left as it is. *)
Lemma binary_round_aux_canonical (s : bool) (m : positive) (e : Z) :
  Zpos (digits2_pos m) = 53 -> -1074 <= e <= 971 ->
  binary_round_aux 53 1024 s (Zpos m) e loc_Exact = S754_finite s m e.
Proof.
  intros Hd He. unfold binary_round_aux, shr_fexp, shr.
  cbn [Zdigits2 shr_record_of_loc]. rewrite fexp_eq, Hd.
  replace (Z.max (53 + e - 53) (-1074) - e) with 0 by lia.
  cbn [shr_m loc_of_shr_record round_nearest_even Zdigits2 shr_record_of_loc].
  rewrite fexp_eq, Hd. replace (Z.max (53 + e - 53) (-1074) - e) with 0 by lia.
  cbn [shr_m]. replace (e <=? 1024 - 53) with true by (symmetry; apply Z.leb_le; lia).
  reflexivity.
Qed.

(** Appending [d] zero bits multiplies by [2^d] and adds [d] digits. *)
Lemma iter_xO_spec (p d : positive) :
  Zpos (Pos.iter xO p d) = Zpos p * 2 ^ Zpos d
  /\ Zpos (digits2_pos (Pos.iter xO p d)) = Zpos (digits2_pos p) + Zpos d.
Proof.
  induction d as [|d [IH1 IH2]] using Pos.peano_ind.
  - cbn [Pos.iter digits2_pos]. change (2 ^ 1) with 2. lia.
  - rewrite Pos.iter_succ. cbn [digits2_pos].
    change (Zpos (Pos.iter xO p d)~0) with (2 * Zpos (Pos.iter xO p d)).
    rewrite !Pos2Z.inj_succ, Z.pow_succ_r by lia. lia.
Qed.

(** A positive integer below [2^53] converts exactly, to a mantissa of 53
    digits. *)
Lemma double_of_Z_pos (u : Z) :
  0 < u < 2 ^ 53 ->
  exists m e, double_of_Z u = S754_finite false m e
              /\ -52 <= e <= 0 /\ Zpos m = u * 2 ^ (- e)
              /\ Zpos (digits2_pos m) = 53.
Proof.
  intros [Hu0 Hu]. destruct u as [|p|p]; try lia.
  unfold double_of_Z, binary_normalize, binary_round. rewrite fexp_eq.
  pose proof (digits2_bounds p) as Hp.
  assert (Hd : 1 <= Zpos (digits2_pos p) <= 53).
  { split; [lia|]. destruct (Z_le_gt_dec (Zpos (digits2_pos p)) 53) as [|Hgt];
      [assumption|exfalso].
    assert (2 ^ 53 <= 2 ^ (Zpos (digits2_pos p) - 1)) by (apply Z.pow_le_mono_r; lia).
    lia. }
  replace (Z.max (Zpos (digits2_pos p) + 0 - 53) (-1074))
    with (Zpos (digits2_pos p) - 53) by lia.
  unfold shl_align.
  destruct (Zpos (digits2_pos p) - 53 - 0) as [|k|k] eqn:Ek; [|lia|].
  - exists p, 0. rewrite binary_round_aux_canonical by lia.
    change (2 ^ (- 0)) with 1. repeat split; lia.
  - destruct (iter_xO_spec p k) as [Hv Hdg].
    exists (Pos.iter xO p k), (Zpos (digits2_pos p) - 53).
    rewrite binary_round_aux_canonical by lia.
    replace (- (Zpos (digits2_pos p) - 53)) with (Zpos k) by lia.
    repeat split; lia.
Qed.

(** The quotient of a Euclidean division with the location computed from
    its remainder brackets the dividend. *)
Lemma bracket_of_division (a b q r : Z) :
  0 <= a -> a = b * q + r -> 0 <= r < b ->
  bracket (shr_record_of_loc q (new_location b r)) b a.
Proof.
  intros Ha Hq Hr. assert (Hq0 : 0 <= q) by nia.
  unfold bracket. rewrite shr_m_of_loc. split; [exact Hq0|]. split; [nia|].
  unfold new_location, new_location_even, new_location_odd.
  destruct (Z.even b); destruct (Z.eqb_spec r 0) as [->|Hnz].
  - cbn. split; [intros _; lia|auto].
  - destruct (2 * r ?= b); cbn; (split; [intros [? ?]; discriminate|intros; nia]).
  - cbn. split; [intros _; lia|auto].
  - destruct (2 * r + 1 ?= b); cbn; (split; [intros [? ?]; discriminate|intros; nia]).
Qed.

(** The quotient of two doubles with 53-digit mantissas, the first no
    larger than the second, is at most 1. *)
Lemma js_div_le_one (m1 m2 : positive) (e1 e2 : Z) :
  Zpos (digits2_pos m1) = 53 -> Zpos (digits2_pos m2) = 53 ->
  -52 <= e1 <= 0 -> -52 <= e2 <= 0 ->
  e1 <= e2 -> Zpos m1 <= Zpos m2 * 2 ^ (e2 - e1) ->
  js_div (S754_finite false m1 e1) (S754_finite false m2 e2) = S754_zero false
  \/ exists m e, js_div (S754_finite false m1 e1) (S754_finite false m2 e2)
                 = S754_finite false m e
                 /\ e <= -52 /\ Zpos m <= 4503599627370496 * 2 ^ (-52 - e).
Proof.
  intros Hd1 Hd2 He1 He2 He Hle.
  unfold js_div, SFdiv, SFdiv_core_binary. cbn [Zdigits2 xorb]. rewrite Hd1, Hd2, fexp_eq.
  replace (Z.min (Z.max (53 + e1 - (53 + e2) - 53) (-1074)) (e1 - e2))
    with (e1 - e2 - 53) by lia.
  replace (e1 - e2 - (e1 - e2 - 53)) with 53 by lia.
  cbv beta iota zeta. rewrite Z.shiftl_mul_pow2 by lia.
  pose proof (Z_div_mod (Zpos m1 * 2 ^ 53) (Zpos m2) ltac:(lia)) as Hdiv.
  destruct (Z.div_eucl (Zpos m1 * 2 ^ 53) (Zpos m2)) as [q r]. destruct Hdiv as [Hq Hr].
  assert (Hp53 : 2 ^ 53 = 9007199254740992) by reflexivity.
  apply (binary_round_aux_le false q (e1 - e2 - 53) (new_location (Zpos m2) r)
           (Zpos m2) (Zpos m1 * 2 ^ 53) 4503599627370496 (-52)); try lia.
  - apply bracket_of_division; lia.
  - rewrite fexp_eq. cbn. lia.
  - replace (-52 - (e1 - e2 - 53)) with (Z.succ (e2 - e1)) by lia.
    rewrite Z.pow_succ_r by lia. pose proof (pow2_pos (e2 - e1) ltac:(lia)). nia.
Qed.

Lemma double_of_Z_100 : double_of_Z 100 = S754_finite false 7036874417766400 (-46).
Proof. reflexivity. Qed.

(** A double that is at most 1, multiplied by 100, is at most 100. *)
Lemma js_mul_100_le (mq : positive) (e0 : Z) :
  e0 <= -52 -> Zpos mq <= 4503599627370496 * 2 ^ (-52 - e0) ->
  js_mul (S754_finite false mq e0) (double_of_Z 100) = S754_zero false
  \/ exists m e, js_mul (S754_finite false mq e0) (double_of_Z 100)
                 = S754_finite false m e
                 /\ e <= -46 /\ Zpos m <= 7036874417766400 * 2 ^ (-46 - e).
Proof.
  intros He Hm. rewrite double_of_Z_100. unfold js_mul, SFmul. cbn [xorb].
  apply (binary_round_aux_le false (Zpos (mq * 7036874417766400)) (e0 + -46) loc_Exact
           1 (Zpos (mq * 7036874417766400)) 7036874417766400 (-46)); try lia.
  - unfold bracket. cbn [shr_record_of_loc shr_m shr_r shr_s]. split; [lia|].
    split; [lia|]. split; [intros _; lia|auto].
  - rewrite fexp_eq. cbn. lia.
  - replace (-46 - (e0 + -46)) with (52 + (-52 - e0)) by lia.
    rewrite Z.pow_add_r by lia. change (2 ^ 52) with 4503599627370496.
    rewrite Pos2Z.inj_mul. nia.
Qed.

(** The value bound read as the comparison [<=] of doubles. *)
Lemma js_le_of_bound (m mT : positive) (e eT : Z) :
  e <= eT -> Zpos m <= Zpos mT * 2 ^ (eT - e) ->
  js_le (S754_finite false m e) (S754_finite false mT eT) = true.
Proof.
  intros He Hm. unfold js_le, SFleb, SFcompare.
  destruct (Z.compare_spec e eT) as [->| |]; [|reflexivity|lia].
  rewrite Z.sub_diag, Z.pow_0_r, Z.mul_1_r in Hm.
  change (Pos.compare_cont Eq m mT) with (m ?= mT)%positive.
  destruct (Pos.compare_spec m mT); [reflexivity|reflexivity|lia].
Qed.

(** A quotient of integers [0 <= u <= d] below [2^53], times 100, stays
    within [[0, 100]] for all the roundings on the way. *)
Lemma quotient_times_100_within (u d : Z) :
  0 <= u <= d -> 0 < d < 2 ^ 53 ->
  js_le (double_of_Z 0)
        (js_mul (js_div (double_of_Z u) (double_of_Z d)) (double_of_Z 100)) = true
  /\ js_le (js_mul (js_div (double_of_Z u) (double_of_Z d)) (double_of_Z 100))
           (double_of_Z 100) = true.
Proof.
  intros [Hu0 Hud] Hd.
  destruct (double_of_Z_pos d Hd) as (m2 & e2 & -> & He2 & Hm2 & Hd2).
  destruct (Z.eq_dec u 0) as [->|Hu].
  - split; reflexivity.
  - destruct (double_of_Z_pos u ltac:(lia)) as (m1 & e1 & -> & He1 & Hm1 & Hd1).
    pose proof (digits2_bounds m1) as Hb1. pose proof (digits2_bounds m2) as Hb2.
    rewrite Hd1 in Hb1. rewrite Hd2 in Hb2. change (53 - 1) with 52 in Hb1, Hb2.
    assert (Hp52 : 2 ^ 52 = 4503599627370496) by reflexivity.
    assert (Hp53 : 2 ^ 53 = 9007199254740992) by reflexivity.
    assert (He : e1 <= e2).
    { destruct (Z_le_gt_dec e1 e2) as [|Hgt]; [assumption|exfalso].
      assert (Hs : 2 ^ (- e2) = 2 ^ (e1 - e2) * 2 ^ (- e1))
        by (rewrite <- Z.pow_add_r by lia; f_equal; lia).
      assert (2 ^ 1 <= 2 ^ (e1 - e2)) by (apply Z.pow_le_mono_r; lia).
      change (2 ^ 1) with 2 in *.
      pose proof (pow2_pos (- e1) ltac:(lia)). nia. }
    assert (Hle : Zpos m1 <= Zpos m2 * 2 ^ (e2 - e1)).
    { assert (Hs : 2 ^ (- e1) = 2 ^ (- e2) * 2 ^ (e2 - e1))
        by (rewrite <- Z.pow_add_r by lia; f_equal; lia).
      pose proof (pow2_pos (- e1) ltac:(lia)). rewrite Hm1, Hm2. nia. }
    destruct (js_div_le_one m1 m2 e1 e2 Hd1 Hd2 He1 He2 He Hle)
      as [->|(mq & e0 & -> & He0 & Hmq)]; [split; reflexivity|].
    destruct (js_mul_100_le mq e0 He0 Hmq) as [->|(m & e & -> & Hee & Hm)];
      [split; reflexivity|].
    split; [reflexivity|]. rewrite double_of_Z_100. now apply js_le_of_bound.
Qed.

(** Dividing by the double 0 gives NaN or an infinity, and so does the
    product with 100 that follows. *)
Lemma division_by_zero_not_finite (x : double) :
  js_mul (js_div x (double_of_Z 0)) (double_of_Z 100) = S754_nan
  \/ exists s, js_mul (js_div x (double_of_Z 0)) (double_of_Z 100) = S754_infinity s.
Proof.
  rewrite double_of_Z_100. change (double_of_Z 0) with (S754_zero false).
  destruct x as [s|s| |s m e]; cbn; eauto.
Qed.

End Binary64.


(** * The progress calculator: claims *)

(** C6, as stated, fails: [calculateProgressPercentage] neither clamps nor
    looks at the sign of the duration. 100 watched seconds of a 50-second
    duration give 200 where the clamped formula gives 100, a duration of
    zero is divided by and gives [Infinity], and a negative duration gives a
    negative percentage. *)
Lemma C6_percentage_counterexample :
  calculateProgressPercentage [0 ~~ 99] 50 = double_of_Z 200
  /\ js_le (calculateProgressPercentage [0 ~~ 99] 50) (double_of_Z 100) = false
  /\ (percentage_spec [0 ~~ 99] 50 == 100)%Q
  /\ calculateProgressPercentage [0 ~~ 9] 0 = S754_infinity false
  /\ calculateProgressPercentage [0 ~~ 9] (-5) = double_of_Z (-200)
  /\ (percentage_spec [0 ~~ 9] 0 == 0)%Q.
Proof. repeat split. Qed.

(** C6, amended. The unique seconds are the sum of [end - start + 1] over
    the intervals, and the percentage is the double
    [(uniqueSeconds / duration) * 100], the quotient rounded and then the
    product rounded, neither clamped nor guarded. For a positive duration
    below [2^53] it lies within [[0, 100]] whenever
    [0 <= uniqueSeconds <= duration], which holds for the merged form of
    intervals with [0 <= start <= end <= duration - 1]. For a duration of
    zero the division is performed and the result is NaN or an infinity,
    [+Infinity] when the unique seconds are positive and below [2^53]. For
    [[0,59]] and duration 60 the percentage is exactly 100; the two
    roundings show in general, [[0,6]] with duration 100 giving
    7.000000000000001, the double next above 7. *)
Theorem C6_percentage_unclamped (intervals : list Interval) (duration : Z) :
  calculateUniqueWatchedTime intervals = uniqueSeconds_spec intervals
  /\ calculateProgressPercentage intervals duration
     = js_mul (js_div (double_of_Z (uniqueSeconds_spec intervals))
                      (double_of_Z duration))
              (double_of_Z 100)
  /\ (0 < duration < 2 ^ 53 ->
      0 <= uniqueSeconds_spec intervals <= duration ->
      js_le (double_of_Z 0) (calculateProgressPercentage intervals duration) = true
      /\ js_le (calculateProgressPercentage intervals duration) (double_of_Z 100)
         = true)
  /\ (0 < duration < 2 ^ 53 ->
      Forall (fun iv => 0 <= start iv /\ start iv <= end_ iv
                        /\ end_ iv <= duration - 1) intervals ->
      js_le (double_of_Z 0)
            (calculateProgressPercentage (mergeIntervals intervals) duration) = true
      /\ js_le (calculateProgressPercentage (mergeIntervals intervals) duration)
               (double_of_Z 100) = true)
  /\ (duration = 0 ->
      calculateProgressPercentage intervals duration = S754_nan
      \/ exists s, calculateProgressPercentage intervals duration = S754_infinity s)
  /\ (duration = 0 -> 0 < uniqueSeconds_spec intervals < 2 ^ 53 ->
      calculateProgressPercentage intervals duration = S754_infinity false)
  /\ calculateProgressPercentage [0 ~~ 59] 60 = double_of_Z 100
  /\ calculateProgressPercentage [0 ~~ 6] 100
     = S754_finite false 7881299347898369 (-50)
  /\ double_of_Z 7 = S754_finite false 7881299347898368 (-50).
Proof.
  split; [apply calculateUniqueWatchedTime_sum|].
  split; [unfold calculateProgressPercentage; cbv zeta;
          now rewrite calculateUniqueWatchedTime_sum|].
  split; [|split; [|split; [|split; [|repeat split]]]].
  - intros Hd Hu. unfold calculateProgressPercentage. cbv zeta.
    rewrite calculateUniqueWatchedTime_sum.
    now apply quotient_times_100_within.
  - intros Hd HX. unfold calculateProgressPercentage. cbv zeta.
    rewrite calculateUniqueWatchedTime_sum.
    apply quotient_times_100_within; [|exact Hd].
    apply merged_within_duration; [lia|exact HX].
  - intros ->. apply division_by_zero_not_finite.
  - intros -> Hu. unfold calculateProgressPercentage. cbv zeta.
    rewrite calculateUniqueWatchedTime_sum.
    destruct (double_of_Z_pos _ Hu) as (m & e & -> & _). reflexivity.
Qed.

Lemma C6_percentage_unclamped_witness :
  0 < 60 < 2 ^ 53
  /\ Forall (fun iv => 0 <= start iv /\ start iv <= end_ iv /\ end_ iv <= 60 - 1)
            [0 ~~ 29; 20 ~~ 59]
  /\ js_le (double_of_Z 0)
           (calculateProgressPercentage (mergeIntervals [0 ~~ 29; 20 ~~ 59]) 60)
     = true
  /\ js_le (calculateProgressPercentage (mergeIntervals [0 ~~ 29; 20 ~~ 59]) 60)
           (double_of_Z 100) = true.
Proof.
  assert (H1 : 0 < 60 < 2 ^ 53) by (split; reflexivity).
  assert (H2 : Forall (fun iv => 0 <= start iv /\ start iv <= end_ iv
                                 /\ end_ iv <= 60 - 1) [0 ~~ 29; 20 ~~ 59])
    by (repeat constructor; cbn; lia).
  pose proof (C6_percentage_unclamped [0 ~~ 29; 20 ~~ 59] 60)
    as (_ & _ & _ & Hm & _).
  split; [exact H1|]. split; [exact H2|]. exact (Hm H1 H2).
Defined.

(** * The resume-seek effect *)

Section Resume.

Variable video : Video.

Lemma same_player_refl (p : option PlayerHandle) : same_player p p = true.
Proof. destruct p as [p|]; [apply Nat.eqb_refl|reflexivity]. Qed.

(** The course of a load, step by step. *)
Lemma resumeOnLoad_ready (lastPosition : Z) (p : PlayerHandle) :
  resumeOnLoad video lastPosition (Some p)
  = if 0 <? lastPosition
    then mkView (mkPlayerState (Some p) true
                               (if seekTo_throws p then 0 else lastPosition))
                (Some (Some p, lastPosition, true)) None [SeekTo lastPosition]
    else mkView (mkPlayerState (Some p) true 0)
                (Some (Some p, lastPosition, true)) None [].
Proof.
  unfold resumeOnLoad, run. cbn [fold_left step].
  unfold commit at 3. cbn.
  unfold commit at 2. cbn.
  unfold commit. cbn. rewrite Nat.eqb_refl, Z.eqb_refl. cbn.
  destruct (0 <? lastPosition); [|reflexivity].
  unfold fireTimer. cbn. now destruct (seekTo_throws p).
Qed.


Lemma seek_justified_mono (evs more : list Event) (z : Z) :
  seek_justified evs z -> seek_justified (evs ++ more) z.
Proof.
  intros (Hz & Hr & p & Hp). repeat split; trivial.
  - apply in_or_app; now left.
  - exists p. apply in_or_app; now left.
Qed.

Lemma step_ok (evs : list Event) (v : View) (ev : Event) :
  view_ok evs v -> view_ok (evs ++ [ev]) (step video v ev).
Proof.
  intros (Hp & Ht & Hc).
  assert (Hlast : In ev (evs ++ [ev])) by (apply in_or_app; right; now left).
  assert (Hp' : forall p, player (state v) = Some p -> In (Ready (Some p)) (evs ++ [ev]))
    by (intros p Hs; apply in_or_app; left; auto).
  assert (Ht' : forall tm, timer v = Some tm ->
                           seek_justified (evs ++ [ev]) (timer_position tm))
    by (intros tm Hv; now apply seek_justified_mono, Ht).
  assert (Hc' : forall z, In (SeekTo z) (calls v) -> seek_justified (evs ++ [ev]) z)
    by (intros z Hz; now apply seek_justified_mono, Hc).
  destruct ev as [lastPosition|internalPlayer|]; cbn [step].
  - unfold commit. split; [|split]; cbn [state timer calls player];
      [exact Hp'| |exact Hc'].
    intros tm.
    destruct (match resumeDeps v with
              | Some before =>
                  negb (same_deps before
                          (player (state v), lastPosition, isReady (state v)))
              | None => true
              end); [|apply Ht'].
    unfold resumeEffect. destruct (player (state v)) as [p|] eqn:E; [|discriminate].
    destruct (isReady (state v)); [|discriminate]. cbn [andb].
    destruct (Z.ltb_spec 0 lastPosition); [|discriminate].
    intros [= <-]. cbn [timer_position].
    split; [assumption|]. split; [exact Hlast|].
    exists p. now apply Hp'.
  - unfold onReady. split; [|split]; cbn [state timer calls player];
      [|exact Ht'|exact Hc'].
    intros p ->. exact Hlast.
  - unfold fireTimer. destruct (timer v) as [tm|] eqn:E.
    + assert (Hcalls : forall z, In (SeekTo z) (calls v ++ [SeekTo (timer_position tm)])
                                 -> seek_justified (evs ++ [Timeout]) z).
      { intros z Hz.
        apply in_app_or in Hz as [Hz|[[= <-]|[]]]; [now apply Hc'|now apply Ht']. }
      destruct (seekTo_throws (timer_player tm));
        (split; [|split]); cbn [state timer calls player];
        [exact Hp'|discriminate|exact Hcalls|exact Hp'|discriminate|exact Hcalls].
    + split; [|split]; [exact Hp'| |exact Hc'].
      intros tm Hv. rewrite E in Hv. discriminate.
Qed.

Lemma run_ok (more : list Event) :
  forall (evs : list Event) (v : View),
    view_ok evs v -> view_ok (evs ++ more) (fold_left (step video) more v).
Proof.
  induction more as [|ev more IH]; intros evs v Hv; cbn [fold_left].
  - now rewrite app_nil_r.
  - replace (evs ++ ev :: more) with ((evs ++ [ev]) ++ more)
      by (now rewrite <- app_assoc).
    apply IH, step_ok, Hv.
Qed.

(** However renders, readiness and timers interleave, the player is only
    ever told to seek to a positive [lastPosition] that was rendered, and
    only once a player instance has been reported. *)
Lemma seek_only_when_justified (evs : list Event) (z : Z) :
  In (SeekTo z) (calls (run video evs)) -> seek_justified evs z.
Proof.
  assert (H0 : view_ok [] initialView)
    by (split; [|split]; cbn; [discriminate|discriminate|intros ? []]).
  apply (run_ok evs [] initialView H0).
Qed.

End Resume.

(** * The resume resolver: claims *)



(** * The progress operations *)

Section ProviderFacts.

Variable axios : Request -> AxiosResult.

Lemma adopt_response_object (fields : jsfields) (what : string) (w : World) :
  exists w',
    adopt_response (JObj fields) what w
    = (Normal (match payload (Resolved (JObj fields)) with
               | Some d => d
               | None => JNull
               end), w')
    /\ requests w' = requests w
    /\ ctx w' = match payload (Resolved (JObj fields)) with
                | Some d => adopted (ctx w) d
                | None => ctx w
                end.
Proof.
  unfold adopt_response, payload, bind, get_prop, ret.
  destruct (truthy (lookup_field "success" fields)) eqn:Es; cbn [andb].
  - destruct (truthy (lookup_field "data" fields)) eqn:Ed.
    + eexists; split; [reflexivity|]. split; reflexivity.
    + exists w. repeat split.
  - rewrite Es. exists w. repeat split.
Qed.

(** The body shared by the three authenticated paths. *)
Lemma request_settles (req : Request) (before after what failed : string) (w : World) :
  settled req (axios req) w
    (try_catch
       (bind (console_log before) (fun _ =>
        bind (await_axios axios req) (fun res_data =>
        bind (console_log after) (fun _ =>
        adopt_response res_data what))))
       (fun err => bind (console_error failed) (fun _ => ret JNull)) w).
Proof.
  unfold settled.
  set (run := try_catch _ _ w).
  assert (H : exists r w', run = (r, w')
              /\ requests w' = requests w ++ [req]
              /\ match payload (axios req) with
                 | Some d => r = Normal d /\ ctx w' = adopted (ctx w) d
                 | None => r = Normal JNull /\ ctx w' = ctx w
                 end).
  { subst run. unfold try_catch, bind, console_error, console_log, await_axios.
    cbn [ctx requests console].
    destruct (axios req) as [d|err].
    - destruct d as [| |b|z|s|fields].
      6:{ match goal with
          | |- context [adopt_response (JObj fields) what ?w0] =>
              destruct (adopt_response_object fields what w0)
                as (w' & Heq & Hr & Hc); rewrite Heq
          end.
          cbn [ctx requests console] in Hr, Hc.
          exists (match payload (Resolved (JObj fields)) with
                  | Some d => Normal d
                  | None => Normal JNull
                  end), w'.
          split; [now destruct (payload (Resolved (JObj fields)))|].
          split; [exact Hr|].
          destruct (payload (Resolved (JObj fields))); split; trivial. }
      all: cbn; eexists; eexists; split; [reflexivity|];
        split; [reflexivity|]; split; reflexivity.
    - cbn. eexists; eexists; split; [reflexivity|].
      split; [reflexivity|]; split; reflexivity. }
  destruct H as (r & w' & -> & Hr & Hp). cbn [fst snd]. split; assumption.
Qed.

Lemma getVideoProgress_settles (videoId : string) (w : World) :
  settled (mkRequest GET (api_progress videoId) None)
          (axios (mkRequest GET (api_progress videoId) None)) w
          (getVideoProgress axios true videoId w).
Proof. apply request_settles. Qed.

Lemma updateProgress_settles (videoId : string) (data : jsval) (w : World) :
  settled (mkRequest POST (api_progress videoId) (Some data))
          (axios (mkRequest POST (api_progress videoId) (Some data))) w
          (updateProgress axios true videoId data w).
Proof. apply request_settles. Qed.

Lemma resetProgress_settles (videoId : string) (w : World) :
  settled (mkRequest DELETE (api_progress videoId) None)
          (axios (mkRequest DELETE (api_progress videoId) None)) w
          (resetProgress axios true videoId w).
Proof. apply request_settles. Qed.

End ProviderFacts.

(** * The progress operations: claims *)

(** C9. While the user is not authenticated, fetching, updating and
    resetting progress do nothing but log a line: each returns [null]
    without throwing, sends no request and leaves the provider state as it
    was. *)
Theorem C9_unauthenticated_noop
        (axios : Request -> AxiosResult) (videoId : string) (data : jsval)
        (w : World) :
  (getVideoProgress axios false videoId w
   = (Normal JNull,
      mkWorld (ctx w) (requests w)
              (console w ++ ["User not authenticated, skipping progress fetch"]))
   /\ updateProgress axios false videoId data w
      = (Normal JNull,
         mkWorld (ctx w) (requests w)
                 (console w ++ ["User not authenticated, skipping progress update"]))
   /\ resetProgress axios false videoId w
      = (Normal JNull,
         mkWorld (ctx w) (requests w)
                 (console w ++ ["User not authenticated, skipping progress reset"])))
  /\ skipped w (getVideoProgress axios false videoId w)
  /\ skipped w (updateProgress axios false videoId data w)
  /\ skipped w (resetProgress axios false videoId w).
Proof. repeat split. Qed.

(** C10. An authenticated fetch, update or reset sends its request exactly
    once and never throws, however the request settles. When the response
    reports success and carries data, the data becomes the stored progress
    (and is returned, with the error state cleared); when the request is
    rejected, or the response lacks the success flag or the data, or has no
    body to read them from, the operation returns [null] and the provider
    state, progress and error included, stays as it was. *)
Theorem C10_authenticated_outcome
        (axios : Request -> AxiosResult) (videoId : string) (data : jsval)
        (w : World) :
  settled (mkRequest GET (api_progress videoId) None)
          (axios (mkRequest GET (api_progress videoId) None)) w
          (getVideoProgress axios true videoId w)
  /\ settled (mkRequest POST (api_progress videoId) (Some data))
             (axios (mkRequest POST (api_progress videoId) (Some data))) w
             (updateProgress axios true videoId data w)
  /\ settled (mkRequest DELETE (api_progress videoId) None)
             (axios (mkRequest DELETE (api_progress videoId) None)) w
             (resetProgress axios true videoId w).
Proof.
  split; [apply getVideoProgress_settles|].
  split; [apply updateProgress_settles|apply resetProgress_settles].
Qed.

(** * What merging does to the watched seconds *)

Section WatchedSeconds.

Lemma seconds_of_in (iv : Interval) (z : Z) :
  In z (seconds_of iv) <-> start iv <= z <= end_ iv.
Proof.
  unfold seconds_of. rewrite in_map_iff. split.
  - intros (i & <- & Hi). apply in_seq in Hi. lia.
  - intros Hz. exists (Z.to_nat (z - start iv)). split; [lia|].
    apply in_seq. lia.
Qed.

Lemma seconds_of_NoDup (iv : Interval) : NoDup (seconds_of iv).
Proof.
  unfold seconds_of. apply Injective_map_NoDup; [|apply seq_NoDup].
  intros i j H. lia.
Qed.

Lemma seconds_of_length (iv : Interval) :
  valid iv -> Z.of_nat (length (seconds_of iv)) = end_ iv - start iv + 1.
Proof.
  intros Hv. unfold seconds_of, valid in *. rewrite length_map, length_seq. lia.
Qed.

Lemma watched_seconds_in (l : list Interval) (z : Z) :
  In z (watched_seconds l) <-> covers l z.
Proof.
  unfold watched_seconds, covers. rewrite in_flat_map.
  split; intros (iv & Hin & Hz); exists iv; split; trivial;
    now apply seconds_of_in.
Qed.

Lemma watched_seconds_length (l : list Interval) :
  Forall valid l -> Z.of_nat (length (watched_seconds l)) = uniqueSeconds_spec l.
Proof.
  induction 1 as [|iv l Hv _ IH]; [reflexivity|].
  cbn [watched_seconds flat_map]. fold (watched_seconds l).
  rewrite length_app, Nat2Z.inj_add, IH, seconds_of_length, uniqueSeconds_cons
    by exact Hv.
  reflexivity.
Qed.

(** In a canonical sequence no second belongs to two entries. *)
Lemma watched_seconds_NoDup (l : list Interval) :
  Forall valid l -> Sorted apart l -> NoDup (watched_seconds l).
Proof.
  induction l as [|a t IH]; intros Hv Hs; [constructor|].
  cbn [watched_seconds flat_map]. fold (watched_seconds t).
  pose proof (fun z => covers_beyond t a z Hv Hs) as Hb.
  inversion Hv; subst. inversion Hs; subst.
  apply NoDup_app; [apply seconds_of_NoDup|now apply IH|].
  intros z Hz Hz'. apply seconds_of_in in Hz. apply watched_seconds_in in Hz'.
  specialize (Hb z Hz'). lia.
Qed.

Lemma merged_seconds_count (X : list Interval) :
  Forall valid X ->
  NoDup (watched_seconds (mergeIntervals X))
  /\ (forall z, In z (watched_seconds (mergeIntervals X)) <-> covers X z)
  /\ calculateUniqueWatchedTime (mergeIntervals X)
     = Z.of_nat (length (watched_seconds (mergeIntervals X))).
Proof.
  intros HX. pose proof (mergeIntervals_valid X HX) as Hv.
  split; [apply watched_seconds_NoDup; [exact Hv|apply mergeIntervals_canonical]|].
  split.
  - intros z. now rewrite watched_seconds_in, mergeIntervals_covers.
  - now rewrite calculateUniqueWatchedTime_sum, watched_seconds_length.
Qed.

Lemma merge_spec_from_length (rest : list Interval) (l : Interval) :
  (1 <= length (merge_spec_from l rest) <= S (length rest))%nat.
Proof.
  revert l. induction rest as [|cur rest IH]; intros l; cbn [merge_spec_from length].
  - lia.
  - destruct (start cur <=? end_ l + 1).
    + specialize (IH (start l ~~ Z.max (end_ l) (end_ cur))). lia.
    + cbn [length]. specialize (IH cur). lia.
Qed.

End WatchedSeconds.

(** * The interval merger: further properties *)

(** X1. For intervals with [start <= end], merging neither loses nor
    invents footage: a second lies in some interval of the result exactly
    when it lies in some interval of the input. *)
Theorem X1_merge_keeps_coverage (X : list Interval) (z : Z) :
  Forall valid X ->
  (exists iv, In iv (mergeIntervals X) /\ start iv <= z <= end_ iv)
  <-> (exists iv, In iv X /\ start iv <= z <= end_ iv).
Proof. intros HX. exact (mergeIntervals_covers X z HX). Qed.

Lemma X1_merge_keeps_coverage_witness :
  Forall valid [10 ~~ 30; 20 ~~ 40]
  /\ ((exists iv, In iv (mergeIntervals [10 ~~ 30; 20 ~~ 40])
                  /\ start iv <= 35 <= end_ iv)
      <-> (exists iv, In iv [10 ~~ 30; 20 ~~ 40] /\ start iv <= 35 <= end_ iv)).
Proof.
  assert (H : Forall valid [10 ~~ 30; 20 ~~ 40])
    by (repeat constructor; unfold valid; cbn; lia).
  split; [exact H|]. exact (X1_merge_keeps_coverage _ 35 H).
Defined.

(** X2. For intervals with [start <= end], the unique watched time of the
    merged list is the number of distinct seconds the input covers, each
    counted once; so it never exceeds the total of the unmerged list. *)
Theorem X2_unique_time_counts_seconds (X : list Interval) :
  Forall valid X ->
  (exists secs : list Z,
      NoDup secs
      /\ (forall z, In z secs <-> exists iv, In iv X /\ start iv <= z <= end_ iv)
      /\ calculateUniqueWatchedTime (mergeIntervals X) = Z.of_nat (length secs))
  /\ calculateUniqueWatchedTime (mergeIntervals X) <= calculateUniqueWatchedTime X.
Proof.
  intros HX. destruct (merged_seconds_count X HX) as (Hnd & Hin & Hlen).
  split; [exists (watched_seconds (mergeIntervals X)); auto|].
  rewrite Hlen, (calculateUniqueWatchedTime_sum X), <- watched_seconds_length
    by exact HX.
  apply inj_le, NoDup_incl_length; [exact Hnd|].
  intros z Hz. now apply watched_seconds_in, Hin.
Qed.

Lemma X2_unique_time_counts_seconds_witness :
  Forall valid [10 ~~ 30; 20 ~~ 40]
  /\ calculateUniqueWatchedTime (mergeIntervals [10 ~~ 30; 20 ~~ 40])
     <= calculateUniqueWatchedTime [10 ~~ 30; 20 ~~ 40].
Proof.
  assert (H : Forall valid [10 ~~ 30; 20 ~~ 40])
    by (repeat constructor; unfold valid; cbn; lia).
  split; [exact H|]. exact (proj2 (X2_unique_time_counts_seconds _ H)).
Defined.

(** X3. Progress is monotone: for intervals with [start <= end], merging
    further intervals in with those already there never lowers the unique
    watched time. *)
Theorem X3_unique_time_monotone (A B : list Interval) :
  Forall valid A -> Forall valid B ->
  calculateUniqueWatchedTime (mergeIntervals B)
  <= calculateUniqueWatchedTime (mergeIntervals (A ++ B)).
Proof.
  intros HA HB.
  assert (HAB : Forall valid (A ++ B)) by (apply Forall_app; auto).
  destruct (merged_seconds_count B HB) as (Hnd & Hin & ->).
  destruct (merged_seconds_count (A ++ B) HAB) as (_ & Hin' & ->).
  apply inj_le, NoDup_incl_length; [exact Hnd|].
  intros z Hz. apply Hin', covers_app. right. now apply Hin.
Qed.

Lemma X3_unique_time_monotone_witness :
  Forall valid [50 ~~ 60] /\ Forall valid [10 ~~ 30; 20 ~~ 40]
  /\ calculateUniqueWatchedTime (mergeIntervals [10 ~~ 30; 20 ~~ 40])
     <= calculateUniqueWatchedTime (mergeIntervals ([50 ~~ 60] ++ [10 ~~ 30; 20 ~~ 40])).
Proof.
  assert (HA : Forall valid [50 ~~ 60])
    by (repeat constructor; unfold valid; cbn; lia).
  assert (HB : Forall valid [10 ~~ 30; 20 ~~ 40])
    by (repeat constructor; unfold valid; cbn; lia).
  split; [exact HA|]. split; [exact HB|].
  exact (X3_unique_time_monotone _ _ HA HB).
Defined.

(** X4. For intervals with [0 <= start <= end <= duration - 1] and a
    positive duration, the unique watched time of the merged list lies
    between 0 and the duration. *)
Theorem X4_unique_time_within_duration (X : list Interval) (d : Z) :
  d > 0 ->
  Forall (fun iv => 0 <= start iv /\ start iv <= end_ iv /\ end_ iv <= d - 1) X ->
  0 <= calculateUniqueWatchedTime (mergeIntervals X) <= d.
Proof.
  intros Hd HX. rewrite calculateUniqueWatchedTime_sum.
  now apply merged_within_duration.
Qed.

Lemma X4_unique_time_within_duration_witness :
  60 > 0
  /\ Forall (fun iv => 0 <= start iv /\ start iv <= end_ iv /\ end_ iv <= 60 - 1)
            [0 ~~ 29; 20 ~~ 59; 5 ~~ 10]
  /\ 0 <= calculateUniqueWatchedTime (mergeIntervals [0 ~~ 29; 20 ~~ 59; 5 ~~ 10]) <= 60.
Proof.
  assert (H1 : 60 > 0) by lia.
  assert (H2 : Forall (fun iv => 0 <= start iv /\ start iv <= end_ iv
                                 /\ end_ iv <= 60 - 1)
                      [0 ~~ 29; 20 ~~ 59; 5 ~~ 10])
    by (repeat constructor; cbn; lia).
  split; [exact H1|]. split; [exact H2|].
  exact (X4_unique_time_within_duration _ 60 H1 H2).
Defined.

(** X5. The result never has more entries than the input, and it is empty
    only for an empty input. *)
Theorem X5_merge_size (X : list Interval) :
  (length (mergeIntervals X) <= length X)%nat
  /\ (mergeIntervals X = [] <-> X = []).
Proof.
  rewrite mergeIntervals_refines.
  pose proof (Permutation_length (array_sort_perm X)) as Hlen.
  destruct (array_sort by_start X) as [|f r] eqn:E; cbn [merge_spec_sorted].
  - destruct X; [split; [cbn; lia|tauto]|discriminate].
  - pose proof (merge_spec_from_length r f) as Hl. cbn [length] in Hlen.
    split; [lia|]. split.
    + intros H0. rewrite H0 in Hl. cbn in Hl. lia.
    + intros ->. discriminate.
Qed.

(** * What the loop writes to the caller's objects *)

Section StoreFrame.

Lemma sort_insert_incl {A : Type} (cmp : A -> A -> Z) (x y : A) (l : list A) :
  In y (sort_insert cmp x l) -> y = x \/ In y l.
Proof.
  induction l as [|a t IH]; cbn [sort_insert].
  - intros [<-|[]]. now left.
  - destruct (cmp x a <=? 0).
    + intros [<-|H]; [now left|now right].
    + intros [<-|H]; [right; now left|].
      destruct (IH H) as [->|H']; [now left|right; now right].
Qed.

Lemma array_sort_incl {A : Type} (cmp : A -> A -> Z) (l : list A) :
  incl (array_sort cmp l) l.
Proof.
  induction l as [|x t IH]; intros y Hy; [exact Hy|].
  cbn [array_sort fold_right] in Hy. apply sort_insert_incl in Hy as [->|Hy].
  - now left.
  - right. now apply IH.
Qed.

(** From a result that is not empty, the loop only appends references
    still to come, leaves every [start] alone, lets no [end] shrink, and
    writes to no object outside the result. *)
Lemma store_loop_frame (rest : list Ref) :
  forall (result : list Ref) (h : Store),
    result <> [] ->
    let out := fold_left merge_iteration_store rest (result, h) in
    (exists more, fst out = result ++ more /\ incl more rest)
    /\ (forall r, start (snd out r) = start (h r))
    /\ (forall r, end_ (h r) <= end_ (snd out r))
    /\ (forall r, ~ In r (fst out) -> snd out r = h r).
Proof.
  induction rest as [|c rest IH]; intros result h Hne; cbn [fold_left].
  - cbn. split; [exists []; split; [now rewrite app_nil_r|intros ? []]|].
    split; [reflexivity|]. split; [intros; lia|reflexivity].
  - cbv zeta in IH |- *.
    destruct (exists_last Hne) as (init & l & ->).
    assert (Hstep : merge_iteration_store (init ++ [l], h) c
                    = if start (h c) <=? end_ (h l) + 1
                      then (init ++ [l],
                            store_set_end h l (Z.max (end_ (h l)) (end_ (h c))))
                      else ((init ++ [l]) ++ [c], h))
      by (unfold merge_iteration_store; now rewrite last_snoc).
    rewrite Hstep. clear Hstep.
    destruct (start (h c) <=? end_ (h l) + 1).
    + set (h' := store_set_end h l _).
      destruct (IH (init ++ [l]) h' Hne) as ((more & Hm & Hincl) & Hs & He & Hf).
      split; [exists more; split; [exact Hm|intros x Hx; right; auto]|].
      assert (Hh' : forall r, start (h' r) = start (h r) /\ end_ (h r) <= end_ (h' r)).
      { intros r. subst h'. unfold store_set_end.
        destruct (Nat.eqb_spec r l) as [->|_]; cbn; lia. }
      split; [intros r; rewrite Hs; apply Hh'|].
      split; [intros r; specialize (He r); destruct (Hh' r); lia|].
      intros r Hr. rewrite (Hf r Hr). subst h'. apply store_set_end_other.
      intros ->. apply Hr. rewrite Hm, <- app_assoc. apply in_or_app. right. now left.
    + assert (Hne' : (init ++ [l]) ++ [c] <> []) by (now destruct (init ++ [l])).
      destruct (IH ((init ++ [l]) ++ [c]) h Hne') as ((more & Hm & Hincl) & Hs & He & Hf).
      split; [|auto].
      exists (c :: more). split; [now rewrite Hm, <- app_assoc|].
      intros x [<-|Hx]; [now left|right; auto].
Qed.

Lemma mergeIntervals_store_frame (h : Store) (refs : list Ref) :
  let out := mergeIntervals_store h refs in
  incl (fst out) refs
  /\ (forall r, start (snd out r) = start (h r))
  /\ (forall r, end_ (h r) <= end_ (snd out r))
  /\ (forall r, ~ In r (fst out) -> snd out r = h r).
Proof.
  unfold mergeIntervals_store.
  destruct (Z.of_nat (length refs) <=? 1).
  { cbn. split; [apply incl_refl|]. split; [reflexivity|].
    split; [intros; lia|reflexivity]. }
  cbv zeta.
  pose proof (array_sort_incl (fun a b => start (h a) - start (h b)) refs) as Hincl.
  destruct (array_sort (fun a b => start (h a) - start (h b)) refs)
    as [|first rest].
  { cbn. split; [intros ? []|]. split; [reflexivity|].
    split; [intros; lia|reflexivity]. }
  assert (Hne : [first] <> []) by discriminate.
  destruct (store_loop_frame rest [first] h Hne) as ((more & Hm & Hmore) & Hrest).
  split; [|exact Hrest].
  rewrite Hm. intros x [<-|Hx]; apply Hincl; [now left|right; auto].
Qed.

End StoreFrame.

(** X6. Run on shared objects, [mergeIntervals] returns references taken
    from the given array, never changes the [start] of any object, never
    lowers an [end], and writes to no object outside the returned array;
    the objects the caller passed in are the ones that get extended. *)
Theorem X6_merge_writes_only_ends (h : Store) (refs : list Ref) :
  let out := mergeIntervals_store h refs in
  incl (fst out) refs
  /\ (forall r, start (snd out r) = start (h r))
  /\ (forall r, end_ (h r) <= end_ (snd out r))
  /\ (forall r, ~ In r (fst out) -> snd out r = h r).
Proof. apply mergeIntervals_store_frame. Qed.

(** * The resume effect over time *)

Section ResumeOverTime.

Variable video : Video.

Lemma run_app (evs more : list Event) :
  run video (evs ++ more) = fold_left (step video) more (run video evs).
Proof. unfold run. apply fold_left_app. Qed.

Lemma settled_view_step (p : PlayerHandle) (lastPosition : Z) (v : View) (ev : Event) :
  settled_view p lastPosition v ->
  ev = Render lastPosition \/ ev = Timeout ->
  settled_view p lastPosition (step video v ev) /\ calls (step video v ev) = calls v.
Proof.
  intros (Hp & Hr & Hd & Ht) [->| ->]; cbn [step].
  - unfold commit, settled_view. cbn [state resumeDeps timer calls player isReady].
    rewrite Hd, Hp, Hr. unfold readyEffect. rewrite Hp, Hr. cbn.
    rewrite Nat.eqb_refl, Z.eqb_refl. cbn. auto.
  - unfold fireTimer. rewrite Ht. unfold settled_view. auto.
Qed.

Lemma settled_view_run (p : PlayerHandle) (lastPosition : Z) (more : list Event) :
  forall v,
    settled_view p lastPosition v ->
    Forall (fun ev => ev = Render lastPosition \/ ev = Timeout) more ->
    calls (fold_left (step video) more v) = calls v.
Proof.
  induction more as [|ev more IH]; intros v Hv Hm; [reflexivity|].
  inversion Hm as [|? ? Hev Hm']; subst. cbn [fold_left].
  destruct (settled_view_step p lastPosition v ev Hv Hev) as (Hv' & <-).
  now apply IH.
Qed.

Lemma timer_current_step (v : View) (ev : Event) :
  timer_current v -> timer_current (step video v ev).
Proof.
  intros Hv. destruct ev as [lastPosition|internalPlayer|]; cbn [step].
  - unfold commit, timer_current. cbn [timer resumeDeps].
    destruct (resumeDeps v) as [[[p0 l0] r0]|] eqn:Ed.
    + destruct (same_deps (p0, l0, r0)
                          (player (state v), lastPosition, isReady (state v)))
        eqn:Es; cbn [negb].
      * intros t Ht. destruct (Hv t Ht) as (p & r & Heq).
        rewrite Ed in Heq. injection Heq as _ Hl _.
        unfold same_deps in Es.
        apply andb_prop in Es as [Es _]. apply andb_prop in Es as [_ Es].
        apply Z.eqb_eq in Es. rewrite <- Hl, Es. eauto.
      * unfold resumeEffect. destruct (player (state v)); [|discriminate].
        destruct (isReady (state v) && (0 <? lastPosition)); [|discriminate].
        intros t [= <-]. cbn. eauto.
    + unfold resumeEffect. destruct (player (state v)); [|discriminate].
      destruct (isReady (state v) && (0 <? lastPosition)); [|discriminate].
      intros t [= <-]. cbn. eauto.
  - exact Hv.
  - unfold fireTimer, timer_current. destruct (timer v) as [t0|] eqn:Et.
    + destruct (seekTo_throws (timer_player t0)); cbn; discriminate.
    + rewrite Et. discriminate.
Qed.

Lemma timer_current_run (evs : list Event) : timer_current (run video evs).
Proof.
  unfold run.
  assert (H0 : timer_current initialView) by (intros t; discriminate).
  revert H0. generalize initialView.
  induction evs as [|ev evs IH]; intros v Hv; [exact Hv|].
  cbn [fold_left]. apply IH, timer_current_step, Hv.
Qed.

Lemma render_then_timeout (evs : list Event) (lastPosition : Z) :
  calls (run video (evs ++ [Render lastPosition; Timeout])) = calls (run video evs)
  \/ calls (run video (evs ++ [Render lastPosition; Timeout]))
     = calls (run video evs) ++ [SeekTo lastPosition].
Proof.
  rewrite run_app. cbn [fold_left step].
  pose proof (timer_current_step (run video evs) (Render lastPosition)
                                 (timer_current_run evs)) as Hc.
  cbn [step] in Hc.
  set (v := commit video lastPosition (run video evs)) in *.
  assert (Hcalls : calls v = calls (run video evs)) by reflexivity.
  assert (Hdeps : exists p r, resumeDeps v = Some (p, lastPosition, r))
    by (subst v; unfold commit; cbn; eauto).
  unfold fireTimer. destruct (timer v) as [t|] eqn:Et; [|left; exact Hcalls].
  right. destruct (Hc t Et) as (p & r & Heq). destruct Hdeps as (p' & r' & Heq').
  rewrite Heq in Heq'. injection Heq' as _ -> _.
  destruct (seekTo_throws (timer_player t)); cbn [calls]; now rewrite Hcalls.
Qed.

End ResumeOverTime.

(** * The resume resolver: further properties *)

(** X7. However renders, readiness reports and timer expiries interleave,
    the player is only ever told to seek to a [lastPosition] that is
    positive and was rendered, and only after a player instance has been
    reported. *)
Theorem X7_seek_needs_ready_and_positive
        (video : Video) (evs : list Event) (z : Z) :
  In (SeekTo z) (calls (run video evs)) ->
  0 < z /\ In (Render z) evs /\ exists p, In (Ready (Some p)) evs.
Proof. apply seek_only_when_justified. Qed.

Lemma X7_seek_needs_ready_and_positive_witness :
  let video := mkVideo "lecture" 300 in
  let evs := [Render 42; Ready (Some (mkPlayerHandle 1 false));
              Render 42; Render 42; Timeout] in
  In (SeekTo 42) (calls (run video evs))
  /\ 0 < 42 /\ In (Render 42) evs /\ exists p, In (Ready (Some p)) evs.
Proof.
  intros video evs.
  assert (H : In (SeekTo 42) (calls (run video evs))) by (now left).
  split; [exact H|]. exact (X7_seek_needs_ready_and_positive video evs 42 H).
Defined.

(** X8. The stored position is sought once: after a load, further renders
    with the same [lastPosition] and further timer expiries, in any number
    and order, add no call on the player. *)
Theorem X8_resume_seeks_once
        (video : Video) (lastPosition : Z) (p : PlayerHandle) (more : list Event) :
  Forall (fun ev => ev = Render lastPosition \/ ev = Timeout) more ->
  calls (run video ([Render lastPosition; Ready (Some p);
                     Render lastPosition; Render lastPosition; Timeout] ++ more))
  = if 0 <? lastPosition then [SeekTo lastPosition] else [].
Proof.
  intros Hm. rewrite run_app.
  change (run video [Render lastPosition; Ready (Some p);
                     Render lastPosition; Render lastPosition; Timeout])
    with (resumeOnLoad video lastPosition (Some p)).
  rewrite (settled_view_run video p lastPosition more _); [| |exact Hm].
  - rewrite resumeOnLoad_ready. now destruct (0 <? lastPosition).
  - rewrite resumeOnLoad_ready.
    destruct (0 <? lastPosition); repeat split.
Qed.

Lemma X8_resume_seeks_once_witness :
  let p := mkPlayerHandle 1 false in
  Forall (fun ev => ev = Render 42 \/ ev = Timeout) [Render 42; Timeout; Render 42]
  /\ calls (run (mkVideo "lecture" 300)
                ([Render 42; Ready (Some p); Render 42; Render 42; Timeout]
                   ++ [Render 42; Timeout; Render 42]))
     = [SeekTo 42].
Proof.
  intros p.
  assert (H : Forall (fun ev => ev = Render 42 \/ ev = Timeout)
                     [Render 42; Timeout; Render 42])
    by (repeat constructor; auto).
  split; [exact H|].
  exact (X8_resume_seeks_once (mkVideo "lecture" 300) 42 p _ H).
Defined.

(** X9. No stale seek: whatever happened before, a timer that runs out
    right after a render with [lastPosition] either does nothing or seeks to
    that very [lastPosition]; a timer set for an earlier value has been
    cleared by the effect's cleanup. *)
Theorem X9_timer_seeks_latest_position
        (video : Video) (evs : list Event) (lastPosition : Z) :
  calls (run video (evs ++ [Render lastPosition; Timeout])) = calls (run video evs)
  \/ calls (run video (evs ++ [Render lastPosition; Timeout]))
     = calls (run video evs) ++ [SeekTo lastPosition].
Proof. apply render_then_timeout. Qed.

(** * The video operations *)

Section VideoFacts.

Variable axios : Request -> AxiosResult.

Ltac run_eff :=
  unfold getVideos, getVideo, fetchVideo, getVideoProgress_begin,
    getVideoProgress_resume, getVideoProgress, adopt_response, error_message,
    try_finally, try_catch, bind, ret, throw, setLoading, setVideos,
    setCurrentVideo, setProgress, setError, console_error, console_log,
    await_axios, get_prop;
  cbn [ctx requests console videos currentVideo progress loading error fst snd].

Lemma getVideos_always (w : World) :
  let out := getVideos axios w in
  loading (ctx (snd out)) = false
  /\ requests (snd out) = requests w ++ [mkRequest GET api_videos None]
  /\ currentVideo (ctx (snd out)) = currentVideo (ctx w)
  /\ progress (ctx (snd out)) = progress (ctx w).
Proof.
  run_eff. destruct (axios (mkRequest GET api_videos None)) as [[| |b|z|s|fields]|[| |b|z|s|fields]];
    cbn; repeat split.
Qed.

Lemma truthy_js_or (a b : jsval) : truthy b = true -> truthy (js_or a b) = true.
Proof. intros Hb. unfold js_or. destruct (truthy a) eqn:Ea; assumption. Qed.

Lemma getVideos_failure (w : World) (err : jsval) :
  axios (mkRequest GET api_videos None) = Rejected err ->
  nullish err = false ->
  let out := getVideos axios w in
  fst out = Normal EmptyArray
  /\ error (ctx (snd out))
     = js_or (opt_prop (opt_prop (opt_prop err "response") "data") "message")
             (JStr "Error fetching videos")
  /\ truthy (error (ctx (snd out))) = true
  /\ videos (ctx (snd out)) = videos (ctx w).
Proof.
  intros E Hn. run_eff. rewrite E.
  destruct err as [| |b|z|s|fields]; try discriminate; cbn;
    (split; [reflexivity|]); (split; [reflexivity|]);
    (split; [first [reflexivity|now apply truthy_js_or]|reflexivity]).
Qed.

Lemma getVideo_always (isAuthenticated : bool) (id : string) (w : World) :
  let out := getVideo axios isAuthenticated id w in
  loading (ctx (snd out)) = false
  /\ videos (ctx (snd out)) = videos (ctx w)
  /\ exists more,
      requests (snd out) = requests w ++ mkRequest GET (api_video id) None :: more
      /\ (more = [] \/ more = [mkRequest GET (api_progress id) None])
      /\ (isAuthenticated = false ->
          more = [] /\ progress (ctx (snd out)) = progress (ctx w)).
Proof.
  run_eff.
  destruct (axios (mkRequest GET (api_video id) None))
    as [[| |b|z|s|fields]|[| |b|z|s|fields]];
    destruct isAuthenticated; cbn;
    try (destruct (truthy (lookup_field "progress" fields)); cbn);
    (split; [reflexivity|]); (split; [reflexivity|]);
    first [ exists []; rewrite <- ?app_assoc; split; [reflexivity|];
            split; [now left|]; first [discriminate|intros _; split; reflexivity]
          | exists [mkRequest GET (api_progress id) None];
            rewrite <- ?app_assoc; split; [reflexivity|];
            split; [now right|]; discriminate ].
Qed.

Lemma getVideo_failure (isAuthenticated : bool) (id : string) (w : World)
      (err : jsval) :
  axios (mkRequest GET (api_video id) None) = Rejected err ->
  nullish err = false ->
  let out := getVideo axios isAuthenticated id w in
  fst out = Throw err
  /\ error (ctx (snd out))
     = js_or (opt_prop (opt_prop (opt_prop err "response") "data") "message")
             (JStr "Error fetching video")
  /\ truthy (error (ctx (snd out))) = true
  /\ currentVideo (ctx (snd out)) = currentVideo (ctx w)
  /\ progress (ctx (snd out)) = progress (ctx w)
  /\ requests (snd out) = requests w ++ [mkRequest GET (api_video id) None].
Proof.
  intros E Hn. run_eff. rewrite E.
  destruct err as [| |b|z|s|fields]; try discriminate; cbn;
    (split; [reflexivity|]); (split; [reflexivity|]);
    (split; [first [reflexivity|now apply truthy_js_or]|]); repeat split.
Qed.

Lemma getVideo_success (isAuthenticated : bool) (id : string) (w : World)
      (fields : jsfields) :
  axios (mkRequest GET (api_video id) None) = Resolved (JObj fields) ->
  let out := getVideo axios isAuthenticated id w in
  let stored := lookup_field "progress" fields in
  let detach := isAuthenticated && negb (truthy stored) in
  fst out = Normal (JObj fields,
                    if detach
                    then Some (axios (mkRequest GET (api_progress id) None))
                    else None)
  /\ currentVideo (ctx (snd out)) = lookup_field "data" fields
  /\ error (ctx (snd out)) = JNull
  /\ progress (ctx (snd out))
     = (if isAuthenticated && truthy stored then stored else progress (ctx w))
  /\ requests (snd out)
     = requests w ++ mkRequest GET (api_video id) None
                  :: (if detach then [mkRequest GET (api_progress id) None] else []).
Proof.
  intros E. run_eff. rewrite E.
  destruct isAuthenticated; cbn;
    try (destruct (truthy (lookup_field "progress" fields)); cbn);
    rewrite <- ?app_assoc; repeat split.
Qed.

(** Started and resumed, the detached call does what the awaited one
    does. *)
Lemma getVideoProgress_split (videoId : string) (w : World) :
  bind (getVideoProgress_begin axios videoId) getVideoProgress_resume w
  = getVideoProgress axios true videoId w.
Proof.
  unfold getVideoProgress_begin, getVideoProgress_resume, getVideoProgress,
    try_catch, bind, ret, throw, console_error, console_log, await_axios.
  cbn [negb ctx requests console].
  destruct (axios (mkRequest GET (api_progress videoId) None)); reflexivity.
Qed.

Lemma getVideoProgress_resume_settles (settledTo : AxiosResult) (w : World) :
  let out := getVideoProgress_resume settledTo w in
  requests (snd out) = requests w
  /\ match payload settledTo with
     | Some d => fst out = Normal d /\ ctx (snd out) = adopted (ctx w) d
     | None => fst out = Normal JNull /\ ctx (snd out) = ctx w
     end.
Proof.
  unfold getVideoProgress_resume, try_catch, bind, ret, throw, console_error,
    console_log.
  destruct settledTo as [[| |b|z|s|fields]|err];
    try (cbn; split; [reflexivity|split; reflexivity]).
  cbn [ctx requests console].
  match goal with
  | |- context [adopt_response (JObj fields) ?what ?w0] =>
      destruct (adopt_response_object fields what w0) as (w' & Heq & Hr & Hc);
        rewrite Heq
  end.
  cbn [fst snd ctx requests console] in *. split; [exact Hr|].
  destruct (payload (Resolved (JObj fields))); split; trivial.
Qed.

Lemma fetchVideo_unfold (isAuthenticated : bool) (id : string) (w : World) :
  fetchVideo axios isAuthenticated id w
  = match getVideo axios isAuthenticated id w with
    | (Normal out, w') => (Normal (snd out), w')
    | (Throw e, w') =>
        (Normal None,
         mkWorld (ctx w') (requests w') (console w' ++ ["Error fetching video:"]))
    end.
Proof.
  unfold fetchVideo, try_catch, bind, ret, console_error, console_log.
  destruct (getVideo axios isAuthenticated id w) as [[out|e] w']; reflexivity.
Qed.

End VideoFacts.

(** * The video operations: properties *)

(** X10. Whatever the server does, and even when it throws, [getVideos]
    sends exactly one request, leaves [loading] off, and touches neither the
    current video nor the stored progress. *)
Theorem X10_getVideos_one_request (axios : Request -> AxiosResult) (w : World) :
  let out := getVideos axios w in
  loading (ctx (snd out)) = false
  /\ requests (snd out) = requests w ++ [mkRequest GET api_videos None]
  /\ currentVideo (ctx (snd out)) = currentVideo (ctx w)
  /\ progress (ctx (snd out)) = progress (ctx w).
Proof. apply getVideos_always. Qed.

(** X11. When the request of [getVideos] is rejected with a value other
    than [undefined] and [null], the call does not throw: it returns an
    empty array, keeps the list of videos it had, and records as error the
    server's [response.data.message] if that is truthy and
    'Error fetching videos' otherwise. *)
Theorem X11_getVideos_failure
        (axios : Request -> AxiosResult) (w : World) (err : jsval) :
  axios (mkRequest GET api_videos None) = Rejected err ->
  nullish err = false ->
  let out := getVideos axios w in
  fst out = Normal EmptyArray
  /\ error (ctx (snd out))
     = js_or (opt_prop (opt_prop (opt_prop err "response") "data") "message")
             (JStr "Error fetching videos")
  /\ truthy (error (ctx (snd out))) = true
  /\ videos (ctx (snd out)) = videos (ctx w).
Proof. apply getVideos_failure. Qed.

Lemma X11_getVideos_failure_witness :
  let err :=
    JObj (Field "response"
            (JObj (Field "data" (JObj (Field "message" (JStr "down") NoField))
                         NoField))
            NoField) in
  let axios := fun _ : Request => Rejected err in
  let w := mkWorld (mkVideoState JNull JNull JNull false JNull) [] [] in
  axios (mkRequest GET api_videos None) = Rejected err
  /\ nullish err = false
  /\ fst (getVideos axios w) = Normal EmptyArray
  /\ error (ctx (snd (getVideos axios w))) = JStr "down".
Proof.
  intros err axios w.
  assert (E : axios (mkRequest GET api_videos None) = Rejected err) by reflexivity.
  assert (N : nullish err = false) by reflexivity.
  pose proof (X11_getVideos_failure axios w err E N) as (H1 & H2 & _).
  split; [exact E|]. split; [exact N|]. split; [exact H1|exact H2].
Defined.

(** X12. Whatever the server does, [getVideo] leaves [loading] off and
    the list of videos alone; it sends the video request and at most one
    more, the progress request of a detached [getVideoProgress]; for a user
    who is not authenticated it sends the video request only and keeps the
    stored progress. *)
Theorem X12_getVideo_requests
        (axios : Request -> AxiosResult) (isAuthenticated : bool) (id : string)
        (w : World) :
  let out := getVideo axios isAuthenticated id w in
  loading (ctx (snd out)) = false
  /\ videos (ctx (snd out)) = videos (ctx w)
  /\ exists more,
      requests (snd out) = requests w ++ mkRequest GET (api_video id) None :: more
      /\ (more = [] \/ more = [mkRequest GET (api_progress id) None])
      /\ (isAuthenticated = false ->
          more = [] /\ progress (ctx (snd out)) = progress (ctx w)).
Proof. apply getVideo_always. Qed.

(** X13. When the request of [getVideo] is rejected with a value other
    than [undefined] and [null], the call throws that very value after
    recording the error message (the server's or 'Error fetching video'); the
    current video and the stored progress stay as they were and no further
    request is sent. *)
Theorem X13_getVideo_failure
        (axios : Request -> AxiosResult) (isAuthenticated : bool) (id : string)
        (w : World) (err : jsval) :
  axios (mkRequest GET (api_video id) None) = Rejected err ->
  nullish err = false ->
  let out := getVideo axios isAuthenticated id w in
  fst out = Throw err
  /\ error (ctx (snd out))
     = js_or (opt_prop (opt_prop (opt_prop err "response") "data") "message")
             (JStr "Error fetching video")
  /\ truthy (error (ctx (snd out))) = true
  /\ currentVideo (ctx (snd out)) = currentVideo (ctx w)
  /\ progress (ctx (snd out)) = progress (ctx w)
  /\ requests (snd out) = requests w ++ [mkRequest GET (api_video id) None].
Proof. apply getVideo_failure. Qed.

Lemma X13_getVideo_failure_witness :
  let err := JObj (Field "message" (JStr "Network Error") NoField) in
  let axios := fun _ : Request => Rejected err in
  let w := mkWorld (mkVideoState JNull JNull JNull false JNull) [] [] in
  axios (mkRequest GET (api_video "7") None) = Rejected err
  /\ nullish err = false
  /\ fst (getVideo axios true "7" w) = Throw err
  /\ error (ctx (snd (getVideo axios true "7" w))) = JStr "Error fetching video".
Proof.
  intros err axios w.
  assert (E : axios (mkRequest GET (api_video "7") None) = Rejected err)
    by reflexivity.
  assert (N : nullish err = false) by reflexivity.
  pose proof (X13_getVideo_failure axios true "7" w err E N) as (H1 & H2 & _).
  split; [exact E|]. split; [exact N|]. split; [exact H1|exact H2].
Defined.

(** X14. When the video request resolves with an object, [getVideo]
    returns that object, stores its [data] as the current video and clears
    the error. For an authenticated user a truthy [progress] in the response
    becomes the stored progress and nothing more is sent; without one a
    progress request goes out, detached, and the stored progress waits for
    it. *)
Theorem X14_getVideo_success
        (axios : Request -> AxiosResult) (isAuthenticated : bool) (id : string)
        (w : World) (fields : jsfields) :
  axios (mkRequest GET (api_video id) None) = Resolved (JObj fields) ->
  let out := getVideo axios isAuthenticated id w in
  let stored := lookup_field "progress" fields in
  let detach := isAuthenticated && negb (truthy stored) in
  fst out = Normal (JObj fields,
                    if detach
                    then Some (axios (mkRequest GET (api_progress id) None))
                    else None)
  /\ currentVideo (ctx (snd out)) = lookup_field "data" fields
  /\ error (ctx (snd out)) = JNull
  /\ progress (ctx (snd out))
     = (if isAuthenticated && truthy stored then stored else progress (ctx w))
  /\ requests (snd out)
     = requests w ++ mkRequest GET (api_video id) None
                  :: (if detach then [mkRequest GET (api_progress id) None] else []).
Proof. apply getVideo_success. Qed.

Lemma X14_getVideo_success_witness :
  let body :=
    Field "data" (JObj (Field "title" (JStr "Intro") NoField))
          (Field "progress" (JObj (Field "lastPosition" (JNum 42) NoField))
                 NoField) in
  let axios := fun _ : Request => Resolved (JObj body) in
  let w := mkWorld (mkVideoState JNull JNull JNull false JNull) [] [] in
  axios (mkRequest GET (api_video "7") None) = Resolved (JObj body)
  /\ progress (ctx (snd (getVideo axios true "7" w)))
     = JObj (Field "lastPosition" (JNum 42) NoField)
  /\ requests (snd (getVideo axios true "7" w))
     = [mkRequest GET (api_video "7") None].
Proof.
  intros body axios w.
  assert (E : axios (mkRequest GET (api_video "7") None) = Resolved (JObj body))
    by reflexivity.
  pose proof (X14_getVideo_success axios true "7" w body E) as (_ & _ & _ & H4 & H5).
  split; [exact E|]. split; [exact H4|exact H5].
Defined.

(** X15. The detached progress fetch of [getVideo] does what an awaited
    [getVideoProgress] does. For an authenticated user and a response
    without [progress], once the detached call has run its course, the
    stored progress is the data of the progress response if that reports
    success and carries data, and what it was before otherwise; nothing has
    thrown, [loading] is off and two requests have gone out. *)
Theorem X15_getVideo_detached_progress
        (axios : Request -> AxiosResult) (id : string) (w : World)
        (fields : jsfields) :
  axios (mkRequest GET (api_video id) None) = Resolved (JObj fields) ->
  truthy (lookup_field "progress" fields) = false ->
  (forall w0, bind (getVideoProgress_begin axios id) getVideoProgress_resume w0
              = getVideoProgress axios true id w0)
  /\ let out := getVideo axios true id w in
     let settledTo := axios (mkRequest GET (api_progress id) None) in
     let final := getVideoProgress_resume settledTo (snd out) in
     fst out = Normal (JObj fields, Some settledTo)
     /\ (exists v, fst final = Normal v)
     /\ progress (ctx (snd final))
        = match payload settledTo with
          | Some d => d
          | None => progress (ctx w)
          end
     /\ loading (ctx (snd final)) = false
     /\ requests (snd final)
        = requests w ++ [mkRequest GET (api_video id) None;
                         mkRequest GET (api_progress id) None].
Proof.
  intros E Hp. split; [intros w0; apply getVideoProgress_split|].
  cbv zeta.
  pose proof (getVideo_success axios true id w fields E) as (H1 & _ & _ & H4 & H5).
  pose proof (getVideo_always axios true id w) as (Hl & _).
  cbv zeta in H1, H4, H5, Hl. rewrite Hp in *. cbn [andb negb] in *.
  pose proof (getVideoProgress_resume_settles
                (axios (mkRequest GET (api_progress id) None))
                (snd (getVideo axios true id w))) as (Hr & Hs).
  cbv zeta in Hr, Hs.
  split; [exact H1|].
  destruct (payload (axios (mkRequest GET (api_progress id) None)))
    as [d|]; destruct Hs as (Hf & Hc); rewrite Hc, Hr, H5.
  - split; [eauto|]. cbn. split; [reflexivity|]. split; [|reflexivity].
    unfold adopted in *. cbn. exact Hl.
  - split; [eauto|]. split; [exact H4|]. split; [exact Hl|reflexivity].
Qed.

Lemma X15_getVideo_detached_progress_witness :
  let body := Field "data" (JObj (Field "title" (JStr "Intro") NoField)) NoField in
  let saved := JObj (Field "lastPosition" (JNum 42) NoField) in
  let axios := fun req : Request =>
    if String.eqb (req_url req) (api_video "7") then Resolved (JObj body)
    else Resolved (JObj (Field "success" (JBool true) (Field "data" saved NoField))) in
  let w := mkWorld (mkVideoState JNull JNull JNull false JNull) [] [] in
  axios (mkRequest GET (api_video "7") None) = Resolved (JObj body)
  /\ truthy (lookup_field "progress" body) = false
  /\ progress (ctx (snd (getVideoProgress_resume
                           (axios (mkRequest GET (api_progress "7") None))
                           (snd (getVideo axios true "7" w))))) = saved.
Proof.
  intros body saved axios w.
  assert (E : axios (mkRequest GET (api_video "7") None) = Resolved (JObj body))
    by reflexivity.
  assert (P : truthy (lookup_field "progress" body) = false) by reflexivity.
  pose proof (proj2 (X15_getVideo_detached_progress axios "7" w body E P))
    as (_ & _ & H3 & _).
  split; [exact E|]. split; [exact P|]. exact H3.
Defined.

(** * The video page *)

Section PageFacts.

Variable axios : Request -> AxiosResult.

Lemma fetchVideo_ctx (isAuthenticated : bool) (id : string) (w : World) :
  (exists d, fst (fetchVideo axios isAuthenticated id w) = Normal d)
  /\ ctx (snd (fetchVideo axios isAuthenticated id w))
     = ctx (snd (getVideo axios isAuthenticated id w)).
Proof.
  rewrite fetchVideo_unfold.
  destruct (getVideo axios isAuthenticated id w) as [[out|e] w']; cbn; eauto.
Qed.

Lemma fetchVideo_never_loading (isAuthenticated : bool) (id : string) (w : World) :
  (exists d, fst (fetchVideo axios isAuthenticated id w) = Normal d)
  /\ renderPage (ctx (snd (fetchVideo axios isAuthenticated id w))) <> LoadingPage.
Proof.
  destruct (fetchVideo_ctx isAuthenticated id w) as (Hn & ->).
  split; [exact Hn|].
  pose proof (getVideo_always axios isAuthenticated id w) as (Hl & _).
  cbv zeta in Hl. unfold renderPage. rewrite Hl.
  destruct (truthy _); [discriminate|]. destruct (negb _); discriminate.
Qed.

Lemma fetchVideo_failure_page (isAuthenticated : bool) (id : string) (w : World)
      (err : jsval) :
  axios (mkRequest GET (api_video id) None) = Rejected err ->
  nullish err = false ->
  renderPage (ctx (snd (fetchVideo axios isAuthenticated id w)))
  = ErrorPage (js_or (opt_prop (opt_prop (opt_prop err "response") "data") "message")
                     (JStr "Error fetching video")).
Proof.
  intros E Hn. destruct (fetchVideo_ctx isAuthenticated id w) as (_ & ->).
  pose proof (getVideo_always axios isAuthenticated id w) as (Hl & _).
  pose proof (getVideo_failure axios isAuthenticated id w err E Hn)
    as (_ & He & Ht & _).
  cbv zeta in Hl, He, Ht. unfold renderPage. now rewrite Hl, Ht, He.
Qed.

Lemma fetchVideo_success_page (isAuthenticated : bool) (id : string) (w : World)
      (fields : jsfields) :
  axios (mkRequest GET (api_video id) None) = Resolved (JObj fields) ->
  renderPage (ctx (snd (fetchVideo axios isAuthenticated id w)))
  = if truthy (lookup_field "data" fields)
    then PlayerPage (lookup_field "data" fields)
    else NotFoundPage.
Proof.
  intros E. destruct (fetchVideo_ctx isAuthenticated id w) as (_ & ->).
  pose proof (getVideo_always axios isAuthenticated id w) as (Hl & _).
  pose proof (getVideo_success axios isAuthenticated id w fields E)
    as (_ & Hc & He & _).
  cbv zeta in Hl, Hc, He. unfold renderPage. rewrite Hl, He, Hc. cbn.
  now destruct (truthy (lookup_field "data" fields)).
Qed.

End PageFacts.

(** X16. The fetch of the video page never throws, whatever [getVideo]
    does, and once it is over the page no longer shows 'Loading...'. *)
Theorem X16_page_fetch_settles
        (axios : Request -> AxiosResult) (isAuthenticated : bool) (id : string)
        (w : World) :
  (exists d, fst (fetchVideo axios isAuthenticated id w) = Normal d)
  /\ renderPage (ctx (snd (fetchVideo axios isAuthenticated id w))) <> LoadingPage.
Proof. apply fetchVideo_never_loading. Qed.

(** X17. What the page shows after its fetch: the error page with the
    recorded message when the request was rejected (with a value other than
    [undefined] and [null]); when it resolved with an object, the player for
    its [data] if that is truthy and 'Video Not Found' otherwise. *)
Theorem X17_page_after_fetch
        (axios : Request -> AxiosResult) (isAuthenticated : bool) (id : string)
        (w : World) :
  (forall err,
      axios (mkRequest GET (api_video id) None) = Rejected err ->
      nullish err = false ->
      renderPage (ctx (snd (fetchVideo axios isAuthenticated id w)))
      = ErrorPage (js_or (opt_prop (opt_prop (opt_prop err "response") "data")
                                   "message")
                         (JStr "Error fetching video")))
  /\ (forall fields,
         axios (mkRequest GET (api_video id) None) = Resolved (JObj fields) ->
         renderPage (ctx (snd (fetchVideo axios isAuthenticated id w)))
         = if truthy (lookup_field "data" fields)
           then PlayerPage (lookup_field "data" fields)
           else NotFoundPage).
Proof.
  split.
  - intros err. apply fetchVideo_failure_page.
  - intros fields. apply fetchVideo_success_page.
Qed.

Lemma X17_page_after_fetch_witness :
  let err := JObj (Field "message" (JStr "Network Error") NoField) in
  let axios := fun _ : Request => Rejected err in
  let w := mkWorld (mkVideoState JNull JNull JNull false JNull) [] [] in
  axios (mkRequest GET (api_video "7") None) = Rejected err
  /\ nullish err = false
  /\ renderPage (ctx (snd (fetchVideo axios false "7" w)))
     = ErrorPage (JStr "Error fetching video").
Proof.
  intros err axios w.
  assert (E : axios (mkRequest GET (api_video "7") None) = Rejected err)
    by reflexivity.
  assert (N : nullish err = false) by reflexivity.
  split; [exact E|]. split; [exact N|].
  exact (proj1 (X17_page_after_fetch axios false "7" w) err E N).
Defined.

(** * The AuthProvider context: facts *)

Section AuthFacts.

Import AuthContext.

Variable axios : Request -> AxiosResult.
Variable toString : jsval -> string.

Ltac run_auth :=
  unfold loadUser, register, login, authenticate, logout, clearError,
    setAuthToken, await_axios, AuthContext.try_catch, AuthContext.bind,
    AuthContext.ret, AuthContext.throw, AuthContext.get_prop, setUser, setToken,
    setIsAuthenticated, AuthContext.setLoading, AuthContext.setError,
    AuthContext.console_error, update;
  cbn [auth storedToken authorization sent AuthContext.console user token
       isAuthenticated AuthContext.loading AuthContext.error fst snd].

Lemma authenticate_failure (url fallback : string) (formData err : jsval)
      (w : World) :
  axios (mkRequest POST url (Some formData)) = Rejected err ->
  let out := authenticate axios toString url fallback formData w in
  user (auth (snd out)) = user (auth w)
  /\ token (auth (snd out)) = token (auth w)
  /\ isAuthenticated (auth (snd out)) = isAuthenticated (auth w)
  /\ storedToken (snd out) = storedToken w
  /\ authorization (snd out) = authorization w
  /\ match failure_message err with
     | Some message =>
         fst out = Throw err
         /\ AuthContext.error (auth (snd out)) = js_or message (JStr fallback)
     | None =>
         fst out = Throw (JStr "TypeError")
         /\ AuthContext.error (auth (snd out)) = AuthContext.error (auth w)
     end.
Proof.
  intros E. run_auth. rewrite E. unfold failure_message.
  destruct err as [| |b|z|s|fields]; cbn; try (repeat split; fail).
  destruct (lookup_field "response" fields) as [| |b|z|s|rfields]; cbn;
    try (repeat split; fail).
  destruct (lookup_field "data" rfields) as [| |b|z|s|dfields]; cbn;
    repeat split.
Qed.

Lemma authenticate_success (url fallback : string) (formData : jsval)
      (fields : jsfields) (w : World) :
  axios (mkRequest POST url (Some formData)) = Resolved (JObj fields) ->
  let out := authenticate axios toString url fallback formData w in
  let tok := lookup_field "token" fields in
  fst out = Normal (JObj fields)
  /\ isAuthenticated (auth (snd out)) = true
  /\ user (auth (snd out)) = lookup_field "user" fields
  /\ token (auth (snd out)) = tok
  /\ AuthContext.error (auth (snd out)) = JNull
  /\ storedToken (snd out) = (if truthy tok then Some (toString tok) else None)
  /\ authorization (snd out)
     = (if truthy tok then Some (String.append "Bearer " (toString tok)) else None).
Proof.
  intros E. run_auth. rewrite E. cbn.
  destruct (truthy (lookup_field "token" fields)); cbn; repeat split.
Qed.

Lemma authenticate_in_sync (url fallback : string) (formData : jsval) (w : World) :
  credentials_in_sync w ->
  credentials_in_sync (snd (authenticate axios toString url fallback formData w)).
Proof.
  intros Hs. destruct (axios (mkRequest POST url (Some formData))) as [d|err] eqn:E.
  - destruct d as [| |b|z|s|fields].
    6:{ destruct (authenticate_success url fallback formData fields w E)
          as (_ & _ & _ & _ & _ & Hst & Hh).
        cbv zeta in Hst, Hh. unfold credentials_in_sync. rewrite Hst, Hh.
        now destruct (truthy (lookup_field "token" fields)). }
    all: revert Hs; unfold credentials_in_sync; run_auth; rewrite E; cbn;
      auto.
  - destruct (authenticate_failure url fallback formData err w E)
      as (_ & _ & _ & Hst & Hh & _).
    cbv zeta in Hst, Hh. unfold credentials_in_sync. now rewrite Hst, Hh.
Qed.

Lemma loadUser_outcome (w : World) :
  let out := loadUser axios toString w in
  let tok := token (auth w) in
  fst out = Normal tt
  /\ AuthContext.loading (auth (snd out)) = false
  /\ (truthy tok = false ->
      sent (snd out) = sent w
      /\ user (auth (snd out)) = user (auth w)
      /\ token (auth (snd out)) = tok
      /\ isAuthenticated (auth (snd out)) = isAuthenticated (auth w)
      /\ storedToken (snd out) = storedToken w
      /\ authorization (snd out) = authorization w)
  /\ (truthy tok = true ->
      sent (snd out)
      = sent w ++ [(mkRequest GET api_me None,
                    Some (String.append "Bearer " (toString tok)))]
      /\ match axios (mkRequest GET api_me None) with
         | Resolved body =>
             if nullish body
             then isAuthenticated (auth (snd out)) = false
                  /\ token (auth (snd out)) = JNull
                  /\ user (auth (snd out)) = JNull
                  /\ storedToken (snd out) = None
                  /\ authorization (snd out) = None
             else isAuthenticated (auth (snd out)) = true
                  /\ token (auth (snd out)) = tok
                  /\ user (auth (snd out)) = opt_prop body "user"
                  /\ storedToken (snd out) = Some (toString tok)
                  /\ authorization (snd out)
                     = Some (String.append "Bearer " (toString tok))
         | Rejected _ =>
             isAuthenticated (auth (snd out)) = false
             /\ token (auth (snd out)) = JNull
             /\ user (auth (snd out)) = JNull
             /\ storedToken (snd out) = None
             /\ authorization (snd out) = None
         end).
Proof.
  run_auth. destruct (truthy (token (auth w))) eqn:Et; cbn.
  - destruct (axios (mkRequest GET api_me None)) as [[| |b|z|s|fields]|err]; cbn;
      (split; [reflexivity|]); (split; [reflexivity|]);
      (split; [discriminate|]); intros _; repeat split.
  - split; [reflexivity|]. split; [reflexivity|].
    split; [intros _; repeat split|discriminate].
Qed.

Lemma perform_in_sync (w : World) (a : Action) :
  credentials_in_sync w -> credentials_in_sync (perform axios toString w a).
Proof.
  intros Hs. destruct a as [|formData|formData| |]; cbn [perform].
  - pose proof (loadUser_outcome w) as (_ & _ & Hno & Hyes). cbv zeta in Hno, Hyes.
    unfold credentials_in_sync in *.
    destruct (truthy (token (auth w))) eqn:Et.
    + destruct (Hyes eq_refl) as (_ & Hm).
      destruct (axios (mkRequest GET api_me None)) as [body|err].
      * destruct (nullish body); destruct Hm as (_ & _ & _ & -> & ->); reflexivity.
      * destruct Hm as (_ & _ & _ & -> & ->); reflexivity.
    + destruct (Hno eq_refl) as (_ & _ & _ & _ & -> & ->). exact Hs.
  - now apply authenticate_in_sync.
  - now apply authenticate_in_sync.
  - unfold credentials_in_sync. run_auth. reflexivity.
  - unfold credentials_in_sync in *. run_auth. exact Hs.
Qed.

Lemma perform_all_in_sync (actions : list Action) :
  forall w, credentials_in_sync w ->
            credentials_in_sync (fold_left (perform axios toString) actions w).
Proof.
  induction actions as [|a actions IH]; intros w Hs; [exact Hs|].
  cbn [fold_left]. apply IH, perform_in_sync, Hs.
Qed.

End AuthFacts.

(** * The AuthProvider context: properties *)

(** X18. A rejected login always throws and leaves user, token,
    authentication flag, stored token and header as they were. When
    [err.response.data] can be read, the thrown value is the rejection
    itself and the error state becomes its [message], or 'Login failed' if
    that is falsy; when the rejection has no [response] or no [data] (a
    network failure), reading the message throws a TypeError in place of the
    rejection and the error state is not touched. *)
Theorem X18_login_failure
        (axios : Request -> AxiosResult) (toString : jsval -> string)
        (formData err : jsval) (w : AuthContext.World) :
  axios (mkRequest POST AuthContext.api_login (Some formData)) = Rejected err ->
  let out := AuthContext.login axios toString formData w in
  AuthContext.user (AuthContext.auth (snd out))
  = AuthContext.user (AuthContext.auth w)
  /\ AuthContext.token (AuthContext.auth (snd out))
     = AuthContext.token (AuthContext.auth w)
  /\ AuthContext.isAuthenticated (AuthContext.auth (snd out))
     = AuthContext.isAuthenticated (AuthContext.auth w)
  /\ AuthContext.storedToken (snd out) = AuthContext.storedToken w
  /\ AuthContext.authorization (snd out) = AuthContext.authorization w
  /\ match AuthContext.failure_message err with
     | Some message =>
         fst out = Throw err
         /\ AuthContext.error (AuthContext.auth (snd out))
            = js_or message (JStr "Login failed")
     | None =>
         fst out = Throw (JStr "TypeError")
         /\ AuthContext.error (AuthContext.auth (snd out))
            = AuthContext.error (AuthContext.auth w)
     end.
Proof. apply authenticate_failure. Qed.

Lemma X18_login_failure_witness :
  let err := JObj (Field "message" (JStr "Network Error") NoField) in
  let axios := fun _ : Request => Rejected err in
  let toString := fun _ : jsval => "token" in
  let w := AuthContext.mkWorld
             (AuthContext.mkState JNull JNull false false (JStr "old"))
             None None [] [] in
  axios (mkRequest POST AuthContext.api_login (Some JNull)) = Rejected err
  /\ fst (AuthContext.login axios toString JNull w) = Throw (JStr "TypeError")
  /\ AuthContext.error (AuthContext.auth (snd (AuthContext.login axios toString JNull w)))
     = JStr "old".
Proof.
  intros err axios toString w.
  assert (E : axios (mkRequest POST AuthContext.api_login (Some JNull)) = Rejected err)
    by reflexivity.
  split; [exact E|].
  exact (proj2 (proj2 (proj2 (proj2 (proj2
           (X18_login_failure axios toString JNull err w E)))))).
Defined.

(** X19. A login whose request resolves with an object returns that
    object and marks the user authenticated, with [user] and [token] taken
    from it and the error cleared. The token is stored and the bearer header
    set exactly when the response's [token] is truthy; when it is not, both
    are removed although the user counts as authenticated. *)
Theorem X19_login_success
        (axios : Request -> AxiosResult) (toString : jsval -> string)
        (formData : jsval) (fields : jsfields) (w : AuthContext.World) :
  axios (mkRequest POST AuthContext.api_login (Some formData))
  = Resolved (JObj fields) ->
  let out := AuthContext.login axios toString formData w in
  let tok := lookup_field "token" fields in
  fst out = Normal (JObj fields)
  /\ AuthContext.isAuthenticated (AuthContext.auth (snd out)) = true
  /\ AuthContext.user (AuthContext.auth (snd out)) = lookup_field "user" fields
  /\ AuthContext.token (AuthContext.auth (snd out)) = tok
  /\ AuthContext.error (AuthContext.auth (snd out)) = JNull
  /\ AuthContext.storedToken (snd out)
     = (if truthy tok then Some (toString tok) else None)
  /\ AuthContext.authorization (snd out)
     = (if truthy tok then Some (String.append "Bearer " (toString tok)) else None).
Proof. apply authenticate_success. Qed.

Lemma X19_login_success_witness :
  let body := Field "user" (JStr "ada") NoField in
  let axios := fun _ : Request => Resolved (JObj body) in
  let toString := fun _ : jsval => "token" in
  let w := AuthContext.mkWorld
             (AuthContext.mkState JNull JNull false false JNull)
             (Some "old") (Some "Bearer old") [] [] in
  axios (mkRequest POST AuthContext.api_login (Some JNull)) = Resolved (JObj body)
  /\ AuthContext.isAuthenticated
       (AuthContext.auth (snd (AuthContext.login axios toString JNull w))) = true
  /\ AuthContext.authorization (snd (AuthContext.login axios toString JNull w)) = None.
Proof.
  intros body axios toString w.
  assert (E : axios (mkRequest POST AuthContext.api_login (Some JNull))
              = Resolved (JObj body)) by reflexivity.
  pose proof (X19_login_success axios toString JNull body w E)
    as (_ & H2 & _ & _ & _ & _ & H7).
  split; [exact E|]. split; [exact H2|exact H7].
Defined.

(** X20. [loadUser] never throws and always leaves [loading] off. Without
    a truthy token in the state it sends nothing and changes nothing else.
    With one, its single request goes out carrying the bearer header of that
    token; the user ends up authenticated when the request resolves with a
    body, and with token, user, stored token and header all cleared when it
    is rejected or resolves without one. *)
Theorem X20_loadUser_outcome
        (axios : Request -> AxiosResult) (toString : jsval -> string)
        (w : AuthContext.World) :
  let out := AuthContext.loadUser axios toString w in
  let tok := AuthContext.token (AuthContext.auth w) in
  fst out = Normal tt
  /\ AuthContext.loading (AuthContext.auth (snd out)) = false
  /\ (truthy tok = false ->
      AuthContext.sent (snd out) = AuthContext.sent w
      /\ AuthContext.user (AuthContext.auth (snd out))
         = AuthContext.user (AuthContext.auth w)
      /\ AuthContext.token (AuthContext.auth (snd out)) = tok
      /\ AuthContext.isAuthenticated (AuthContext.auth (snd out))
         = AuthContext.isAuthenticated (AuthContext.auth w)
      /\ AuthContext.storedToken (snd out) = AuthContext.storedToken w
      /\ AuthContext.authorization (snd out) = AuthContext.authorization w)
  /\ (truthy tok = true ->
      AuthContext.sent (snd out)
      = AuthContext.sent w
          ++ [(mkRequest GET AuthContext.api_me None,
               Some (String.append "Bearer " (toString tok)))]
      /\ match axios (mkRequest GET AuthContext.api_me None) with
         | Resolved body =>
             if nullish body
             then AuthContext.isAuthenticated (AuthContext.auth (snd out)) = false
                  /\ AuthContext.token (AuthContext.auth (snd out)) = JNull
                  /\ AuthContext.user (AuthContext.auth (snd out)) = JNull
                  /\ AuthContext.storedToken (snd out) = None
                  /\ AuthContext.authorization (snd out) = None
             else AuthContext.isAuthenticated (AuthContext.auth (snd out)) = true
                  /\ AuthContext.token (AuthContext.auth (snd out)) = tok
                  /\ AuthContext.user (AuthContext.auth (snd out))
                     = opt_prop body "user"
                  /\ AuthContext.storedToken (snd out) = Some (toString tok)
                  /\ AuthContext.authorization (snd out)
                     = Some (String.append "Bearer " (toString tok))
         | Rejected _ =>
             AuthContext.isAuthenticated (AuthContext.auth (snd out)) = false
             /\ AuthContext.token (AuthContext.auth (snd out)) = JNull
             /\ AuthContext.user (AuthContext.auth (snd out)) = JNull
             /\ AuthContext.storedToken (snd out) = None
             /\ AuthContext.authorization (snd out) = None
         end).
Proof. apply loadUser_outcome. Qed.

Lemma X20_loadUser_outcome_witness :
  let axios := fun _ : Request => Rejected (JStr "expired") in
  let toString := fun v : jsval => match v with JStr s => s | _ => "?" end in
  let w := AuthContext.mkWorld
             (AuthContext.mkState JNull (JStr "abc") false true JNull)
             (Some "abc") None [] [] in
  truthy (AuthContext.token (AuthContext.auth w)) = true
  /\ AuthContext.sent (snd (AuthContext.loadUser axios toString w))
     = [(mkRequest GET AuthContext.api_me None, Some "Bearer abc")]
  /\ AuthContext.storedToken (snd (AuthContext.loadUser axios toString w)) = None.
Proof.
  intros axios toString w.
  assert (T : truthy (AuthContext.token (AuthContext.auth w)) = true) by reflexivity.
  pose proof (X20_loadUser_outcome axios toString w) as (_ & _ & _ & Hyes).
  destruct (Hyes T) as (Hs & _ & _ & _ & Hst & _).
  split; [exact T|]. split; [exact Hs|exact Hst].
Defined.

(** X21. Whatever register, login, logout, loadUser and clearError are
    called in whatever order, and whatever the server answers, the bearer
    header and the stored token stay in step: if the header is the bearer
    form of the stored token (or both are absent) before, it is so after. *)
Theorem X21_credentials_stay_in_sync
        (axios : Request -> AxiosResult) (toString : jsval -> string)
        (actions : list AuthContext.Action) (w : AuthContext.World) :
  AuthContext.credentials_in_sync w ->
  AuthContext.credentials_in_sync
    (fold_left (AuthContext.perform axios toString) actions w).
Proof. apply perform_all_in_sync. Qed.

Lemma X21_credentials_stay_in_sync_witness :
  let axios := fun _ : Request =>
    Resolved (JObj (Field "token" (JStr "abc") NoField)) in
  let toString := fun v : jsval => match v with JStr s => s | _ => "?" end in
  let w := AuthContext.mkWorld
             (AuthContext.mkState JNull JNull false true JNull) None None [] [] in
  let actions := [AuthContext.DoLogin JNull; AuthContext.DoLoadUser;
                  AuthContext.DoLogout; AuthContext.DoRegister JNull] in
  AuthContext.credentials_in_sync w
  /\ AuthContext.credentials_in_sync
       (fold_left (AuthContext.perform axios toString) actions w).
Proof.
  intros axios toString w actions.
  assert (H : AuthContext.credentials_in_sync w) by reflexivity.
  split; [exact H|].
  exact (X21_credentials_stay_in_sync axios toString actions w H).
Defined.

(** * formatTime *)

Section FormatTime.

Lemma to_int_proper (n : Z) :
  Z.to_int n <> Decimal.Pos Decimal.Nil /\ Z.to_int n <> Decimal.Neg Decimal.Nil.
Proof.
  destruct n as [|p|p]; cbn; split; try discriminate;
    intros [= H]; now apply Unsigned.to_uint_nonnil in H.
Qed.

Lemma read_number_to_string (n : Z) : read_number (number_to_string n) = Some n.
Proof.
  unfold read_number, number_to_string.
  destruct (to_int_proper n) as [H1 H2].
  rewrite NilZero.isi by assumption. cbn. now rewrite DecimalZ.of_to.
Qed.

Lemma string_of_uint_length (d : Decimal.uint) :
  String.length (NilEmpty.string_of_uint d) = Decimal.nb_digits d.
Proof. induction d; cbn; congruence. Qed.

Lemma short_uint_small (d : Decimal.uint) :
  (Decimal.nb_digits d <= 1)%nat -> Z.of_uint d <= 9.
Proof.
  destruct d as [|d|d|d|d|d|d|d|d|d|d]; cbn; try lia;
    destruct d; cbn; intros H; try lia; discriminate.
Qed.

(** From ten on a numeral has two digits or more, so padding leaves it
    alone. *)
Lemma number_to_string_long (n : Z) :
  10 <= n -> (2 <= String.length (number_to_string n))%nat.
Proof.
  intros Hn. destruct n as [|p|p]; try lia.
  unfold number_to_string. cbn [Z.to_int NilZero.string_of_int].
  pose proof (Unsigned.to_uint_nonnil p) as Hnil.
  pose proof (DecimalZ.of_to (Zpos p)) as Hof.
  change (Z.of_uint (Pos.to_uint p) = Z.pos p) in Hof.
  remember (Pos.to_uint p) as d eqn:E. clear E.
  assert (Hs : NilZero.string_of_uint d = NilEmpty.string_of_uint d)
    by (destruct d; [contradiction|reflexivity..]).
  rewrite Hs, string_of_uint_length.
  destruct (Nat.le_gt_cases 2 (Decimal.nb_digits d)) as [H|H]; [exact H|].
  assert (H' : (Decimal.nb_digits d <= 1)%nat) by lia.
  apply short_uint_small in H'. lia.
Qed.

Lemma append_length (s1 s2 : string) :
  String.length (String.append s1 s2) = (String.length s1 + String.length s2)%nat.
Proof. induction s1 as [|a s1 IH]; cbn; [reflexivity|now rewrite IH]. Qed.

Lemma padStart2_length (s : string) : (2 <= String.length (padStart2 s))%nat.
Proof. destruct s as [|a [|b s']]; cbn; lia. Qed.

(** A decidable property checked on every number below [n] holds of
    every number below [n]. *)
Lemma small_range (P : Z -> bool) (n : nat) :
  forallb (fun i => P (Z.of_nat i)) (seq 0 n) = true ->
  forall r, 0 <= r < Z.of_nat n -> P r = true.
Proof.
  intros H r Hr. rewrite forallb_forall in H.
  specialize (H (Z.to_nat r)). rewrite Z2Nat.id in H by lia.
  apply H, in_seq. lia.
Qed.

Lemma pad_two_digits (r : Z) :
  0 <= r < 100 ->
  String.length (padStart2 (number_to_string r)) = 2%nat
  /\ read_number (padStart2 (number_to_string r)) = Some r.
Proof.
  intros Hr.
  pose proof (small_range
                (fun r => Nat.eqb (String.length (padStart2 (number_to_string r))) 2
                          && match read_number (padStart2 (number_to_string r)) with
                             | Some x => x =? r
                             | None => false
                             end) 100 eq_refl r Hr) as H.
  cbv beta in H. apply andb_prop in H as [H1 H2].
  split; [now apply Nat.eqb_eq|].
  destruct (read_number (padStart2 (number_to_string r))); [|discriminate].
  apply Z.eqb_eq in H2. now subst.
Qed.

Lemma pad_read (n : Z) :
  0 <= n -> read_number (padStart2 (number_to_string n)) = Some n.
Proof.
  intros Hn. destruct (Z.lt_ge_cases n 10) as [Hlt|Hge].
  - apply pad_two_digits. lia.
  - pose proof (number_to_string_long n Hge) as Hl.
    unfold padStart2.
    destruct (String.length (number_to_string n)) as [|[|k]]; try lia.
    apply read_number_to_string.
Qed.

Lemma formatTime_reads_back (z : Z) :
  0 <= z ->
  exists mm ss,
    formatTime (JNum z) = String.append mm (String.append ":" ss)
    /\ (2 <= String.length mm)%nat
    /\ String.length ss = 2%nat
    /\ read_number mm = Some (z / 60)
    /\ read_number ss = Some (z mod 60)
    /\ (z < 6000 -> String.length (formatTime (JNum z)) = 5%nat).
Proof.
  intros Hz. cbn [formatTime]. cbv zeta.
  rewrite Z.rem_mod_nonneg by lia.
  pose proof (Z.mod_pos_bound z 60 ltac:(lia)) as Hm.
  pose proof (Z.div_pos z 60 Hz ltac:(lia)) as Hd.
  destruct (pad_two_digits (z mod 60) ltac:(lia)) as (Hl & Hr).
  exists (padStart2 (number_to_string (z / 60))),
         (padStart2 (number_to_string (z mod 60))).
  split; [reflexivity|]. split; [apply padStart2_length|].
  split; [exact Hl|]. split; [now apply pad_read|]. split; [exact Hr|].
  intros Hlt.
  assert (Hq : 0 <= z / 60 < 100) by (split; [lia|apply Z.div_lt_upper_bound; lia]).
  destruct (pad_two_digits (z / 60) Hq) as (Hl' & _).
  rewrite !append_length, Hl, Hl'. reflexivity.
Qed.

End FormatTime.

(** X22. For a whole number of seconds that is not negative, [formatTime]
    writes the minutes, a colon and the seconds: the part after the colon
    has exactly two digits and reads back as [seconds mod 60], the part
    before it has at least two and reads back as [seconds / 60]; below 100
    minutes the string has exactly five characters. *)
Theorem X22_formatTime_reads_back (z : Z) :
  0 <= z ->
  exists mm ss,
    formatTime (JNum z) = String.append mm (String.append ":" ss)
    /\ (2 <= String.length mm)%nat
    /\ String.length ss = 2%nat
    /\ read_number mm = Some (z / 60)
    /\ read_number ss = Some (z mod 60)
    /\ (z < 6000 -> String.length (formatTime (JNum z)) = 5%nat).
Proof. apply formatTime_reads_back. Qed.

Lemma X22_formatTime_reads_back_witness :
  0 <= 75
  /\ exists mm ss,
      formatTime (JNum 75) = String.append mm (String.append ":" ss)
      /\ (2 <= String.length mm)%nat
      /\ String.length ss = 2%nat
      /\ read_number mm = Some (75 / 60)
      /\ read_number ss = Some (75 mod 60)
      /\ (75 < 6000 -> String.length (formatTime (JNum 75)) = 5%nat).
Proof.
  assert (H : 0 <= 75) by lia.
  split; [exact H|]. exact (X22_formatTime_reads_back 75 H).
Defined.

(** * The api client *)

(** X23. The response interceptor never swallows an error: for an error
    other than [undefined] and [null] it rejects with that very error. When
    the error's response has status 401 the stored token is removed and the
    browser sent to '/login', after which the request interceptor adds no
    header to any request; on any other error the browser is left as it
    was. *)
Theorem X23_unauthorized_clears_token (error : jsval) (b : Browser) :
  nullish error = false ->
  let out := responseErrorInterceptor error b in
  fst out = Throw error
  /\ (opt_prop (opt_prop error "response") "status" = JNum 401 ->
      localToken (snd out) = None
      /\ location (snd out) = "/login"
      /\ forall config, requestInterceptor (snd out) config = config)
  /\ (opt_prop (opt_prop error "response") "status" <> JNum 401 ->
      snd out = b).
Proof.
  intros Hn. unfold responseErrorInterceptor. rewrite Hn. cbv zeta.
  assert (Hother : forall status,
             (match status with JNum z => z =? 401 | _ => false end) = false ->
             status <> JNum 401).
  { intros status H [= ->]. discriminate. }
  destruct (opt_prop error "response") as [| |rb|rz|rs|rfields] eqn:Er.
  6:{ cbn [truthy opt_prop].
      destruct (match lookup_field "status" rfields with
                | JNum z => z =? 401
                | _ => false
                end) eqn:Es; cbn [fst snd localToken location].
      - split; [reflexivity|]. split; [intros _; repeat split|].
        intros Hne. exfalso. apply Hne.
        destruct (lookup_field "status" rfields); try discriminate.
        apply Z.eqb_eq in Es. now subst.
      - split; [reflexivity|]. split; [|reflexivity].
        intros H. now apply Hother in Es. }
  all: cbn [opt_prop]; destruct (truthy _); cbn;
    (split; [reflexivity|]); (split; [discriminate|reflexivity]).
Qed.

Lemma X23_unauthorized_clears_token_witness :
  let error :=
    JObj (Field "response" (JObj (Field "status" (JNum 401) NoField)) NoField) in
  let b := mkBrowser (Some "abc") "/videos/7" in
  nullish error = false
  /\ fst (responseErrorInterceptor error b) = Throw error
  /\ localToken (snd (responseErrorInterceptor error b)) = None
  /\ requestInterceptor b (mkConfig "/progress/7" None)
     = mkConfig "/progress/7" (Some "Bearer abc")
  /\ requestInterceptor (snd (responseErrorInterceptor error b))
                        (mkConfig "/progress/7" None)
     = mkConfig "/progress/7" None.
Proof.
  intros error b.
  assert (N : nullish error = false) by reflexivity.
  pose proof (X23_unauthorized_clears_token error b N) as (H1 & H2 & _).
  destruct (H2 eq_refl) as (Ht & _ & Hc).
  split; [exact N|]. split; [exact H1|]. split; [exact Ht|].
  split; [reflexivity|apply Hc].
Defined.
